(** * Guitar fretboard: chord parsing, voicing generation and progression
      optimisation of [script.js], embedded in Rocq.

    Strings are JavaScript strings: finite sequences of UTF-16 code units,
    modelled as [list N].  Fret numbers and note indices are integers ([Z]).
    The field [avgFret] of a voicing is the quotient of the sum of the frets
    by their number, a rational ([Q]); the number the voicing holds is that
    quotient rounded.  The numbers the optimiser computes with are binary64
    values, modelled by the rationals they denote, every operation followed
    by the rounding [double]; [Infinity] is a separate constructor where the
    code uses it.  [null] and [undefined] are [None]; a call that throws
    returns [None] where the function's comment says so.

    The later sections embed what else of the program runs without the
    browser's audio and layout: the fallback voicing, position ids and note
    names with octave, the search, and the page (the [state] object and
    the note markers of the document) with the handlers that change it. *)

From Stdlib Require Import ZArith NArith QArith Qabs List Bool Lia String Ascii.
From Stdlib Require Import Sorted Lqa DecimalString DecimalZ Qround Qpower.
Import ListNotations.

(* ------------------------------------------------------------------ *)
(** ** JavaScript strings *)

Module JS.

Definition jsstring := list N.

(** An ASCII literal as a JavaScript string. *)
Definition lit (s : string) : jsstring :=
  map N_of_ascii (list_ascii_of_string s).

Fixpoint eqb (a b : jsstring) : bool :=
  match a, b with
  | [], [] => true
  | x :: a', y :: b' => N.eqb x y && eqb a' b'
  | _, _ => false
  end.

(** ECMAScript WhiteSpace and LineTerminator code points: what [trim]
    removes and what the regular-expression class [\s] matches. *)
Definition isLineTerminator (c : N) : bool :=
  (N.eqb c 10 || N.eqb c 13 || N.eqb c 8232 || N.eqb c 8233)%bool.

Definition isWhiteSpace (c : N) : bool :=
  (N.eqb c 9 || N.eqb c 11 || N.eqb c 12 || N.eqb c 32 || N.eqb c 160
   || N.eqb c 5760 || (N.leb 8192 c && N.leb c 8202) || N.eqb c 8239
   || N.eqb c 8287 || N.eqb c 12288 || N.eqb c 65279
   || isLineTerminator c)%bool.

Fixpoint dropWhile (p : N -> bool) (s : jsstring) : jsstring :=
  match s with
  | [] => []
  | c :: s' => if p c then dropWhile p s' else s
  end.

Definition trimStart (s : jsstring) : jsstring := dropWhile isWhiteSpace s.
Definition trimEnd (s : jsstring) : jsstring :=
  rev (dropWhile isWhiteSpace (rev s)).
Definition trim (s : jsstring) : jsstring := trimEnd (trimStart s).

(** [s.startsWith(p)] with a character comparison [eqc pattern input]. *)
Fixpoint prefixBy (eqc : N -> N -> bool) (p s : jsstring) : bool :=
  match p, s with
  | [], _ => true
  | x :: p', y :: s' => eqc x y && prefixBy eqc p' s'
  | _ :: _, [] => false
  end.

(** An unanchored literal: does [p] occur somewhere in [s]? *)
Fixpoint occursBy (eqc : N -> N -> bool) (p s : jsstring) : bool :=
  prefixBy eqc p s ||
  match s with
  | [] => false
  | _ :: s' => occursBy eqc p s'
  end.

(** [s.includes(c)] for a single code unit. *)
Definition includes (c : N) (s : jsstring) : bool := existsb (N.eqb c) s.

(** [s.split(c)] for a single-code-unit separator: never empty. *)
Fixpoint splitChar (c : N) (s : jsstring) : list jsstring :=
  match s with
  | [] => [[]]
  | x :: s' =>
      if N.eqb x c then [] :: splitChar c s'
      else match splitChar c s' with
           | [] => [[x]]
           | t :: ts => (x :: t) :: ts
           end
  end.

(** Canonicalize of a case-insensitive (non-unicode) regular expression,
    on the Basic Latin and Latin-1 letters.  The literals of
    [qualityPatterns] canonicalize to ASCII capitals, digits, [+], U+00C2,
    U+00C3, U+00B0 and U+00B8; no code unit outside these two blocks
    canonicalizes to one of them (a code unit above 127 is never mapped
    into ASCII), so on those patterns this is the full comparison. *)
Definition canonicalize (c : N) : N :=
  if (N.leb 97 c && N.leb c 122)%bool then (c - 32)%N
  else if (N.leb 224 c && N.leb c 254 && negb (N.eqb c 247))%bool
       then (c - 32)%N
       else c.

Definition eqCase (x y : N) : bool := N.eqb x y.
Definition eqNoCase (x y : N) : bool :=
  N.eqb (canonicalize x) (canonicalize y).

(** [String.prototype.split] with a regular expression that never matches
    the empty string: [matchAt s] is the length of the match that starts at
    the head of [s], if there is one.  [skip] counts the code units of the
    current separator still to be consumed and [cur] holds the token read
    so far, reversed. *)
Fixpoint splitGo (matchAt : jsstring -> option nat) (s : jsstring)
         (cur : jsstring) (skip : nat) : list jsstring :=
  match s with
  | [] => [rev cur]
  | c :: s' =>
      match skip with
      | S k => splitGo matchAt s' cur k
      | O =>
          match matchAt s with
          | Some (S len) => rev cur :: splitGo matchAt s' [] len
          | _ => splitGo matchAt s' (c :: cur) O
          end
      end
  end.

Definition splitRegex (matchAt : jsstring -> option nat) (s : jsstring)
  : list jsstring := splitGo matchAt s [] O.

(** Length of the longest prefix whose code units all satisfy [p]. *)
Fixpoint runLength (p : N -> bool) (s : jsstring) : nat :=
  match s with
  | [] => O
  | c :: s' => if p c then S (runLength p s') else O
  end.

End JS.

Abbreviation jsstring := JS.jsstring.

(* ------------------------------------------------------------------ *)
(** ** Note tables *)

Open Scope Z_scope.

(** JavaScript [%] on integers truncates toward zero: [Z.rem]. *)
Definition jsrem (a b : Z) : Z := Z.rem a b.

Definition NOTE_NAMES : list jsstring :=
  map JS.lit
      ["C"; "C#"; "D"; "D#"; "E"; "F"; "F#"; "G"; "G#"; "A"; "A#"; "B"]%string.

(** [OPEN_STRING_NOTES[stringNum]]; a missing key is [undefined]. *)
Definition OPEN_STRING_NOTES (stringNum : Z) : option Z :=
  match stringNum with
  | 6 => Some 4
  | 5 => Some 9
  | 4 => Some 2
  | 3 => Some 7
  | 2 => Some 11
  | 1 => Some 4
  | _ => None
  end.

(** A string-keyed object literal, in source order. *)
Fixpoint lookup {A} (tbl : list (jsstring * A)) (k : jsstring) : option A :=
  match tbl with
  | [] => None
  | (k', v) :: tbl' => if JS.eqb k' k then Some v else lookup tbl' k
  end.

Definition noteMap : list (jsstring * Z) :=
  map (fun kv => (JS.lit (fst kv), snd kv))
    [("C", 0); ("C#", 1); ("Db", 1); ("D", 2); ("D#", 3); ("Eb", 3);
     ("E", 4); ("F", 5); ("F#", 6); ("Gb", 6); ("G", 7); ("G#", 8);
     ("Ab", 8); ("A", 9); ("A#", 10); ("Bb", 10); ("B", 11)]%string.

(** [noteMap[noteName] ?? -1] *)
Definition getNoteIndex (noteName : jsstring) : Z :=
  match lookup noteMap noteName with
  | Some i => i
  | None => -1
  end.

Definition flatMap : list (jsstring * jsstring) :=
  map (fun kv => (JS.lit (fst kv), JS.lit (snd kv)))
    [("C#", "Db"); ("D#", "Eb"); ("F#", "Gb"); ("G#", "Ab");
     ("A#", "Bb")]%string.

(** [getNoteAtPosition]; [useFlats] is the global [state.useFlats].  The
    result is [None] where the source yields [undefined] or throws on it
    (a string number outside 1..6, or a note index outside the table). *)
Definition getNoteAtPosition (useFlats : bool) (stringNum fretNum : Z)
  : option jsstring :=
  match OPEN_STRING_NOTES stringNum with
  | None => None
  | Some openNoteIndex =>
      let noteIndex := jsrem (openNoteIndex + fretNum) 12 in
      if noteIndex <? 0 then None
      else
        match nth_error NOTE_NAMES (Z.to_nat noteIndex) with
        | None => None
        | Some noteName =>
            if (useFlats && JS.includes 35 noteName)%bool then
              match lookup flatMap noteName with
              | Some flat => Some flat
              | None => Some noteName
              end
            else Some noteName
        end
  end.

(* ------------------------------------------------------------------ *)
(** ** Chord theory and parsing *)

(** The quality tags, i.e. the keys of [CHORD_INTERVALS]. *)
Inductive Quality :=
| q_major | q_minor | q_dim | q_aug
| q_maj7 | q_7 | q_m7 | q_dim7 | q_m7b5 | q_mMaj7 | q_aug7
| q_9 | q_maj9 | q_m9 | q_add9 | q_6 | q_m6
| q_sus2 | q_sus4 | q_7sus4.

Definition Quality_eqb (a b : Quality) : bool :=
  match a, b with
  | q_major, q_major | q_minor, q_minor | q_dim, q_dim | q_aug, q_aug
  | q_maj7, q_maj7 | q_7, q_7 | q_m7, q_m7 | q_dim7, q_dim7
  | q_m7b5, q_m7b5 | q_mMaj7, q_mMaj7 | q_aug7, q_aug7
  | q_9, q_9 | q_maj9, q_maj9 | q_m9, q_m9 | q_add9, q_add9
  | q_6, q_6 | q_m6, q_m6 | q_sus2, q_sus2 | q_sus4, q_sus4
  | q_7sus4, q_7sus4 => true
  | _, _ => false
  end.

(** The tag as the string the source uses. *)
Definition qualityName (q : Quality) : jsstring :=
  JS.lit match q with
         | q_major => "major" | q_minor => "minor" | q_dim => "dim"
         | q_aug => "aug" | q_maj7 => "maj7" | q_7 => "7" | q_m7 => "m7"
         | q_dim7 => "dim7" | q_m7b5 => "m7b5" | q_mMaj7 => "mMaj7"
         | q_aug7 => "aug7" | q_9 => "9" | q_maj9 => "maj9" | q_m9 => "m9"
         | q_add9 => "add9" | q_6 => "6" | q_m6 => "m6" | q_sus2 => "sus2"
         | q_sus4 => "sus4" | q_7sus4 => "7sus4"
         end%string.

Definition CHORD_INTERVALS (q : Quality) : list Z :=
  match q with
  | q_major => [0; 4; 7]
  | q_minor => [0; 3; 7]
  | q_dim => [0; 3; 6]
  | q_aug => [0; 4; 8]
  | q_maj7 => [0; 4; 7; 11]
  | q_7 => [0; 4; 7; 10]
  | q_m7 => [0; 3; 7; 10]
  | q_dim7 => [0; 3; 6; 9]
  | q_m7b5 => [0; 3; 6; 10]
  | q_mMaj7 => [0; 3; 7; 11]
  | q_aug7 => [0; 4; 8; 10]
  | q_9 => [0; 4; 7; 10; 14]
  | q_maj9 => [0; 4; 7; 11; 14]
  | q_m9 => [0; 3; 7; 10; 14]
  | q_add9 => [0; 4; 7; 14]
  | q_6 => [0; 4; 7; 9]
  | q_m6 => [0; 3; 7; 9]
  | q_sus2 => [0; 2; 7]
  | q_sus4 => [0; 5; 7]
  | q_7sus4 => [0; 5; 7; 10]
  end.

(** One alternative of a quality pattern: a literal, anchored at the start
    ([^lit]) or free to match anywhere ([lit]). *)
Record Alt := mkAlt { anchored : bool; literal : jsstring }.

(** A quality rule: alternatives, the [i] flag, and the resulting tag. *)
Record Rule := mkRule { alts : list Alt; ignoreCase : bool; tag : Quality }.

Definition start (s : string) : Alt := mkAlt true (JS.lit s).
Definition startU (s : jsstring) : Alt := mkAlt true s.
Definition anywhere (s : string) : Alt := mkAlt false (JS.lit s).

(** [pattern.test(text)] *)
Definition test (r : Rule) (text : jsstring) : bool :=
  let eqc := if ignoreCase r then JS.eqNoCase else JS.eqCase in
  existsb (fun a => if anchored a then JS.prefixBy eqc (literal a) text
                    else JS.occursBy eqc (literal a) text) (alts r).

(** [qualityPatterns], in source order.  Three literals are not ASCII; they
    are given by the code units the source file holds: U+00C3 U+00B8,
    U+00CE U+201D followed by [7], and U+00C2 U+00B0. *)
Definition qualityPatterns : list Rule :=
  [ mkRule [start "m7b5"; start "min7b5"; startU [195; 184]%N] true q_m7b5;
    mkRule [start "mmaj7"; start "minmaj7"] true q_mMaj7;
    mkRule [start "m7"; start "min7"; anywhere "-7"] false q_m7;
    mkRule [start "m9"; start "min9"] false q_m9;
    mkRule [start "m6"; start "min6"] false q_m6;
    mkRule [start "m"; start "min"; anywhere "-"] false q_minor;
    mkRule [start "maj7"; start "M7"; startU [206; 8221; 55]%N] false q_maj7;
    mkRule [start "maj9"; start "M9"] false q_maj9;
    mkRule [start "dim7"; startU [194; 176; 55]%N] true q_dim7;
    mkRule [start "aug7"; start "+7"] true q_aug7;
    mkRule [start "7sus4"] true q_7sus4;
    mkRule [start "add9"] true q_add9;
    mkRule [start "sus2"] true q_sus2;
    mkRule [start "sus4"; start "sus"] true q_sus4;
    mkRule [start "dim"; startU [194; 176]%N] true q_dim;
    mkRule [start "aug"; start "+"] true q_aug;
    mkRule [start "9"] true q_9;
    mkRule [start "7"] true q_7;
    mkRule [start "6"] true q_6 ]%string.

(** The [for ... of qualityPatterns] loop with its [break]. *)
Fixpoint classify (rules : list Rule) (qualityPart : jsstring) : Quality :=
  match rules with
  | [] => q_major
  | r :: rules' =>
      if test r qualityPart then tag r else classify rules' qualityPart
  end.

Record ChordSymbol := mkChord
  { root : jsstring; quality : Quality; bass : option jsstring }.

Definition isRootLetter (c : N) : bool :=
  ((N.leb 65 c && N.leb c 71) || (N.leb 97 c && N.leb c 103))%bool.

(** [toUpperCase] on a root letter. *)
Definition upperRoot (c : N) : N := if N.leb 97 c then (c - 32)%N else c.

(** [chordName.match(chordRegex)]: a root letter, an optional accidental
    and the rest of the line, anchored at both ends.  The dot does not match
    a line terminator and the end anchor only matches at the end of the
    input, so the match fails when a line terminator follows the root
    letter. *)
Definition chordRegex (s : jsstring) : option (N * jsstring * jsstring) :=
  match s with
  | [] => None
  | c :: rest =>
      if negb (isRootLetter c) then None
      else if existsb JS.isLineTerminator rest then None
      else
        match rest with
        | a :: rest' =>
            if (N.eqb a 35 || N.eqb a 98)%bool then Some (c, [a], rest')
            else Some (c, [], rest)
        | [] => Some (c, [], [])
        end
  end.

(** The slash-chord step: the quality text and the bass note, [parts[0]]
    and [parts[1]] of the split on [/]. *)
Definition splitBass (qualityPart : jsstring) : jsstring * option jsstring :=
  if JS.includes 47 qualityPart then
    let parts := JS.splitChar 47 qualityPart in
    (nth 0 parts [], nth_error parts 1)
  else (qualityPart, None).

(** [parseChordName]; [None] is [null].  The argument is a string, so the
    [typeof] test only leaves the empty string to reject. *)
Definition parseChordName (chordName : jsstring) : option ChordSymbol :=
  match chordName with
  | [] => None
  | _ =>
      match chordRegex (JS.trim chordName) with
      | None => None
      | Some (rootLetter, accidental, qualityPart) =>
          let rootLetter := upperRoot rootLetter in
          let (qualityPart, bass) := splitBass qualityPart in
          Some (mkChord (rootLetter :: accidental)
                        (classify qualityPatterns qualityPart) bass)
      end
  end.

(** [getChordNotes]; the quality is one of the table's keys. *)
Definition getChordNotes (root : jsstring) (quality : Quality)
  : list jsstring :=
  let intervals := CHORD_INTERVALS quality in
  let rootIndex := getNoteIndex root in
  if rootIndex =? -1 then []
  else map (fun interval =>
              nth (Z.to_nat (jsrem (rootIndex + interval) 12)) NOTE_NAMES [])
           intervals.

(* ------------------------------------------------------------------ *)
(** ** Single-voicing resolver *)

(** A fretboard position [{string, fret, isRoot}]. *)
Record Position := mkPos { stringNum : Z; fret : Z; isRoot : bool }.

(** An entry of [CHORD_SHAPES], with the [transpose] that [findChordShape]
    adds to its copy.  [-1] in [strings] is a muted string. *)
Record ChordShape := mkShape
  { cs_strings : list Z; cs_rootString : Z; cs_baseFret : Z }.

Definition CHORD_SHAPES : list (jsstring * ChordShape) :=
  map (fun kv => (JS.lit (fst kv), snd kv))
    [ ("E_major", mkShape [0; 2; 2; 1; 0; 0] 6 0);
      ("E_minor", mkShape [0; 2; 2; 0; 0; 0] 6 0);
      ("A_major", mkShape [-1; 0; 2; 2; 2; 0] 5 0);
      ("A_minor", mkShape [-1; 0; 2; 2; 1; 0] 5 0);
      ("D_major", mkShape [-1; -1; 0; 2; 3; 2] 4 0);
      ("D_minor", mkShape [-1; -1; 0; 2; 3; 1] 4 0);
      ("C_major", mkShape [-1; 3; 2; 0; 1; 0] 5 0);
      ("G_major", mkShape [3; 2; 0; 0; 0; 3] 6 0);
      ("E_7", mkShape [0; 2; 0; 1; 0; 0] 6 0);
      ("E_m7", mkShape [0; 2; 0; 0; 0; 0] 6 0);
      ("E_maj7", mkShape [0; 2; 1; 1; 0; 0] 6 0);
      ("A_7", mkShape [-1; 0; 2; 0; 2; 0] 5 0);
      ("A_m7", mkShape [-1; 0; 2; 0; 1; 0] 5 0);
      ("A_maj7", mkShape [-1; 0; 2; 1; 2; 0] 5 0);
      ("D_7", mkShape [-1; -1; 0; 2; 1; 2] 4 0);
      ("D_m7", mkShape [-1; -1; 0; 2; 1; 1] 4 0);
      ("barre_E_major", mkShape [0; 2; 2; 1; 0; 0] 6 0);
      ("barre_E_minor", mkShape [0; 2; 2; 0; 0; 0] 6 0);
      ("barre_A_major", mkShape [-1; 0; 2; 2; 2; 0] 5 0);
      ("barre_A_minor", mkShape [-1; 0; 2; 2; 1; 0] 5 0) ]%string.

Definition openChords : list jsstring :=
  map JS.lit ["E"; "A"; "D"; "G"; "C"]%string.

(** [a || b] on table lookups. *)
Definition orElse {A} (a b : option A) : option A :=
  match a with Some _ => a | None => b end.

Definition transposedFromE (root : jsstring) : Z :=
  jsrem (getNoteIndex root - getNoteIndex (JS.lit "E") + 12) 12.
Definition transposedFromA (root : jsstring) : Z :=
  jsrem (getNoteIndex root - getNoteIndex (JS.lit "A") + 12) 12.

(** [findChordShape]: the chosen shape and its [transpose].
    [qualityToShape[quality] || quality] is the quality's own name. *)
Definition findChordShape (root : jsstring) (quality : Quality)
  : option (ChordShape * Z) :=
  let shapeQuality := qualityName quality in
  let key r := (JS.lit r ++ JS.lit "_" ++ shapeQuality)%list in
  let openShape :=
    if existsb (JS.eqb root) openChords
    then lookup CHORD_SHAPES (root ++ JS.lit "_" ++ shapeQuality)%list
    else None in
  match openShape with
  | Some shape => Some (shape, 0)
  | None =>
      let (baseShape, transpose) :=
        if transposedFromE root <=? 7
        then (orElse (lookup CHORD_SHAPES (key "E"%string))
                     (lookup CHORD_SHAPES (JS.lit "E_major")),
              transposedFromE root)
        else (orElse (lookup CHORD_SHAPES (key "A"%string))
                     (lookup CHORD_SHAPES (JS.lit "A_major")),
              transposedFromA root) in
      match baseShape with
      | Some shape => Some (shape, transpose)
      | None => None
      end
  end.

(** [array.forEach((x, index) => ...)] threading the variables the callback
    assigns. *)
Fixpoint forEachIdx {A S} (f : S -> A -> Z -> S) (l : list A) (index : Z)
         (st : S) : S :=
  match l with
  | [] => st
  | x :: l' => forEachIdx f l' (index + 1) (f st x index)
  end.

(** [getNoteIndex(getNoteAtPosition(...))]; an [undefined] note has index
    [-1]. *)
Definition noteIndexAt (useFlats : bool) (stringNum fret : Z) : Z :=
  match getNoteAtPosition useFlats stringNum fret with
  | Some note => getNoteIndex note
  | None => -1
  end.

(** [shapeToPositions] *)
Definition shapeToPositions (useFlats : bool) (shape : ChordShape * Z)
           (root : jsstring) : list Position :=
  let transpose := snd shape in
  forEachIdx
    (fun positions fret index =>
       let stringNum := 6 - index in
       if fret >=? 0 then
         let actualFret := fret + transpose in
         let noteAtPosition :=
           getNoteAtPosition useFlats stringNum actualFret in
         let isRoot :=
           (match noteAtPosition with
            | Some n => JS.eqb n root
            | None => false
            end
            || ((1 <? Z.of_nat (List.length root))
                && (noteIndexAt useFlats stringNum actualFret
                    =? getNoteIndex root)))%bool in
         (positions ++ [mkPos stringNum actualFret isRoot])%list
       else positions)
    (cs_strings (fst shape)) 0 [].

(* ------------------------------------------------------------------ *)
(** ** Multiple voicing generator (CAGED system) *)

(** The keys of [CAGED_SHAPES]. *)
Inductive Family := E | A | D | C | G.

Record CagedShape := mkCaged
  { strings : list Z; rootString : Z; rootFret : Z; name : jsstring }.

Definition caged (l : list Z) (rs rf : Z) (n : string) : option CagedShape :=
  Some (mkCaged l rs rf (JS.lit n)).

(** [CAGED_SHAPES] as the list [Object.entries] yields: the keys in the
    order the object literal writes them, each with its quality table. *)
Definition CAGED_SHAPES : list (Family * (Quality -> option CagedShape)) :=
  [ (E, fun q => match q with
                 | q_major => caged [0; 2; 2; 1; 0; 0] 6 0 "E-shape"
                 | q_minor => caged [0; 2; 2; 0; 0; 0] 6 0 "E-shape"
                 | q_7 => caged [0; 2; 0; 1; 0; 0] 6 0 "E-shape"
                 | q_m7 => caged [0; 2; 0; 0; 0; 0] 6 0 "E-shape"
                 | q_maj7 => caged [0; 2; 1; 1; 0; 0] 6 0 "E-shape"
                 | _ => None
                 end);
    (A, fun q => match q with
                 | q_major => caged [-1; 0; 2; 2; 2; 0] 5 0 "A-shape"
                 | q_minor => caged [-1; 0; 2; 2; 1; 0] 5 0 "A-shape"
                 | q_7 => caged [-1; 0; 2; 0; 2; 0] 5 0 "A-shape"
                 | q_m7 => caged [-1; 0; 2; 0; 1; 0] 5 0 "A-shape"
                 | q_maj7 => caged [-1; 0; 2; 1; 2; 0] 5 0 "A-shape"
                 | _ => None
                 end);
    (D, fun q => match q with
                 | q_major => caged [-1; -1; 0; 2; 3; 2] 4 0 "D-shape"
                 | q_minor => caged [-1; -1; 0; 2; 3; 1] 4 0 "D-shape"
                 | q_7 => caged [-1; -1; 0; 2; 1; 2] 4 0 "D-shape"
                 | q_m7 => caged [-1; -1; 0; 2; 1; 1] 4 0 "D-shape"
                 | q_maj7 => caged [-1; -1; 0; 2; 2; 2] 4 0 "D-shape"
                 | _ => None
                 end);
    (C, fun q => match q with
                 | q_major => caged [-1; 3; 2; 0; 1; 0] 5 3 "C-shape"
                 | q_minor => caged [-1; 3; 1; 0; 1; -1] 5 3 "C-shape"
                 | q_7 => caged [-1; 3; 2; 3; 1; 0] 5 3 "C-shape"
                 | q_m7 => caged [-1; 3; 1; 3; 1; -1] 5 3 "C-shape"
                 | q_maj7 => caged [-1; 3; 2; 0; 0; 0] 5 3 "C-shape"
                 | _ => None
                 end);
    (G, fun q => match q with
                 | q_major => caged [3; 2; 0; 0; 0; 3] 6 3 "G-shape"
                 | q_minor => caged [3; 1; 0; 0; 3; 3] 6 3 "G-shape"
                 | q_7 => caged [3; 2; 0; 0; 0; 1] 6 3 "G-shape"
                 | q_m7 => caged [3; 1; 0; 0; 3; 1] 6 3 "G-shape"
                 | q_maj7 => caged [3; 2; 0; 0; 0; 2] 6 3 "G-shape"
                 | _ => None
                 end) ]%string.

Record Voicing := mkVoicing
  { chordName : jsstring;
    shapeName : jsstring;
    positions : list Position;
    baseFret : Z;
    avgFret : Q;
    fretSpan : Z }.

(** [qualityMap[quality] || 'major'] *)
Definition shapeQualityOf (quality : Quality) : Quality :=
  match quality with
  | q_major => q_major
  | q_minor => q_minor
  | q_7 => q_7
  | q_m7 => q_m7
  | q_maj7 => q_maj7
  | q_dim => q_minor
  | q_aug => q_major
  | q_sus4 => q_major
  | q_sus2 => q_major
  | _ => q_major
  end.

(** The [if]/[else if] chain on [shapeName]. *)
Definition baseNoteIndexOf (shapeKey : Family) : Z :=
  match shapeKey with
  | E => getNoteIndex (JS.lit "E")
  | A => getNoteIndex (JS.lit "A")
  | D => getNoteIndex (JS.lit "D")
  | C => getNoteIndex (JS.lit "C")
  | G => getNoteIndex (JS.lit "G")
  end.

(** The variables the [shape.strings.forEach] callback assigns;
    [minFret = None] is [Infinity]. *)
Record Scan := mkScan
  { sc_positions : list Position;
    sc_minFret : option Z;
    sc_maxFretUsed : Z;
    sc_validVoicing : bool }.

Definition minInf (m : option Z) (x : Z) : option Z :=
  match m with
  | None => Some x
  | Some y => Some (Z.min y x)
  end.

Section Generator.

Variable useFlats : bool.
Variable rootIndex : Z.
Variable maxFret : Z.

(** The callback of [shape.strings.forEach]. *)
Definition visit (transpose : Z) (st : Scan) (fret index : Z) : Scan :=
  let stringNum := 6 - index in
  if fret >=? 0 then
    let actualFret := fret + transpose in
    if actualFret >? maxFret then
      mkScan (sc_positions st) (sc_minFret st) (sc_maxFretUsed st) false
    else
      let isRoot := noteIndexAt useFlats stringNum actualFret =? rootIndex in
      let positions :=
        (sc_positions st ++ [mkPos stringNum actualFret isRoot])%list in
      if actualFret >? 0 then
        mkScan positions (minInf (sc_minFret st) actualFret)
               (Z.max (sc_maxFretUsed st) actualFret) (sc_validVoicing st)
      else
        mkScan positions (sc_minFret st) (sc_maxFretUsed st)
               (sc_validVoicing st)
  else st.

Definition sumFrets (ps : list Position) : Z :=
  fold_left (fun sum p => sum + fret p) ps 0.

(** One iteration of the loop over [Object.entries(CAGED_SHAPES)]: the
    voicing it pushes, if any. *)
Definition voicingOfShape (chord : jsstring) (shapeKey : Family)
           (shape : CagedShape) : option Voicing :=
  let transpose := jsrem (rootIndex - baseNoteIndexOf shapeKey + 12) 12 in
  let st := forEachIdx (visit transpose) (strings shape) 0
                       (mkScan [] None 0 true) in
  if (sc_validVoicing st
      && (3 <=? Z.of_nat (List.length (sc_positions st))))%bool
  then
    let base := match sc_minFret st with None => 0 | Some m => m end in
    Some (mkVoicing chord (name shape) (sc_positions st) base
            (inject_Z (sumFrets (sc_positions st))
             / inject_Z (Z.of_nat (List.length (sc_positions st))))%Q
            (sc_maxFretUsed st - base))
  else None.

(** The body of that loop on the array [voicings]; an entry without a shape
    for the quality is skipped ([continue]). *)
Definition pushStep (chord : jsstring) (shapeQuality : Quality)
           (voicings : list Voicing)
           (entry : Family * (Quality -> option CagedShape)) : list Voicing :=
  match snd entry shapeQuality with
  | None => voicings
  | Some shape =>
      match voicingOfShape chord (fst entry) shape with
      | Some v => (voicings ++ [v])%list
      | None => voicings
      end
  end.

Definition pushVoicings (chord : jsstring) (shapeQuality : Quality)
  : list Voicing :=
  fold_left (pushStep chord shapeQuality) CAGED_SHAPES [].

End Generator.

(** [voicings.sort((a, b) => a.avgFret - b.avgFret)].  The sort is stable
    (ECMAScript 2019) and the comparator is a consistent order, so the
    result is the one a stable insertion sort gives. *)
Fixpoint insertByAvg (v : Voicing) (l : list Voicing) : list Voicing :=
  match l with
  | [] => [v]
  | w :: l' =>
      if Qle_bool (avgFret v - avgFret w) 0 then v :: l
      else w :: insertByAvg v l'
  end.

Fixpoint sortByAvg (l : list Voicing) : list Voicing :=
  match l with
  | [] => []
  | v :: l' => insertByAvg v (sortByAvg l')
  end.

(** [generateAllVoicings(chordName, maxFret)] under [state.useFlats]. *)
Definition generateAllVoicings (useFlats : bool) (chordName : jsstring)
           (maxFret : Z) : list Voicing :=
  match parseChordName chordName with
  | None => []
  | Some parsed =>
      sortByAvg (pushVoicings useFlats (getNoteIndex (root parsed)) maxFret
                   chordName (shapeQualityOf (quality parsed)))
  end.

(* ------------------------------------------------------------------ *)
(** ** JavaScript numbers *)

(** The numbers of the optimiser are IEEE 754 binary64 values.  A finite
    one is modelled by the rational it denotes, and an operation by the
    exact operation followed by [double], which rounds to 53 significant
    bits, a tie to the even significand.  The exponent is not bounded: on
    finite options and the voicings of the generator no operation of the
    optimiser overflows to a value that a comparison could tell from the
    finite one, and sums and differences of binary64 values are exact in
    the subnormal range. *)

(** [2 ^ e] *)
Definition pow2 (e : Z) : Q := Qpower 2%Q e.

(** The exponent of the leading bit of a positive number: the [k] with
    [2 ^ k <= q < 2 ^ (k + 1)]. *)
Definition leadingBit (q : Q) : Z :=
  let k := Z.log2 (Qnum q) - Z.log2 (Zpos (Qden q)) in
  if Qle_bool (pow2 k) q then k else k - 1.

(** The nearest integer, a tie going to the even one. *)
Definition nearestEven (q : Q) : Z :=
  let f := Qfloor q in
  match Qcompare (q - inject_Z f)%Q (1 # 2)%Q with
  | Lt => f
  | Gt => f + 1
  | Eq => if Z.even f then f else f + 1
  end.

(** A positive number rounded to 53 significant bits. *)
Definition roundPositive (q : Q) : Q :=
  let e := leadingBit q - 52 in
  (inject_Z (nearestEven (q * pow2 (- e))) * pow2 e)%Q.

(** The number an operation returns whose exact result is [q]. *)
Definition double (q : Q) : Q :=
  match Qcompare q 0 with
  | Eq => 0%Q
  | Gt => roundPositive q
  | Lt => (- roundPositive (- q))%Q
  end.

(** [v.avgFret] as the number the voicing holds: the quotient as the
    division rounds it. *)
Definition avgFretNumber (v : Voicing) : Q := double (avgFret v).

(* ------------------------------------------------------------------ *)
(** ** Progression optimiser *)

(** A number that is finite or [Infinity]. *)
Inductive Cost := Finite (q : Q) | Infinity.

Definition Qltb (a b : Q) : bool := negb (Qle_bool b a).

(** [a < b] *)
Definition ltCost (a b : Cost) : bool :=
  match a, b with
  | Finite x, Finite y => Qltb x y
  | Finite _, Infinity => true
  | Infinity, _ => false
  end.

(** [a + m] for a finite [m] *)
Definition addCost (a : Cost) (m : Q) : Cost :=
  match a with
  | Finite x => Finite (double (x + m)%Q)
  | Infinity => Infinity
  end.

(** [calculateMovementCost] *)
Definition calculateMovementCost (voicing1 voicing2 : Voicing) : Q :=
  let fretDiff :=
    Qabs (double (avgFretNumber voicing1 - avgFretNumber voicing2)%Q) in
  let spanDiff :=
    Qabs (double (inject_Z (fretSpan voicing1)
                  - inject_Z (fretSpan voicing2))%Q) in
  let shapeBonus :=
    if JS.eqb (shapeName voicing1) (shapeName voicing2)
    then inject_Z (-1) else 0%Q in
  double (double (double (fretDiff * inject_Z 2)
                  + double (spanDiff * (1 # 2)))
          + shapeBonus)%Q.

(** An entry of the table [dp]. *)
Record Cell := mkCell { cost : Cost; prev : Z }.

(** [array[i]]; [None] is [undefined]. *)
Definition getIdx {A} (l : list A) (i : Z) : option A :=
  if i <? 0 then None else nth_error l (Z.to_nat i).

Section Optimizer.

Variable useFlats : bool.

(** The options, finite numbers given by their values. *)
Variable preferredFret fretRange : Q.

(** The per-chord candidates: [allVoicings] after the range filter and the
    loop that widens an empty entry. *)
Definition candidates (chordNames : list jsstring) : list (list Voicing) :=
  let allVoicings :=
    map (fun chord =>
           filter (fun v =>
                     (Qle_bool (double (preferredFret - fretRange)%Q)
                               (avgFretNumber v)
                      && Qle_bool (avgFretNumber v)
                                  (double (preferredFret + fretRange)%Q))%bool)
                  (generateAllVoicings useFlats chord 15))
        chordNames in
  map (fun entry =>
         match snd entry with
         | [] => generateAllVoicings useFlats (fst entry) 15
         | _ => snd entry
         end)
      (combine chordNames allVoicings).

(** The callback of the single-chord [reduce]. *)
Definition nearer (best v : Voicing) : Voicing :=
  if Qltb (Qabs (double (avgFretNumber v - preferredFret)%Q))
          (Qabs (double (avgFretNumber best - preferredFret)%Q))
  then v else best.

(** The single-chord branch: [reduce] without an initial value throws on an
    empty array. *)
Definition closest (voicings : list Voicing) : option Voicing :=
  match voicings with
  | [] => None
  | v0 :: rest => Some (fold_left nearer rest v0)
  end.

(** Row 0 of [dp] after its initialisation. *)
Definition firstLayer (voicings : list Voicing) : list Cell :=
  map (fun v =>
         mkCell (Finite (Qabs (double (avgFretNumber v - preferredFret)%Q)))
                (-1))
      voicings.

(** The body of the loop over [k], for the cell of candidate [vj]. *)
Definition relaxStep (vj : Voicing) (cell : Cell) (pk : Voicing * Cell)
           (k : Z) : Cell :=
  let moveCost := calculateMovementCost (fst pk) vj in
  let totalCost := addCost (cost (snd pk)) moveCost in
  if ltCost totalCost (cost cell) then mkCell totalCost k else cell.

(** The loop over [k]: the candidates and cells of row [i - 1] against
    candidate [vj] of row [i]. *)
Definition relax (prevVoicings : list Voicing) (prevRow : list Cell)
           (vj : Voicing) : Cell :=
  forEachIdx (relaxStep vj) (combine prevVoicings prevRow) 0
             (mkCell Infinity (-1)).

(** Rows 1 .. n-1 of [dp]. *)
Fixpoint fillDP (prevVoicings : list Voicing) (prevRow : list Cell)
         (rest : list (list Voicing)) : list (list Cell) :=
  match rest with
  | [] => []
  | voicings :: rest' =>
      let row := map (relax prevVoicings prevRow) voicings in
      row :: fillDP voicings row rest'
  end.

Definition dpTable (allVoicings : list (list Voicing)) : list (list Cell) :=
  match allVoicings with
  | [] => []
  | first :: rest => firstLayer first :: fillDP first (firstLayer first) rest
  end.

(** The callback that finds the best ending voicing. *)
Definition bestStep (st : Cost * Z) (v : Cell) (i : Z) : Cost * Z :=
  if ltCost (cost v) (fst st) then (cost v, i) else st.

Definition bestEnding (lastRow : list Cell) : Z :=
  snd (forEachIdx bestStep lastRow 0 (Infinity, 0)).

(** The backtracking loop, from row [n - 1] down to row 0; [rows] lists the
    candidates and cells of these rows in that order.  Reading [prev] of an
    undefined cell throws ([None]); an index outside the candidates puts
    [undefined] into the result. *)
Fixpoint backtrack (rows : list (list Voicing * list Cell)) (lastIndex : Z)
         (result : list (option Voicing)) : option (list (option Voicing)) :=
  match rows with
  | [] => Some result
  | (voicings, row) :: rows' =>
      let result' := getIdx voicings lastIndex :: result in
      match getIdx row lastIndex with
      | None => None
      | Some cell => backtrack rows' (prev cell) result'
      end
  end.

(** [optimizeProgression] from the candidates on. *)
Definition optimizeFrom (allVoicings : list (list Voicing))
  : option (list (option Voicing)) :=
  match allVoicings with
  | [] => Some []
  | [only] =>
      match closest only with
      | Some v => Some [Some v]
      | None => None
      end
  | _ =>
      let dp := dpTable allVoicings in
      let lastIndex := bestEnding (last dp []) in
      backtrack (rev (combine allVoicings dp)) lastIndex []
  end.

(** [optimizeProgression(chordNames, {preferredFret, fretRange})]: [None]
    when the call throws, else the returned array, whose entries may be
    [undefined]. *)
Definition optimizeProgression (chordNames : list jsstring)
  : option (list (option Voicing)) :=
  match chordNames with
  | [] => Some []
  | _ => optimizeFrom (candidates chordNames)
  end.

End Optimizer.

(* ------------------------------------------------------------------ *)
(** ** Progression parsing *)

Definition isCommaOrHyphen (c : N) : bool := (N.eqb c 44 || N.eqb c 45)%bool.

(** The separator of the first split: a run of commas and hyphens, or two or
    more white-space code units. *)
Definition primarySeparator (s : jsstring) : option nat :=
  match s with
  | [] => None
  | c :: _ =>
      if isCommaOrHyphen c then Some (JS.runLength isCommaOrHyphen s)
      else
        let n := JS.runLength JS.isWhiteSpace s in
        if (2 <=? n)%nat then Some n else None
  end.

(** The separator of the second split: a run of white space. *)
Definition spaceSeparator (s : jsstring) : option nat :=
  match JS.runLength JS.isWhiteSpace s with
  | O => None
  | n => Some n
  end.

Definition nonEmpty (s : jsstring) : bool :=
  match s with [] => false | _ => true end.

(** [parseChordName(p)] used as a condition. *)
Definition isChord (p : jsstring) : bool :=
  match parseChordName p with Some _ => true | None => false end.

Definition primaryParts (input : jsstring) : list jsstring :=
  filter nonEmpty (map JS.trim (JS.splitRegex primarySeparator input)).

Definition spaceParts (input : jsstring) : list jsstring :=
  JS.splitRegex spaceSeparator (JS.trim input).

(** [parseProgression] *)
Definition parseProgression (input : jsstring) : list jsstring :=
  match input with
  | [] => []
  | _ =>
      let parts := primaryParts input in
      if ((List.length parts =? 1)%nat
          && (1 <? List.length (spaceParts input))%nat
          && forallb isChord (spaceParts input))%bool
      then spaceParts input
      else filter isChord parts
  end.

(* ------------------------------------------------------------------ *)
(** ** Vocabulary of the statements *)

(** The positions of the sounded strings of a shape, as the callback of
    [generateAllVoicings] pushes them when no fret passes the limit. *)
Fixpoint sounded (useFlats : bool) (rootIndex transpose : Z)
         (frets : list Z) (index : Z) : list Position :=
  match frets with
  | [] => []
  | f :: frets' =>
      if f >=? 0 then
        mkPos (6 - index) (f + transpose)
              (noteIndexAt useFlats (6 - index) (f + transpose) =? rootIndex)
          :: sounded useFlats rootIndex transpose frets' (index + 1)
      else sounded useFlats rootIndex transpose frets' (index + 1)
  end.

(** A template fret that is muted or stays within the limit. *)
Definition withinLimit (maxFret transpose : Z) (f : Z) : Prop :=
  f < 0 \/ f + transpose <= maxFret.

(** The template and transpose the specification describes for a root
    without an open shape: the nearer of the E-shape and the A-shape, the
    A-shape on a tie or when the E-shape is more than 7 frets away. *)
Definition nearestBarre (root : jsstring) : Family * Z :=
  if ((transposedFromE root <? transposedFromA root)
      && (transposedFromE root <=? 7))%bool
  then (E, transposedFromE root)
  else (A, transposedFromA root).

(** The text begins with a root letter, A-G or a-g. *)
Definition startsWithRoot (s : jsstring) : bool :=
  match s with
  | c :: _ => isRootLetter c
  | [] => false
  end.

(** A line terminator occurs after the first code unit. *)
Definition lineBreakAfterRoot (s : jsstring) : bool :=
  match s with
  | _ :: rest => existsb JS.isLineTerminator rest
  | [] => false
  end.

(** The qualities for which [CAGED_SHAPES] has shapes. *)
Definition supportedQuality (q : Quality) : bool :=
  match q with
  | q_major | q_minor | q_7 | q_m7 | q_maj7 => true
  | _ => false
  end.

(** The values [getNoteIndex] can return. *)
Definition rootIndices : list Z := [-1; 0; 1; 2; 3; 4; 5; 6; 7; 8; 9; 10; 11].

(** The index of the note name that [getNoteAtPosition] spells for pitch
    class [i], in either notation. *)
Definition spelledIndex (useFlats : bool) (i : Z) : Z :=
  if i <? 0 then -1
  else
    match nth_error NOTE_NAMES (Z.to_nat i) with
    | None => -1
    | Some noteName =>
        getNoteIndex
          (if (useFlats && JS.includes 35 noteName)%bool then
             match lookup flatMap noteName with
             | Some flat => flat
             | None => noteName
             end
           else noteName)
    end.

(** The [name] field shared by the shapes of a family. *)
Definition familyName (f : Family) : jsstring :=
  JS.lit match f with
         | E => "E-shape" | A => "A-shape" | D => "D-shape"
         | C => "C-shape" | G => "G-shape"
         end%string.

(** The transpose of a family's shape to the root with index [rootIndex]. *)
Definition transposeTo (rootIndex : Z) (shapeKey : Family) : Z :=
  jsrem (rootIndex - baseNoteIndexOf shapeKey + 12) 12.

(** The voicings one entry of [CAGED_SHAPES] contributes. *)
Definition voicingsOfEntry (useFlats : bool) (rootIndex maxFret : Z)
           (chord : jsstring) (q : Quality)
           (entry : Family * (Quality -> option CagedShape)) : list Voicing :=
  match snd entry q with
  | None => []
  | Some shape =>
      match voicingOfShape useFlats rootIndex maxFret chord (fst entry) shape
      with
      | Some v => [v]
      | None => []
      end
  end.

(** Strictly lower average fret. *)
Definition ltAvg (a b : Voicing) : Prop := (avgFret a < avgFret b)%Q.

(** The place of a shape name in the order E, A, D, G, C. *)
Definition rankEADGC (shapeName : jsstring) : nat :=
  if JS.eqb shapeName (JS.lit "E-shape") then 0
  else if JS.eqb shapeName (JS.lit "A-shape") then 1
  else if JS.eqb shapeName (JS.lit "D-shape") then 2
  else if JS.eqb shapeName (JS.lit "G-shape") then 3
  else if JS.eqb shapeName (JS.lit "C-shape") then 4
  else 5.

(** [a] may stand before [b]: lower average fret, or the same average fret
    and an earlier family. *)
Definition tieOrder (a b : Voicing) : Prop :=
  (avgFret a < avgFret b)%Q
  \/ ((avgFret a == avgFret b)%Q
      /\ (rankEADGC (shapeName a) < rankEADGC (shapeName b))%nat).

(** The average fret of the voicing an entry gives for root index [r] and
    shape quality [q], when it gives one. *)
Definition entryAvg (r : Z) (q : Quality)
           (entry : Family * (Quality -> option CagedShape)) : list Q :=
  match snd entry q with
  | None => []
  | Some shape =>
      let ps := sounded false r (transposeTo r (fst entry)) (strings shape) 0
      in [(inject_Z (sumFrets ps) / inject_Z (Z.of_nat (List.length ps)))%Q]
  end.

(** Every element differs, by [ne], from every later one. *)
Fixpoint pairwiseb {X} (ne : X -> X -> bool) (l : list X) : bool :=
  match l with
  | [] => true
  | a :: l' => forallb (ne a) l' && pairwiseb ne l'
  end.

(** The values [shapeQualityOf] can return. *)
Definition supportedQualities : list Quality :=
  [q_major; q_minor; q_7; q_m7; q_maj7].

(** The families have pairwise different average frets for root index [r]
    and shape quality [q]. *)
Definition distinctAvgs (r : Z) (q : Quality) : bool :=
  pairwiseb (fun a b => negb (Qeq_bool a b))
            (flat_map (entryAvg r q) CAGED_SHAPES).

(** [a <= b] on costs. *)
Definition leCost (a b : Cost) : Prop :=
  match a, b with
  | Finite x, Finite y => (x <= y)%Q
  | _, Infinity => True
  | Infinity, Finite _ => False
  end.

(** The two minimum searches of the optimiser have one shape: keep the
    first strictly smaller key and its index. *)
Definition scanMin {X} (key : X -> Cost) (st : Cost * Z) (x : X) (i : Z)
  : Cost * Z :=
  if ltCost (key x) (fst st) then (key x, i) else st.

(** The key of the loop over [k]: the total cost through predecessor
    [pk]. *)
Definition throughCost (vj : Voicing) (pk : Voicing * Cell) : Cost :=
  addCost (cost (snd pk)) (calculateMovementCost (fst pk) vj).

(** One candidate for each chord. *)
Definition chosen (path : list Voicing) (cands : list (list Voicing)) : Prop :=
  Forall2 (fun v c => In v c) path cands.

(** The cost of a path as the table accumulates it, the path given last
    voicing first. *)
Fixpoint rcost (preferredFret : Q) (rpath : list Voicing) : Q :=
  match rpath with
  | [] => 0%Q
  | v :: rest =>
      match rest with
      | [] => Qabs (double (avgFretNumber v - preferredFret)%Q)
      | u :: _ =>
          double (rcost preferredFret rest + calculateMovementCost u v)%Q
      end
  end.

(** The movement cost as C1 gives it,
    2 |avgFret(A) - avgFret(B)| + 0.5 |fretSpan(A) - fretSpan(B)|, less 1
    for two voicings of one shape family, every operation on numbers. *)
Definition movementCost (a b : Voicing) : Q :=
  let sameShape :=
    if JS.eqb (shapeName a) (shapeName b) then (- (1))%Q else 0%Q in
  double
    (double
       (double (2 * Qabs (double (avgFretNumber a - avgFretNumber b)))
        + double ((1 # 2)
                  * Qabs (double (inject_Z (fretSpan a)
                                  - inject_Z (fretSpan b)))))
     + sameShape)%Q.

(** The total cost of C1 on numbers, summed from the first voicing on:
    [acc] is the cost up to [last]. *)
Fixpoint addMovements (acc : Q) (last : Voicing) (rest : list Voicing) : Q :=
  match rest with
  | [] => acc
  | v :: rest' => addMovements (double (acc + movementCost last v)%Q) v rest'
  end.

Definition totalCost (preferredFret : Q) (path : list Voicing) : Q :=
  match path with
  | [] => 0%Q
  | v :: rest =>
      addMovements (Qabs (double (avgFretNumber v - preferredFret)%Q)) v rest
  end.




(** The rows of [dp] with their candidates, last row first, as the
    backtracking loop walks them: every row but row 0 is computed from the
    row below it, which has a candidate. *)
Inductive Table (preferredFret : Q)
  : list (list Voicing * list Cell) -> Prop :=
| Table_first (vs : list Voicing) :
    Table preferredFret [(vs, firstLayer preferredFret vs)]
| Table_next (vs pvs : list Voicing) (prow : list Cell)
             (rows : list (list Voicing * list Cell)) :
    Table preferredFret ((pvs, prow) :: rows) ->
    pvs <> [] ->
    Table preferredFret
          ((vs, map (relax pvs prow) vs) :: (pvs, prow) :: rows).

(** What the cell of candidate [v], at index [j] of the top row, holds: the
    cost [c] of a cheapest path that ends in [v]; backtracking from [j]
    returns such a path. *)
Definition cellSpec (preferredFret : Q)
           (rows : list (list Voicing * list Cell)) (row : list Cell)
           (below : list (list Voicing * list Cell)) (j : nat) (v : Voicing)
  : Prop :=
  exists cell c rp,
    nth_error row j = Some cell
    /\ cost cell = Finite c
    /\ chosen rp (map fst below)
    /\ (rcost preferredFret (v :: rp) == c)%Q
    /\ (forall rp', chosen rp' (map fst below) ->
                    (c <= rcost preferredFret (v :: rp'))%Q)
    /\ forall acc,
         backtrack rows (Z.of_nat j) acc
         = Some (rev (map Some (v :: rp)) ++ acc)%list.

(** The largest fret of a list of positions, 0 for none. *)
Definition highestFret (ps : list Position) : Z :=
  fold_right (fun p m => Z.max (fret p) m) 0 ps.

(** What the variables of the scan say about the positions pushed so far:
    [minFret] and [maxFretUsed] are the least and the greatest fret above
    0, when there is one. *)
Definition scanStats (st : Scan) : Prop :=
  match sc_minFret st with
  | None =>
      sc_maxFretUsed st = 0
      /\ Forall (fun p => fret p <= 0) (sc_positions st)
  | Some m =>
      0 < m <= sc_maxFretUsed st
      /\ Forall (fun p => fret p <= 0 \/ m <= fret p <= sc_maxFretUsed st)
                (sc_positions st)
      /\ (exists p, In p (sc_positions st) /\ fret p = m)
      /\ (exists p, In p (sc_positions st) /\ fret p = sc_maxFretUsed st)
  end.

(** A row of [dp] whose cells are all as initialised. *)
Definition deadRow (row : list Cell) : Prop :=
  Forall (fun cell => cell = mkCell Infinity (-1)) row.

(** The average frets of the voicings the generator can return: one for
    every root index, shape quality and family. *)
Definition allAvgs : list Q :=
  flat_map (fun r =>
              flat_map (fun q => flat_map (entryAvg r q) CAGED_SHAPES)
                       supportedQualities)
           rootIndices.

(** Two rationals that are equal or at least 1/60 apart. *)
Definition apart (x y : Q) : bool :=
  (Qeq_bool x y || Qle_bool (1 # 60) (Qabs (x - y)%Q))%bool.

(** A rational that its rounding moves by 2^-20 at most. *)
Definition wellRounded (x : Q) : bool :=
  Qle_bool (Qabs (double x - x)%Q) (1 # 1048576).

(** A voicing whose average fret lies in the range around the preferred
    fret. *)
Definition inRange (preferredFret fretRange : Q) (v : Voicing) : bool :=
  (Qle_bool (double (preferredFret - fretRange)%Q) (avgFretNumber v)
   && Qle_bool (avgFretNumber v) (double (preferredFret + fretRange)%Q))%bool.

(** The candidate set of a chord as C1 gives it: the voicings of the chord
    within the range, or all its voicings when none is within the range. *)
Definition candidatesOf (useFlats : bool) (preferredFret fretRange : Q)
           (chord : jsstring) : list Voicing :=
  let all := generateAllVoicings useFlats chord 15 in
  if existsb (inRange preferredFret fretRange) all
  then filter (inRange preferredFret fretRange) all
  else all.

(** A code unit that a separator of the first split can hold. *)
Definition isSeparatorChar (c : N) : bool :=
  (JS.isWhiteSpace c || isCommaOrHyphen c)%bool.

(** What may stand around the tokens: white space, commas and hyphens. *)
Definition margin (m : jsstring) : Prop :=
  Forall (fun c => isSeparatorChar c = true) m.

(** What separates two tokens of the first split: white space, commas and
    hyphens, with a comma or a hyphen among them or at least two code
    units. *)
Definition separates (sep : jsstring) : Prop :=
  margin sep
  /\ (existsb isCommaOrHyphen sep = true \/ (2 <= List.length sep)%nat).

(** No comma or hyphen, and after every white-space code unit one that is
    not white space. *)
Fixpoint tokenBody (s : jsstring) : bool :=
  match s with
  | [] => true
  | c :: s' =>
      (negb (isCommaOrHyphen c)
       && (if JS.isWhiteSpace c
           then match s' with
                | d :: _ => negb (JS.isWhiteSpace d)
                | [] => false
                end
           else true)
       && tokenBody s')%bool
  end.

(** A token of the first split: not empty, without comma or hyphen, without
    white space at either end and without two adjacent white-space code
    units. *)
Definition isToken (t : jsstring) : bool :=
  match t with
  | [] => false
  | c :: _ => (negb (JS.isWhiteSpace c) && tokenBody t)%bool
  end.

(** A first token followed by further tokens, each after its separator. *)
Definition joined (t : jsstring) (rest : list (jsstring * jsstring))
  : jsstring :=
  (t ++ List.concat (map (fun st => fst st ++ snd st)%list rest))%list.

(** A string cut at every white-space code unit. *)
Fixpoint chunks (s : jsstring) : list jsstring :=
  match s with
  | [] => [[]]
  | c :: s' =>
      if JS.isWhiteSpace c then [] :: chunks s'
      else match chunks s' with
           | t :: ts => (c :: t) :: ts
           | [] => [[c]]
           end
  end.

(** The words of a string: its maximal runs of code units that are not
    white space. *)
Definition words (s : jsstring) : list jsstring :=
  filter nonEmpty (chunks s).

(** [p] put before the first of the strings [l]. *)
Definition glue (p : jsstring) (l : list jsstring) : list jsstring :=
  match l with
  | t :: ts => (p ++ t)%list :: ts
  | [] => [p]
  end.

(** A string that does not end in white space. *)
Definition endsInInk (s : jsstring) : Prop :=
  match rev s with
  | [] => True
  | c :: _ => JS.isWhiteSpace c = false
  end.

(** What follows a margin: the end of the input or a code unit of a
    token. *)
Definition headInk (rest : jsstring) : Prop :=
  match rest with
  | [] => True
  | d :: _ => isSeparatorChar d = false
  end.

(* ------------------------------------------------------------------ *)
(** ** Single-voicing resolver: the fallback and the entry point *)

(** [array.indexOf(x)] on an array of strings; [undefined] is not found. *)
Fixpoint indexOfFrom (l : list jsstring) (x : jsstring) (i : Z) : Z :=
  match l with
  | [] => -1
  | y :: l' => if JS.eqb y x then i else indexOfFrom l' x (i + 1)
  end.

Definition indexOf (l : list jsstring) (x : option jsstring) : Z :=
  match x with
  | Some s => indexOfFrom l s 0
  | None => -1
  end.

(** The loop over [fret] of [generateBasicVoicing] on one string: the
    position it pushes before its [break], if it pushes one. *)
Fixpoint scanFrets (useFlats : bool) (chordNotes : list jsstring)
         (root : jsstring) (usedStrings : list Z) (stringNum : Z)
         (frets : list Z) : option Position :=
  match frets with
  | [] => None
  | fret :: frets' =>
      let noteAtPos := getNoteAtPosition useFlats stringNum fret in
      let noteIndex := indexOf NOTE_NAMES noteAtPos in
      if (existsb (fun n => getNoteIndex n =? noteIndex) chordNotes
          && negb (existsb (Z.eqb stringNum) usedStrings))%bool
      then Some (mkPos stringNum fret (noteIndex =? getNoteIndex root))
      else scanFrets useFlats chordNotes root usedStrings stringNum frets'
  end.

(** The loop over [stringNum], with its guard on the number of positions;
    the state is [positions] and [usedStrings]. *)
Fixpoint scanStrings (useFlats : bool) (chordNotes : list jsstring)
         (root : jsstring) (stringNums : list Z)
         (st : list Position * list Z) : list Position * list Z :=
  match stringNums with
  | [] => st
  | stringNum :: rest =>
      if (Z.of_nat (List.length (fst st)) <? 6) then
        scanStrings useFlats chordNotes root rest
          match scanFrets useFlats chordNotes root (snd st) stringNum
                          [0; 1; 2; 3; 4; 5] with
          | Some p => ((fst st ++ [p])%list, stringNum :: snd st)
          | None => st
          end
      else st
  end.

(** [generateBasicVoicing] *)
Definition generateBasicVoicing (useFlats : bool) (root : jsstring)
           (quality : Quality) : list Position :=
  let chordNotes := getChordNotes root quality in
  match chordNotes with
  | [] => []
  | _ => fst (scanStrings useFlats chordNotes root [6; 5; 4; 3; 2; 1]
                          ([], []))
  end.

(** [calculateChordPositions] *)
Definition calculateChordPositions (useFlats : bool) (chordName : jsstring)
  : list Position :=
  match parseChordName chordName with
  | None => []
  | Some parsed =>
      match findChordShape (root parsed) (quality parsed) with
      | Some shape => shapeToPositions useFlats shape (root parsed)
      | None => generateBasicVoicing useFlats (root parsed) (quality parsed)
      end
  end.

(** The name [getNoteAtPosition] spells for pitch class [i]. *)
Definition spelledName (useFlats : bool) (i : Z) : jsstring :=
  let noteName := nth (Z.to_nat i) NOTE_NAMES [] in
  if (useFlats && JS.includes 35 noteName)%bool then
    match lookup flatMap noteName with
    | Some flat => flat
    | None => noteName
    end
  else noteName.

(** Position ([stringNum], [fret]) sounds a tone of the chord with root
    index [rootIndex] and quality [q]. *)
Definition isChordTone (rootIndex : Z) (q : Quality) (stringNum fret : Z)
  : bool :=
  match OPEN_STRING_NOTES stringNum with
  | None => false
  | Some o =>
      existsb (fun interval =>
                 (o + fret) mod 12 =? (rootIndex + interval) mod 12)
              (CHORD_INTERVALS q)
  end.

(** The frets below [fret], from the open string up. *)
Definition lowerFrets (fret : Z) : list Z :=
  map Z.of_nat (seq 0 (Z.to_nat fret)).

Definition allQualities : list Quality :=
  [q_major; q_minor; q_dim; q_aug; q_maj7; q_7; q_m7; q_dim7; q_m7b5;
   q_mMaj7; q_aug7; q_9; q_maj9; q_m9; q_add9; q_6; q_m6; q_sus2; q_sus4;
   q_7sus4].

(** What [generateBasicVoicing] returns in sharps notation, as a test:
    one position on each string from 6 to 1, each at the lowest fret of its
    string that sounds a chord tone, within the first five frets, flagged
    when it sounds the root. *)
Definition basicVoicingCheck (root : jsstring) (q : Quality) : bool :=
  let ps := generateBasicVoicing false root q in
  let r := getNoteIndex root in
  (forallb (fun xy => fst xy =? snd xy)
           (combine (map stringNum ps) [6; 5; 4; 3; 2; 1])
   && (List.length ps =? 6)%nat
   && forallb (fun p =>
                 (0 <=? fret p) && (fret p <=? 5)
                 && isChordTone r q (stringNum p) (fret p)
                 && forallb (fun f => negb (isChordTone r q (stringNum p) f))
                            (lowerFrets (fret p))
                 && Bool.eqb (isRoot p)
                             (noteIndexAt false (stringNum p) (fret p) =? r))
              ps)%bool.

Ltac caged_entry n :=
  exists (nth n CAGED_SHAPES (E, fun _ => None)); eexists;
  split; [simpl; tauto|];
  split; [reflexivity|]; split; reflexivity.

Ltac any_caged_entry :=
  first [ caged_entry 0%nat | caged_entry 1%nat | caged_entry 2%nat
        | caged_entry 3%nat | caged_entry 4%nat ].

(* ------------------------------------------------------------------ *)
(** ** Position ids and note names with octave *)

(** An integer in a template string: its decimal digits, with a minus sign
    when negative (the form JavaScript prints for integers of magnitude
    below 10^21). *)
Definition showZ (z : Z) : jsstring :=
  JS.lit (NilEmpty.string_of_int (Z.to_int z)).

(** [getPositionId]: the letter s, the string number, the letter f, the
    fret number. *)
Definition getPositionId (stringNum fretNum : Z) : jsstring :=
  (JS.lit "s" ++ showZ stringNum ++ JS.lit "f" ++ showZ fretNum)%list.







(** A note name or a number in a template string. *)
Definition showName (n : option jsstring) : jsstring :=
  match n with Some s => s | None => JS.lit "undefined" end.



(** A code unit that a printed integer can hold. *)
Definition isDigitOrMinus (c : N) : Prop :=
  c = 45%N \/ (48 <= c <= 57)%N.

(* ------------------------------------------------------------------ *)
(** ** Search *)

(** An entry of [SONG_DATABASE]. *)
Record Song := mkSong {
  title : jsstring;
  artist : jsstring;
  chords : list jsstring;
  key : jsstring
}.

Definition song (t a : string) (cs : list string) (k : string) : Song :=
  mkSong (JS.lit t) (JS.lit a) (map JS.lit cs) (JS.lit k).

(** [Object.entries(SONG_DATABASE)]: the keys in the order of the literal. *)
Definition SONG_DATABASE : list (jsstring * Song) :=
  [ (JS.lit "wonderwall",
     song "Wonderwall" "Oasis" ["Em7"; "G"; "Dsus4"; "A7sus4"] "E minor");
    (JS.lit "hotel california",
     song "Hotel California" "Eagles"
          ["Am"; "E7"; "G"; "D"; "F"; "C"; "Dm"; "E"] "B minor");
    (JS.lit "wish you were here",
     song "Wish You Were Here" "Pink Floyd"
          ["Em7"; "G"; "A7sus4"; "C"; "D"; "Am"] "G major");
    (JS.lit "stairway to heaven",
     song "Stairway to Heaven" "Led Zeppelin"
          ["Am"; "E+"; "C"; "D"; "Fmaj7"; "G"; "Am7"] "A minor");
    (JS.lit "hallelujah",
     song "Hallelujah" "Leonard Cohen" ["C"; "Am"; "F"; "G"; "E7"] "C major");
    (JS.lit "blackbird",
     song "Blackbird" "The Beatles"
          ["G"; "Am7"; "G/B"; "C"; "A7"; "D7"] "G major");
    (JS.lit "nothing else matters",
     song "Nothing Else Matters" "Metallica"
          ["Em"; "Am"; "C"; "D"; "G"; "B7"] "E minor");
    (JS.lit "house of the rising sun",
     song "House of the Rising Sun" "The Animals"
          ["Am"; "C"; "D"; "F"; "E"] "A minor");
    (JS.lit "sweet home alabama",
     song "Sweet Home Alabama" "Lynyrd Skynyrd" ["D"; "C"; "G"] "D major");
    (JS.lit "knockin on heavens door",
     song "Knockin' on Heaven's Door" "Bob Dylan"
          ["G"; "D"; "Am"; "C"] "G major") ]%string.

(** The object that [searchChords] builds: the query as [name], the parsed
    chord and its notes. *)
Record ChordResult := mkChordResult {
  cr_name : jsstring;
  cr_chord : ChordSymbol;
  cr_notes : list jsstring
}.

(** [searchChords] *)
Definition searchChords (query : jsstring) : option ChordResult :=
  match parseChordName query with
  | Some parsed =>
      Some (mkChordResult query parsed
              (getChordNotes (root parsed) (quality parsed)))
  | None => None
  end.

(** What [handleSearch] returns: the [type] with its [result]. *)
Inductive SearchResult :=
| SearchEmpty
| SearchChord (result : ChordResult)
| SearchSongs (result : list Song)
| SearchNotFound.

Section Search.

(** [String.prototype.toLowerCase], the Unicode lower-casing of the
    engine. *)
Variable toLowerCase : jsstring -> jsstring.

(** [a.includes(b)] *)
Definition includesString (a b : jsstring) : bool := JS.occursBy JS.eqCase b a.

(** [searchSongs] *)
Definition searchSongs (query : jsstring) : list Song :=
  match JS.trim query with
  | [] => []
  | _ =>
      let normalizedQuery := JS.trim (toLowerCase query) in
      map snd
        (filter (fun entry =>
                   (includesString (fst entry) normalizedQuery
                    || includesString (toLowerCase (title (snd entry)))
                         normalizedQuery
                    || includesString (toLowerCase (artist (snd entry)))
                         normalizedQuery)%bool)
                SONG_DATABASE)
  end.

(** [handleSearch] *)
Definition handleSearch (query : jsstring) : SearchResult :=
  match JS.trim query with
  | [] => SearchEmpty
  | _ =>
      let chordResult := searchChords query in
      match chordResult with
      | Some r =>
          if (0 <? List.length (cr_notes r))%nat then SearchChord r
          else
            match searchSongs query with
            | [] => SearchNotFound
            | songResults => SearchSongs songResults
            end
      | None =>
          match searchSongs query with
          | [] => SearchNotFound
          | songResults => SearchSongs songResults
          end
      end
  end.

End Search.

(** The roots that [parseChordName] accepts and [noteMap] does not have. *)
Definition unknownRoots : list jsstring :=
  map JS.lit ["E#"; "B#"; "Cb"; "Fb"]%string.

(** The pitch class of a root letter, in semitones above C. *)
Definition letterPitch (letter : N) : option Z :=
  match letter with
  | 67%N => Some 0
  | 68%N => Some 2
  | 69%N => Some 4
  | 70%N => Some 5
  | 71%N => Some 7
  | 65%N => Some 9
  | 66%N => Some 11
  | _ => None
  end.

(** The pitch class a root name denotes: that of its letter, a semitone
    higher after a sharp and a semitone lower after a flat, modulo 12. *)
Definition rootPitchClass (root : jsstring) : option Z :=
  match root with
  | [letter] => letterPitch letter
  | [letter; 35%N] => option_map (fun k => (k + 1) mod 12) (letterPitch letter)
  | [letter; 98%N] => option_map (fun k => (k - 1) mod 12) (letterPitch letter)
  | _ => None
  end.

(** The pitch class sounded at a position: the open string's pitch class
    plus the fret, modulo 12. *)
Definition soundedPitch (p : Position) : option Z :=
  option_map (fun o => (o + fret p) mod 12) (OPEN_STRING_NOTES (stringNum p)).

(** A root name denotes a pitch class, and [getNoteIndex] gives it unless
    the name is one the note table lacks. *)
Definition rootCheck (root : jsstring) : bool :=
  match rootPitchClass root with
  | Some k =>
      (existsb (JS.eqb root) unknownRoots || (getNoteIndex root =? k))%bool
  | None => false
  end.

(** [isProgression] *)
Definition isProgression (input : jsstring) : bool :=
  match input with
  | [] => false
  | _ =>
      (existsb isCommaOrHyphen input
       || (1 <? List.length (JS.splitRegex spaceSeparator (JS.trim input)))%nat)
        %bool
  end.

(** White space only. *)
Definition blank (t : jsstring) : Prop :=
  Forall (fun c => JS.isWhiteSpace c = true) t.

(** Neither white space nor a comma or hyphen anywhere. *)
Definition inkOnly (t : jsstring) : Prop :=
  Forall (fun c => JS.isWhiteSpace c = false /\ isCommaOrHyphen c = false) t.

(* ------------------------------------------------------------------ *)
(** ** The page: note grid, markers and state *)

(** [CONFIG.strings] and [CONFIG.frets] *)
Definition CONFIG_strings : Z := 6.
Definition CONFIG_frets : Z := 22.

(** The values of a loop variable that counts from [lo] up to [hi]. *)
Definition countUp (lo hi : Z) : list Z :=
  map (fun i => lo + Z.of_nat i) (seq 0 (Z.to_nat (hi - lo + 1))).

(** A [.note-position] element: its id and its data attributes. *)
Record NotePosition := mkNotePosition {
  np_id : jsstring;
  np_string : Z;
  np_fret : Z;
  np_note : option jsstring
}.

(** [createNoteGrid]: the note positions of the six rows, in document
    order. *)
Definition createNoteGrid (useFlats : bool) : list NotePosition :=
  flat_map
    (fun stringNum =>
       map (fun fret =>
              mkNotePosition (getPositionId stringNum fret) stringNum fret
                             (getNoteAtPosition useFlats stringNum fret))
           (countUp 0 CONFIG_frets))
    (countUp 1 CONFIG_strings).

(** The note positions of the document once [init] has rendered the
    fretboard; [state.useFlats] is [false] at that time. *)
Definition noteGrid : list NotePosition := createNoteGrid false.

(** [document.getElementById(id)] on the note positions. *)
Definition getElementById (id : jsstring) : option NotePosition :=
  find (fun np => JS.eqb (np_id np) id) noteGrid.

(** A [.note-marker] element: its classes [active] and [root], its text
    (the value assigned to [textContent]) and its title. *)
Record Marker := mkMarker {
  m_active : bool;
  m_root : bool;
  m_text : option jsstring;
  m_title : jsstring
}.

(** [state.progression] *)
Record Progression := mkProgression {
  pr_chords : list jsstring;
  pr_voicings : list (option Voicing);
  pr_currentIndex : Z;
  pr_isPlaying : bool;
  pr_tempo : Z;
  pr_beatsPerChord : Z;
  pr_loopEnabled : bool
}.

(** The [state] object, together with the markers of the document: the
    marker of a note position is stored under the id of that position. *)
Record State := mkState {
  st_markers : list (jsstring * Marker);
  st_activeNotes : list Position;
  st_currentChord : option jsstring;
  st_useFlats : bool;
  st_soundEnabled : bool;
  st_progression : Progression
}.

Definition initialState : State :=
  mkState [] [] None false true (mkProgression [] [] 0 false 80 2 true).

(** The marker of a note position is replaced where the position has one
    and created where it has none. *)
Fixpoint setMarker (id : jsstring) (m : Marker)
         (markers : list (jsstring * Marker)) : list (jsstring * Marker) :=
  match markers with
  | [] => [(id, m)]
  | (k, x) :: markers' =>
      if JS.eqb k id then (k, m) :: markers'
      else (k, x) :: setMarker id m markers'
  end.

(** [marker.remove()] on the marker of a note position. *)
Definition removeMarker (id : jsstring) (markers : list (jsstring * Marker))
  : list (jsstring * Marker) :=
  filter (fun e => negb (JS.eqb (fst e) id)) markers.

(** [n.string === stringNum && n.fret === fretNum] *)
Definition sameSpot (stringNum0 fretNum : Z) (n : Position) : bool :=
  ((stringNum n =? stringNum0) && (fret n =? fretNum))%bool.

(** The title of a marker. *)
Definition markerTitle (noteName : option jsstring) (stringNum fretNum : Z)
  : jsstring :=
  (showName noteName ++ JS.lit " - String " ++ showZ stringNum
   ++ JS.lit ", Fret " ++ showZ fretNum)%list.

(** [highlightPosition(stringNum, fretNum, {isRoot, label})]; an empty
    label is falsy. *)
Definition highlightPosition (stringNum0 fretNum : Z) (isRoot0 : bool)
           (label : option jsstring) (st : State) : State :=
  let positionId := getPositionId stringNum0 fretNum in
  match getElementById positionId with
  | None => st
  | Some _ =>
      let noteName :=
        match label with
        | Some (c :: l) => Some (c :: l)
        | _ => getNoteAtPosition (st_useFlats st) stringNum0 fretNum
        end in
      let marker :=
        mkMarker true isRoot0 noteName
                 (markerTitle noteName stringNum0 fretNum) in
      let noteData := mkPos stringNum0 fretNum isRoot0 in
      mkState (setMarker positionId marker (st_markers st))
              (if existsb (sameSpot stringNum0 fretNum) (st_activeNotes st)
               then st_activeNotes st
               else (st_activeNotes st ++ [noteData])%list)
              (st_currentChord st) (st_useFlats st) (st_soundEnabled st)
              (st_progression st)
  end.

(** [clearPosition] *)
Definition clearPosition (stringNum0 fretNum : Z) (st : State) : State :=
  let positionId := getPositionId stringNum0 fretNum in
  mkState (match getElementById positionId with
           | Some _ => removeMarker positionId (st_markers st)
           | None => st_markers st
           end)
          (filter (fun n => negb (sameSpot stringNum0 fretNum n))
                  (st_activeNotes st))
          (st_currentChord st) (st_useFlats st) (st_soundEnabled st)
          (st_progression st).

(** [clearAllHighlights] *)
Definition clearAllHighlights (st : State) : State :=
  mkState [] [] None (st_useFlats st) (st_soundEnabled st)
          (st_progression st).

(** [highlightChord] *)
Definition highlightChord (positions0 : list Position) (st : State)
  : State :=
  fold_left (fun st pos =>
               highlightPosition (stringNum pos) (fret pos)
                                 (isRoot pos || false) None st)
            positions0 (clearAllHighlights st).

(** [handleNoteClick]; the sound and the string animation leave the state
    and the markers alone.  The note name is computed for the log only:
    where that throws (a string the guitar does not have, in flats
    notation) nothing has been changed yet, and the state returned here is
    the unchanged one. *)
Definition handleNoteClick (stringNum0 fretNum : Z) (st : State) : State :=
  let positionId := getPositionId stringNum0 fretNum in
  let existingMarker :=
    match getElementById positionId with
    | Some _ => lookup (st_markers st) positionId
    | None => None
    end in
  match existingMarker with
  | Some _ => clearPosition stringNum0 fretNum st
  | None => highlightPosition stringNum0 fretNum false None st
  end.

(** [setNotationMode] *)
Definition setNotationMode (useFlats : bool) (st : State) : State :=
  let st :=
    mkState (st_markers st) (st_activeNotes st) (st_currentChord st)
            useFlats (st_soundEnabled st) (st_progression st) in
  let currentNotes := st_activeNotes st in
  fold_left (fun st pos =>
               highlightPosition (stringNum pos) (fret pos) (isRoot pos)
                                 None st)
            currentNotes (clearAllHighlights st).

(** [toggleSound] *)
Definition toggleSound (st : State) : State :=
  mkState (st_markers st) (st_activeNotes st) (st_currentChord st)
          (st_useFlats st) (negb (st_soundEnabled st)) (st_progression st).

Definition setCurrentChord (chord : jsstring) (st : State) : State :=
  mkState (st_markers st) (st_activeNotes st) (Some chord)
          (st_useFlats st) (st_soundEnabled st) (st_progression st).

Definition setProgression (p : Progression) (st : State) : State :=
  mkState (st_markers st) (st_activeNotes st) (st_currentChord st)
          (st_useFlats st) (st_soundEnabled st) p.

(** [displayChord] *)
Definition displayChord (chordName0 : jsstring) (st : State) : State :=
  let positions0 := calculateChordPositions (st_useFlats st) chordName0 in
  match positions0 with
  | [] => st
  | _ => highlightChord positions0 (setCurrentChord chordName0 st)
  end.

(** [displayVoicing] *)
Definition displayVoicing (voicing : option Voicing) (st : State) : State :=
  match voicing with
  | None => st
  | Some v => highlightChord (positions v) (setCurrentChord (chordName v) st)
  end.

(** [goToChord] *)
Definition goToChord (index : Z) (st : State) : State :=
  let p := st_progression st in
  let voicings := pr_voicings p in
  if ((index <? 0) || (index >=? Z.of_nat (List.length voicings)))%bool
  then st
  else
    let st :=
      setProgression
        (mkProgression (pr_chords p) (pr_voicings p) index (pr_isPlaying p)
                       (pr_tempo p) (pr_beatsPerChord p) (pr_loopEnabled p))
        st in
    displayVoicing
      (match nth_error voicings (Z.to_nat index) with
       | Some v => v
       | None => None
       end) st.

(** [nextChord] *)
Definition nextChord (st : State) : State :=
  let p := st_progression st in
  let len := Z.of_nat (List.length (pr_voicings p)) in
  let nextIndex := pr_currentIndex p + 1 in
  let nextIndex :=
    if nextIndex >=? len
    then (if pr_loopEnabled p then 0 else len - 1)
    else nextIndex in
  goToChord nextIndex st.

(** [prevChord] *)
Definition prevChord (st : State) : State :=
  let p := st_progression st in
  let len := Z.of_nat (List.length (pr_voicings p)) in
  let prevIndex := pr_currentIndex p - 1 in
  let prevIndex :=
    if prevIndex <? 0
    then (if pr_loopEnabled p then len - 1 else 0)
    else prevIndex in
  goToChord prevIndex st.

(** [toggleLoop] *)
Definition toggleLoop (st : State) : State :=
  let p := st_progression st in
  setProgression
    (mkProgression (pr_chords p) (pr_voicings p) (pr_currentIndex p)
                   (pr_isPlaying p) (pr_tempo p) (pr_beatsPerChord p)
                   (negb (pr_loopEnabled p)))
    st.

(** How a call ends. *)
Inductive Outcome := Returned | Threw.

Definition isSome {X} (x : option X) : bool :=
  match x with Some _ => true | None => false end.

(** [loadProgression(chords, {preferredFret, fretRange})]: how the call
    ends and the state it leaves.  [optimizeProgression] throws before the
    state is touched; the final log throws on an entry that is
    [undefined], after the state is updated. *)
Definition loadProgression (chords0 : list jsstring)
           (preferredFret fretRange : Q) (st : State) : Outcome * State :=
  match chords0 with
  | [] => (Returned, st)
  | _ =>
      match optimizeProgression (st_useFlats st) preferredFret fretRange
                                chords0 with
      | None => (Threw, st)
      | Some optimizedVoicings =>
          let p := st_progression st in
          let st :=
            setProgression
              (mkProgression chords0 optimizedVoicings 0 false (pr_tempo p)
                             (pr_beatsPerChord p) (pr_loopEnabled p))
              st in
          let st :=
            match optimizedVoicings with
            | v :: _ => displayVoicing v st
            | [] => st
            end in
          (if forallb isSome optimizedVoicings then Returned else Threw, st)
      end
  end.

Section Page.

Variable toLowerCase : jsstring -> jsstring.

(** [performSearch]; the result panel is no part of the state. *)
Definition performSearch (query : jsstring) (st : State) : State :=
  match handleSearch toLowerCase query with
  | SearchChord result => displayChord (cr_name result) st
  | _ => st
  end.

(** [performSearchEnhanced] *)
Definition performSearchEnhanced (query : jsstring) (st : State)
  : Outcome * State :=
  if isProgression query then
    let chords0 := parseProgression query in
    if (1 <? List.length chords0)%nat
    then loadProgression chords0 5 7 st
    else (Returned, performSearch query st)
  else (Returned, performSearch query st).

(** [showSongDetails] *)
Definition showSongDetails (song0 : Song) (st : State) : State :=
  match chords song0 with
  | c :: _ => displayChord c st
  | [] => st
  end.

(** What the user does with the page: the handlers that the source
    attaches to the note positions, the control buttons, the search box and
    its results, and the progression bar (the timer of the auto-play calls
    [nextChord] as the Next button does). *)
Inductive Event :=
| NoteClicked (stringNum0 fretNum : Z)
| SharpsClicked
| FlatsClicked
| ClearClicked
| SoundClicked
| SearchEntered (query : jsstring)
| PreviewClicked (input : jsstring)
| ChordPicked (chordName0 : jsstring)
| SongPicked (song0 : Song)
| ChipClicked (index : Z)
| PrevClicked
| NextClicked
| LoopClicked.

Definition handle (e : Event) (st : State) : State :=
  match e with
  | NoteClicked s f => handleNoteClick s f st
  | SharpsClicked => setNotationMode false st
  | FlatsClicked => setNotationMode true st
  | ClearClicked => clearAllHighlights st
  | SoundClicked => toggleSound st
  | SearchEntered query => snd (performSearchEnhanced query st)
  | PreviewClicked input =>
      snd (loadProgression (parseProgression input) 5 7 st)
  | ChordPicked c => displayChord c st
  | SongPicked s => showSongDetails s st
  | ChipClicked i => goToChord i st
  | PrevClicked => prevChord st
  | NextClicked => nextChord st
  | LoopClicked => toggleLoop st
  end.

Definition run (events : list Event) (st : State) : State :=
  fold_left (fun st e => handle e st) events st.

End Page.

(** The id of the note position of an active note, and the marker that
    [highlightPosition] gives it without a label. *)
Definition positionId (n : Position) : jsstring :=
  getPositionId (stringNum n) (fret n).

Definition markerOf (useFlats : bool) (n : Position) : Marker :=
  let noteName := getNoteAtPosition useFlats (stringNum n) (fret n) in
  mkMarker true (isRoot n) noteName
           (markerTitle noteName (stringNum n) (fret n)).

Definition onBoard (n : Position) : Prop :=
  1 <= stringNum n <= CONFIG_strings /\ 0 <= fret n <= CONFIG_frets.

(** The markers of the document are those of the active notes: no two
    active notes share a position, each is on the board, and a note
    position carries a marker exactly when an active note is at it, with
    the root flag of that note and its name in the current notation. *)
Definition markersShown (st : State) : Prop :=
  NoDup (map positionId (st_activeNotes st))
  /\ Forall onBoard (st_activeNotes st)
  /\ forall id,
       lookup (st_markers st) id
       = option_map (markerOf (st_useFlats st))
                    (find (fun n => JS.eqb (positionId n) id)
                          (st_activeNotes st)).

(** The progression of the state holds one voicing of the generator per
    chord, and the current index points into it. *)
Definition progressionLoaded (st : State) : Prop :=
  let p := st_progression st in
  exists result,
    pr_voicings p = map Some result
    /\ Forall2 (fun v chord =>
                  In v (generateAllVoicings false chord 15)
                  /\ chordName v = chord)
               result (pr_chords p)
    /\ 0 <= pr_currentIndex p
    /\ (result <> [] -> pr_currentIndex p < Z.of_nat (List.length result)).

Definition pageInvariant (st : State) : Prop :=
  markersShown st /\ progressionLoaded st.

(* ------------------------------------------------------------------ *)
(** ** Chord tones *)

(** The positions of one entry of [CAGED_SHAPES], moved to root index [r],
    sound tones of the chord only, and the root among them when [r] is the
    index of a note. *)
Definition voicingCheck (useFlats : bool) (r : Z) (q : Quality)
           (entry : Family * (Quality -> option CagedShape)) : bool :=
  match snd entry q with
  | None => true
  | Some shape =>
      let ps :=
        sounded useFlats r (transposeTo r (fst entry)) (strings shape) 0 in
      (forallb (fun p => isChordTone r q (stringNum p) (fret p)) ps
       && ((r =? -1) || existsb isRoot ps))%bool
  end.



(* ------------------------------------------------------------------ *)
(** ** Canonical chord names *)

(** The quality [parseChordName] finds in the name of quality [q], the key
    of [CHORD_INTERVALS], written after a root. *)
Definition parsedQuality (q : Quality) : Quality :=
  match q with
  | q_major | q_maj7 | q_maj9 => q_minor
  | _ => q
  end.

(* ================================================================== *)
(** * Properties *)

(* ------------------------------------------------------------------ *)
(** ** The chord-name parser *)

Example parse_Am : parseChordName (JS.lit "Am")
  = Some (mkChord (JS.lit "A") q_minor None).
Proof. reflexivity. Qed.

Example parse_slash : parseChordName (JS.lit " cM7/G ")
  = Some (mkChord (JS.lit "C") q_maj7 (Some (JS.lit "G"))).
Proof. reflexivity. Qed.

Example parse_flat_dim : parseChordName (JS.lit "Bbdim")
  = Some (mkChord (JS.lit "Bb") q_dim None).
Proof. reflexivity. Qed.

Lemma chordRegex_none (s : jsstring) :
  chordRegex s = None <->
  startsWithRoot s = false \/ lineBreakAfterRoot s = true.
Proof.
  destruct s as [|c rest]; simpl.
  - split; auto.
  - destruct (isRootLetter c); simpl.
    + destruct (existsb JS.isLineTerminator rest) eqn:Hlt.
      * split; auto.
      * split.
        -- destruct rest as [|a rest']; [discriminate|].
           destruct (N.eqb a 35 || N.eqb a 98)%bool; discriminate.
        -- intros [H|H]; discriminate.
    + split; auto.
Qed.

Lemma parseChordName_some_inv (s : jsstring) (c : ChordSymbol) :
  parseChordName s = Some c ->
  exists letter accidental rest,
    chordRegex (JS.trim s) = Some (letter, accidental, rest) /\
    c = mkChord (upperRoot letter :: accidental)
                (classify qualityPatterns (fst (splitBass rest)))
                (snd (splitBass rest)).
Proof.
  unfold parseChordName. destruct s as [|x s']; [discriminate|].
  destruct (chordRegex (JS.trim (x :: s'))) as [[[letter acc] rest]|];
    [|discriminate].
  destruct (splitBass rest) as [qp b] eqn:Hsb. intros [= <-].
  exists letter, acc, rest. rewrite Hsb. auto.
Qed.

Lemma trim_nil : JS.trim [] = [].
Proof. reflexivity. Qed.

Lemma parseChordName_none (s : jsstring) :
  parseChordName s = None <-> chordRegex (JS.trim s) = None.
Proof.
  unfold parseChordName. destruct s as [|x s'].
  - rewrite trim_nil. simpl. tauto.
  - destruct (chordRegex (JS.trim (x :: s'))) as [[[letter acc] rest]|].
    + destruct (splitBass rest). split; discriminate.
    + tauto.
Qed.

Lemma classify_default (rules : list Rule) (text : jsstring) :
  forallb (fun r => negb (test r text)) rules = true ->
  classify rules text = q_major.
Proof.
  induction rules as [|r rules IH]; simpl; [reflexivity|].
  intros H. apply andb_true_iff in H as [Hr Hrest].
  apply negb_true_iff in Hr. rewrite Hr. auto.
Qed.

Lemma classify_tag (rules : list Rule) (text : jsstring) :
  classify rules text = q_major \/
  exists r, In r rules /\ test r text = true /\ classify rules text = tag r.
Proof.
  induction rules as [|r rules IH]; simpl; [auto|].
  destruct (test r text) eqn:Hr.
  - right. exists r. auto.
  - destruct IH as [IH|[r' [Hin [Ht Hc]]]]; [auto|].
    right. exists r'. auto.
Qed.

(** A quality text that starts with a lower-case [m] is caught by one of
    the six minor rules, whatever follows: the rules for [maj7] and [maj9]
    are never reached for it. *)
Lemma classify_leading_m (rest : jsstring) :
  In (classify qualityPatterns (109%N :: rest))
     [q_m7b5; q_mMaj7; q_m7; q_m9; q_m6; q_minor].
Proof.
  unfold qualityPatterns, classify.
  repeat match goal with
         | |- context [if test ?r ?t then _ else _] =>
             destruct (test r t) eqn:?; [simpl; tauto|]
         end.
  match goal with
  | H : test (mkRule [start "m"; _; _] false q_minor) _ = false |- _ =>
      cbv in H; discriminate H
  end.
Qed.

(** C2, the code at the input the claim names: the quality text [maj7]
    starts with a lower-case [m], so the sixth rule (minor) accepts it
    before the rule for [maj7] is tried, and [parseChordName("F#maj7")] has
    quality [minor], not [maj7].  [getChordNotes("F#", "maj7")] does return
    the four notes at offsets 0, 4, 7 and 11 from pitch class 6. *)
Theorem parseChordName_Fsharp_maj7 :
  parseChordName (JS.lit "F#maj7")
    = Some (mkChord (JS.lit "F#") q_minor None)
  /\ classify qualityPatterns (JS.lit "maj7") <> q_maj7
  /\ getNoteIndex (JS.lit "F#") = 6
  /\ CHORD_INTERVALS q_maj7 = [0; 4; 7; 11]
  /\ getChordNotes (JS.lit "F#") q_maj7
     = map JS.lit ["F#"; "A#"; "C#"; "F"]%string.
Proof.
  repeat split; try reflexivity. intros H. discriminate H.
Qed.

(** C8 as stated fails: a name with a line terminator after its root letter
    is not empty and begins with a root letter, and still parses to
    [null]. *)
Lemma parseChordName_line_break_null :
  let s := (JS.lit "C" ++ [10%N] ++ JS.lit "m")%list in
  ~ (parseChordName s = None <->
     JS.trim s = [] \/ startsWithRoot (JS.trim s) = false).
Proof.
  intros s [H _]. assert (Hn : parseChordName s = None) by reflexivity.
  destruct (H Hn) as [H1|H1]; discriminate H1.
Qed.

(** C8, amended: [parseChordName] returns [null] exactly when the trimmed
    input is empty, does not begin with a root letter A-G or a-g, or has a
    line terminator after the root letter; otherwise it returns a chord
    symbol whose quality is [major] when no quality rule matches; and
    [generateAllVoicings] returns the empty list whenever the name does not
    parse. *)
Theorem parseChordName_null_iff (s : jsstring) :
  (parseChordName s = None <->
   JS.trim s = [] \/ startsWithRoot (JS.trim s) = false
   \/ lineBreakAfterRoot (JS.trim s) = true)
  /\ (forall c, parseChordName s = Some c ->
        exists letter accidental rest,
          chordRegex (JS.trim s) = Some (letter, accidental, rest) /\
          root c = upperRoot letter :: accidental /\
          (forallb (fun r => negb (test r (fst (splitBass rest))))
                   qualityPatterns = true -> quality c = q_major))
  /\ (parseChordName s = None ->
      forall useFlats maxFret, generateAllVoicings useFlats s maxFret = []).
Proof.
  repeat split.
  - intros H. right. apply chordRegex_none, parseChordName_none, H.
  - intros H. apply parseChordName_none, chordRegex_none.
    destruct H as [H|H]; [|exact H]. rewrite H. left. reflexivity.
  - intros c Hc.
    destruct (parseChordName_some_inv _ _ Hc) as (l & a & r & Hre & ->).
    exists l, a, r. repeat split; [exact Hre|].
    intros H. exact (classify_default _ _ H).
  - intros H useFlats maxFret. unfold generateAllVoicings. rewrite H.
    reflexivity.
Qed.

Lemma parseChordName_null_iff_witness :
  parseChordName (JS.lit "  ") = None
  /\ (exists letter accidental rest,
        chordRegex (JS.trim (JS.lit "Gx")) = Some (letter, accidental, rest)
        /\ root (mkChord (JS.lit "G") q_major None)
           = upperRoot letter :: accidental
        /\ (forallb (fun r => negb (test r (fst (splitBass rest))))
                    qualityPatterns = true ->
            quality (mkChord (JS.lit "G") q_major None) = q_major))
  /\ generateAllVoicings false (JS.lit "xx") 15 = [].
Proof.
  split; [|split].
  - apply (proj1 (parseChordName_null_iff (JS.lit "  "))). left. reflexivity.
  - apply (proj1 (proj2 (parseChordName_null_iff (JS.lit "Gx")))).
    reflexivity.
  - apply (proj2 (proj2 (parseChordName_null_iff (JS.lit "xx")))).
    reflexivity.
Defined.

(* ------------------------------------------------------------------ *)
(** ** The quality map of the voicing generator *)

(** C3 as stated fails: [dim] is mapped to [minor], not to [major], and the
    minor-flavoured [m9] is mapped to [major], not to [minor]. *)
Lemma shapeQualityOf_dim_m9 :
  shapeQualityOf q_dim <> q_major /\ shapeQualityOf q_m9 <> q_minor.
Proof. split; discriminate. Qed.

(** C3, amended: a quality outside [major, minor, 7, m7, maj7] is mapped
    into [major, minor] before the shape lookup: [dim] to [minor]; [aug],
    [sus2], [sus4] and every other one (the default of the lookup, which
    also takes [m6], [m9], [m7b5] and [mMaj7]) to [major].  A supported
    quality is kept. *)
Theorem shapeQualityOf_unsupported (q : Quality) :
  supportedQuality q = false ->
  shapeQualityOf q = (if Quality_eqb q q_dim then q_minor else q_major).
Proof. destruct q; simpl; intros H; try reflexivity; discriminate H. Qed.

Lemma shapeQualityOf_unsupported_witness :
  shapeQualityOf q_sus4 = q_major.
Proof. apply (shapeQualityOf_unsupported q_sus4). reflexivity. Defined.

Lemma shapeQualityOf_supported (q : Quality) :
  supportedQuality q = true -> shapeQualityOf q = q.
Proof. destruct q; simpl; intros H; try reflexivity; discriminate H. Qed.

Lemma shapeQualityOf_is_supported (q : Quality) :
  supportedQuality (shapeQualityOf q) = true.
Proof. destruct q; reflexivity. Qed.

(* ------------------------------------------------------------------ *)
(** ** The single-voicing resolver *)

Example findChordShape_F : findChordShape (JS.lit "F") q_major
  = Some (mkShape [0; 2; 2; 1; 0; 0] 6 0, 1).
Proof. reflexivity. Qed.

Example findChordShape_Csharp_minor : findChordShape (JS.lit "C#") q_minor
  = Some (mkShape [-1; 0; 2; 2; 1; 0] 5 0, 4).
Proof. reflexivity. Qed.

(** The rule the code applies to a root that has no open shape: the
    E-shape when its distance is at most 7, else the A-shape. *)
Lemma findChordShape_barre (root : jsstring) (q : Quality) :
  existsb (JS.eqb root) openChords = false ->
  exists shape,
    findChordShape root q
    = Some (shape, if transposedFromE root <=? 7 then transposedFromE root
                   else transposedFromA root).
Proof.
  intros Hopen. unfold findChordShape. rewrite Hopen.
  destruct (transposedFromE root <=? 7); destruct q; simpl; eauto.
Qed.

(** C4, the code at the roots B and B flat: the A-shape is the nearer
    template (distance 2 against 7, and 1 against 6), and the resolver
    takes the E-shape, transposed by 7 and by 6 frets. *)
Theorem findChordShape_B_uses_E_shape :
  transposedFromE (JS.lit "B") = 7 /\ transposedFromA (JS.lit "B") = 2
  /\ findChordShape (JS.lit "B") q_major
     = Some (mkShape [0; 2; 2; 1; 0; 0] 6 0, 7)
  /\ map fret (shapeToPositions false
                 (mkShape [0; 2; 2; 1; 0; 0] 6 0, 7) (JS.lit "B"))
     = [7; 9; 9; 8; 7; 7]
  /\ nearestBarre (JS.lit "B") = (A, 2)
  /\ lookup CHORD_SHAPES (JS.lit "E_major")
     = Some (mkShape [0; 2; 2; 1; 0; 0] 6 0)
  /\ transposedFromE (JS.lit "Bb") = 6 /\ transposedFromA (JS.lit "Bb") = 1
  /\ findChordShape (JS.lit "Bb") q_minor
     = Some (mkShape [0; 2; 2; 0; 0; 0] 6 0, 6)
  /\ nearestBarre (JS.lit "Bb") = (A, 1).
Proof. repeat split; reflexivity. Qed.

(* ------------------------------------------------------------------ *)
(** ** The progression parser *)

Lemma dropWhile_Forall (P : N -> Prop) (p : N -> bool) (s : jsstring) :
  Forall P s -> Forall P (JS.dropWhile p s).
Proof.
  induction 1 as [|c s Hc Hs IH]; simpl; [constructor|].
  destruct (p c); [exact IH|constructor; assumption].
Qed.

Lemma trim_Forall (P : N -> Prop) (s : jsstring) :
  Forall P s -> Forall P (JS.trim s).
Proof.
  intros H. unfold JS.trim, JS.trimEnd, JS.trimStart.
  apply Forall_rev, dropWhile_Forall, Forall_rev, dropWhile_Forall, H.
Qed.

(** A split never leaves a code unit in a token at which a separator
    starts. *)
Lemma splitGo_Forall (p : N -> bool) (matchAt : jsstring -> option nat) :
  (forall c s, p c = true -> exists n, matchAt (c :: s) = Some (S n)) ->
  forall s cur skip,
    Forall (fun x => p x = false) cur ->
    Forall (Forall (fun x => p x = false)) (JS.splitGo matchAt s cur skip).
Proof.
  intros Hsep. induction s as [|c s IH]; intros cur skip Hcur; simpl.
  - constructor; [apply Forall_rev, Hcur|constructor].
  - destruct skip as [|k]; [|apply IH, Hcur].
    destruct (p c) eqn:Hc.
    + destruct (Hsep c s Hc) as [n ->].
      constructor; [apply Forall_rev, Hcur|apply IH; constructor].
    + destruct (matchAt (c :: s)) as [[|len]|].
      * apply IH. constructor; assumption.
      * constructor; [apply Forall_rev, Hcur|apply IH; constructor].
      * apply IH. constructor; assumption.
Qed.

Lemma primaryParts_no_separator (input : jsstring) :
  Forall (Forall (fun x => isCommaOrHyphen x = false)) (primaryParts input).
Proof.
  unfold primaryParts. apply Forall_forall. intros t Ht.
  apply filter_In in Ht as [Ht _]. apply in_map_iff in Ht as [t0 [<- Ht0]].
  apply trim_Forall. revert t0 Ht0. apply Forall_forall.
  apply (splitGo_Forall isCommaOrHyphen); [|constructor].
  intros c s Hc. unfold primarySeparator. rewrite Hc. simpl. rewrite Hc.
  eauto.
Qed.

Lemma parseProgression_cases (input : jsstring) :
  parseProgression input = filter isChord (primaryParts input)
  \/ (List.length (primaryParts input) = 1%nat
      /\ parseProgression input = spaceParts input
      /\ forallb isChord (spaceParts input) = true).
Proof.
  unfold parseProgression. destruct input as [|c s]; [left; reflexivity|].
  destruct (List.length (primaryParts (c :: s)) =? 1)%nat eqn:Hlen;
    simpl; [|left; reflexivity].
  destruct (1 <? List.length (spaceParts (c :: s)))%nat; simpl;
    [|left; reflexivity].
  destruct (forallb isChord (spaceParts (c :: s))) eqn:Hall;
    [|left; reflexivity].
  right. apply Nat.eqb_eq in Hlen. auto.
Qed.

Example parseProgression_spaces :
  parseProgression (JS.lit "Am C G") = map JS.lit ["Am"; "C"; "G"]%string.
Proof. reflexivity. Qed.

Example parseProgression_double_space :
  parseProgression (JS.lit "Am  F#m7,xx") = map JS.lit ["Am"; "F#m7"]%string.
Proof. reflexivity. Qed.

(* ------------------------------------------------------------------ *)
(** ** Notes on the fretboard *)

Lemma lookup_In {A} (tbl : list (jsstring * A)) (k : jsstring) (v : A) :
  lookup tbl k = Some v -> In v (map snd tbl).
Proof.
  induction tbl as [|[k' v'] tbl IH]; simpl; [discriminate|].
  destruct (JS.eqb k' k); [intros [= ->]; auto|auto].
Qed.

(** [getNoteIndex] is a pitch class, or [-1] for a name the table lacks
    (such as E sharp or C flat). *)
Lemma getNoteIndex_range (noteName : jsstring) :
  -1 <= getNoteIndex noteName <= 11.
Proof.
  unfold getNoteIndex.
  destruct (lookup noteMap noteName) as [i|] eqn:H; [|lia].
  apply lookup_In in H. simpl in H.
  repeat (destruct H as [<-|H]; [lia|]). destruct H.
Qed.

Lemma getNoteIndex_enum (noteName : jsstring) :
  In (getNoteIndex noteName) rootIndices.
Proof.
  pose proof (getNoteIndex_range noteName) as H. unfold rootIndices.
  assert (Hc : getNoteIndex noteName = -1 \/ getNoteIndex noteName = 0
               \/ getNoteIndex noteName = 1 \/ getNoteIndex noteName = 2
               \/ getNoteIndex noteName = 3 \/ getNoteIndex noteName = 4
               \/ getNoteIndex noteName = 5 \/ getNoteIndex noteName = 6
               \/ getNoteIndex noteName = 7 \/ getNoteIndex noteName = 8
               \/ getNoteIndex noteName = 9 \/ getNoteIndex noteName = 10
               \/ getNoteIndex noteName = 11) by lia.
  simpl. intuition auto.
Qed.

Lemma noteIndexAt_spelled (useFlats : bool) (stringNum fretNum : Z) :
  noteIndexAt useFlats stringNum fretNum
  = match OPEN_STRING_NOTES stringNum with
    | Some o => spelledIndex useFlats (jsrem (o + fretNum) 12)
    | None => -1
    end.
Proof.
  unfold noteIndexAt, getNoteAtPosition, spelledIndex.
  destruct (OPEN_STRING_NOTES stringNum) as [o|]; [|reflexivity].
  destruct (jsrem (o + fretNum) 12 <? 0); [reflexivity|].
  destruct (nth_error NOTE_NAMES (Z.to_nat (jsrem (o + fretNum) 12)))
    as [n|]; [|reflexivity].
  destruct (useFlats && JS.includes 35 n)%bool; [|reflexivity].
  destruct (lookup flatMap n); reflexivity.
Qed.

(** Spelling a pitch class and reading the name back gives the pitch class,
    with sharps and with flats. *)
Lemma spelledIndex_pitch (useFlats : bool) (i : Z) :
  0 <= i < 12 -> spelledIndex useFlats i = i.
Proof.
  intros H.
  assert (Hc : i = 0 \/ i = 1 \/ i = 2 \/ i = 3 \/ i = 4 \/ i = 5 \/ i = 6
               \/ i = 7 \/ i = 8 \/ i = 9 \/ i = 10 \/ i = 11) by lia.
  destruct useFlats;
    repeat (destruct Hc as [->|Hc]; [reflexivity|]); subst i; reflexivity.
Qed.

Lemma spelledIndex_outside (useFlats : bool) (i : Z) :
  ~ 0 <= i < 12 -> spelledIndex useFlats i = -1.
Proof.
  intros H. unfold spelledIndex. destruct (i <? 0) eqn:Hneg; [reflexivity|].
  apply Z.ltb_ge in Hneg.
  destruct (nth_error NOTE_NAMES (Z.to_nat i)) as [n|] eqn:Hn; [|reflexivity].
  assert (Hlt : (Z.to_nat i < List.length NOTE_NAMES)%nat)
    by (apply nth_error_Some; rewrite Hn; discriminate).
  simpl in Hlt. lia.
Qed.

(** The sharp/flat display mode does not change the note index read at a
    position. *)
Lemma noteIndexAt_notation (stringNum fretNum : Z) :
  noteIndexAt true stringNum fretNum = noteIndexAt false stringNum fretNum.
Proof.
  rewrite !noteIndexAt_spelled.
  destruct (OPEN_STRING_NOTES stringNum) as [o|]; [|reflexivity].
  set (i := jsrem (o + fretNum) 12).
  assert (Hd : 0 <= i < 12 \/ ~ 0 <= i < 12) by lia.
  destruct Hd as [Hd|Hd].
  - rewrite !spelledIndex_pitch by exact Hd. reflexivity.
  - rewrite !spelledIndex_outside by exact Hd. reflexivity.
Qed.

Lemma OPEN_STRING_NOTES_range (stringNum o : Z) :
  OPEN_STRING_NOTES stringNum = Some o ->
  1 <= stringNum <= 6 /\ 0 <= o < 12.
Proof.
  unfold OPEN_STRING_NOTES. intros H.
  repeat match type of H with
         | context [match ?x with _ => _ end] => destruct x
         end;
    first [discriminate H | injection H as <-; lia].
Qed.

Lemma OPEN_STRING_NOTES_defined (stringNum : Z) :
  1 <= stringNum <= 6 -> exists o, OPEN_STRING_NOTES stringNum = Some o.
Proof.
  intros H.
  assert (Hc : stringNum = 1 \/ stringNum = 2 \/ stringNum = 3
               \/ stringNum = 4 \/ stringNum = 5 \/ stringNum = 6) by lia.
  repeat (destruct Hc as [->|Hc]; [simpl; eauto|]). subst. simpl. eauto.
Qed.

(** On a string 1..6 and a fret from 0 up [getNoteAtPosition] returns a
    note name: the cases in which the source meets [undefined] lie outside
    the arguments the resolver and the generator pass. *)
Lemma getNoteAtPosition_defined (useFlats : bool) (stringNum fretNum : Z) :
  1 <= stringNum <= 6 -> 0 <= fretNum ->
  exists noteName,
    getNoteAtPosition useFlats stringNum fretNum = Some noteName.
Proof.
  intros Hs Hf. destruct (OPEN_STRING_NOTES_defined _ Hs) as [o Ho].
  destruct (OPEN_STRING_NOTES_range _ _ Ho) as [_ Hr].
  unfold getNoteAtPosition. rewrite Ho. unfold jsrem.
  rewrite Z.rem_mod_nonneg by lia.
  pose proof (Z.mod_pos_bound (o + fretNum) 12 ltac:(lia)) as Hb.
  destruct ((o + fretNum) mod 12 <? 0) eqn:Hneg;
    [apply Z.ltb_lt in Hneg; lia|].
  destruct (nth_error NOTE_NAMES (Z.to_nat ((o + fretNum) mod 12)))
    as [n|] eqn:Hn.
  - destruct (useFlats && JS.includes 35 n)%bool; [|eauto].
    destruct (lookup flatMap n); eauto.
  - apply nth_error_None in Hn. simpl in Hn. lia.
Qed.

(** On a string 1..6 and a fret from 0 up, the note index read at the
    position is the open string's pitch class plus the fret, modulo 12. *)
Lemma noteIndexAt_pitch (useFlats : bool) (stringNum fretNum o : Z) :
  OPEN_STRING_NOTES stringNum = Some o -> 0 <= fretNum ->
  noteIndexAt useFlats stringNum fretNum = (o + fretNum) mod 12.
Proof.
  intros Ho Hf. rewrite noteIndexAt_spelled, Ho.
  destruct (OPEN_STRING_NOTES_range _ _ Ho) as [_ Hr].
  unfold jsrem. rewrite Z.rem_mod_nonneg by lia.
  apply spelledIndex_pitch. apply Z.mod_pos_bound. lia.
Qed.

(* ------------------------------------------------------------------ *)
(** ** The voicing generator *)

Lemma CAGED_SHAPES_entry (entry : Family * (Quality -> option CagedShape))
      (q : Quality) (shape : CagedShape) :
  In entry CAGED_SHAPES -> snd entry q = Some shape ->
  List.length (strings shape) = 6%nat
  /\ name shape = familyName (fst entry)
  /\ supportedQuality q = true.
Proof.
  intros Hin Hq. simpl in Hin.
  repeat (destruct Hin as [<-|Hin];
          [destruct q; simpl in Hq; try discriminate Hq;
           injection Hq as <-; repeat split; reflexivity|]).
  destruct Hin.
Qed.

Lemma CAGED_SHAPES_key (e1 e2 : Family * (Quality -> option CagedShape)) :
  In e1 CAGED_SHAPES -> In e2 CAGED_SHAPES ->
  familyName (fst e1) = familyName (fst e2) -> e1 = e2.
Proof.
  intros H1 H2. simpl in H1, H2.
  repeat (destruct H1 as [<-|H1]);
    repeat (destruct H2 as [<-|H2]);
    try contradiction; intros Hn; try reflexivity; discriminate Hn.
Qed.

Section GeneratorFacts.

Variable useFlats : bool.
Variable rootIndex : Z.
Variable maxFret : Z.
Variable transpose : Z.

Lemma visit_valid (st : Scan) (f index : Z) :
  sc_validVoicing (visit useFlats rootIndex maxFret transpose st f index)
  = true ->
  sc_validVoicing st = true /\ withinLimit maxFret transpose f /\
  sc_positions (visit useFlats rootIndex maxFret transpose st f index)
  = (sc_positions st ++ sounded useFlats rootIndex transpose [f] index)%list.
Proof.
  unfold visit, withinLimit. simpl.
  destruct (f >=? 0) eqn:Hf.
  - destruct (f + transpose >? maxFret) eqn:Hm; simpl; [discriminate|].
    assert (f + transpose <= maxFret) by lia.
    destruct (f + transpose >? 0); simpl; auto.
  - intros H. rewrite app_nil_r. repeat split; auto. left. lia.
Qed.

Lemma visit_within (st : Scan) (f index : Z) :
  withinLimit maxFret transpose f ->
  sc_validVoicing (visit useFlats rootIndex maxFret transpose st f index)
  = sc_validVoicing st.
Proof.
  unfold visit, withinLimit. intros H.
  destruct (f >=? 0) eqn:Hf; [|reflexivity].
  destruct (f + transpose >? maxFret) eqn:Hm; [lia|].
  destruct (f + transpose >? 0); reflexivity.
Qed.

(** A scan that ends valid started valid, met no fret beyond the limit, and
    pushed exactly the sounded strings. *)
Lemma scan_valid (frets : list Z) :
  forall (index : Z) (st : Scan),
    sc_validVoicing
      (forEachIdx (visit useFlats rootIndex maxFret transpose) frets index st)
    = true ->
    sc_validVoicing st = true
    /\ Forall (withinLimit maxFret transpose) frets /\
    sc_positions
      (forEachIdx (visit useFlats rootIndex maxFret transpose) frets index st)
    = (sc_positions st
       ++ sounded useFlats rootIndex transpose frets index)%list.
Proof.
  induction frets as [|f frets IH]; intros index st H; simpl in *.
  - rewrite app_nil_r. auto.
  - destruct (IH _ _ H) as (Hv & Hall & Hpos).
    destruct (visit_valid _ _ _ Hv) as (Hv0 & Hf & Hpos0).
    repeat split; [exact Hv0|constructor; assumption|].
    rewrite Hpos, Hpos0, <- app_assoc. f_equal.
    simpl. destruct (f >=? 0); reflexivity.
Qed.

(** Conversely, a scan in which every fret is within the limit keeps the
    flag it started with. *)
Lemma scan_within (frets : list Z) :
  forall (index : Z) (st : Scan),
    Forall (withinLimit maxFret transpose) frets ->
    sc_validVoicing
      (forEachIdx (visit useFlats rootIndex maxFret transpose) frets index st)
    = sc_validVoicing st.
Proof.
  induction frets as [|f frets IH]; intros index st H; simpl; [reflexivity|].
  inversion H; subst. rewrite IH by assumption. apply visit_within.
  assumption.
Qed.

Lemma sounded_length (frets : list Z) (index : Z) :
  (List.length (sounded useFlats rootIndex transpose frets index)
   <= List.length frets)%nat.
Proof.
  revert index. induction frets as [|f frets IH]; intros index; simpl;
    [lia|].
  specialize (IH (index + 1)). destruct (f >=? 0); simpl; lia.
Qed.

(** What each pushed position holds. *)
Lemma sounded_positions (frets : list Z) (index : Z) :
  Forall (fun p =>
            index <= 6 - stringNum p < index + Z.of_nat (List.length frets)
            /\ (exists f, In f frets /\ 0 <= f /\ fret p = f + transpose)
            /\ isRoot p
               = (noteIndexAt useFlats (stringNum p) (fret p) =? rootIndex))
         (sounded useFlats rootIndex transpose frets index).
Proof.
  revert index. induction frets as [|f frets IH]; intros index;
    [constructor|].
  assert (Htail : Forall (fun p =>
            index <= 6 - stringNum p
                  < index + Z.of_nat (List.length (f :: frets))
            /\ (exists f', In f' (f :: frets) /\ 0 <= f'
                           /\ fret p = f' + transpose)
            /\ isRoot p
               = (noteIndexAt useFlats (stringNum p) (fret p) =? rootIndex))
          (sounded useFlats rootIndex transpose frets (index + 1))).
  { eapply Forall_impl; [|apply IH]. cbv beta.
    intros p (Hs & (f' & Hin & Hf') & Hr).
    cbn [List.length]. rewrite Nat2Z.inj_succ.
    split; [lia|]. split; [exists f'; split; [right; exact Hin|exact Hf']|].
    exact Hr. }
  cbn [sounded]. destruct (f >=? 0) eqn:Hf; [|exact Htail].
  constructor; [|exact Htail].
  cbn [List.length stringNum fret isRoot]. rewrite Nat2Z.inj_succ.
  split; [lia|]. split; [|reflexivity].
  exists f. split; [left; reflexivity|]. split; [lia|reflexivity].
Qed.

(** The positions run down the strings. *)
Lemma sounded_descending (frets : list Z) (index : Z) :
  StronglySorted (fun p q => stringNum q < stringNum p)
                 (sounded useFlats rootIndex transpose frets index).
Proof.
  revert index. induction frets as [|f frets IH]; intros index;
    cbn [sounded]; [constructor|].
  destruct (f >=? 0); [|apply IH].
  constructor; [apply IH|].
  eapply Forall_impl; [|apply (sounded_positions frets (index + 1))].
  cbv beta. cbn [stringNum]. intros p (Hs & _). lia.
Qed.

End GeneratorFacts.

Lemma baseNoteIndexOf_values (shapeKey : Family) :
  baseNoteIndexOf shapeKey
  = match shapeKey with E => 4 | A => 9 | D => 2 | C => 0 | G => 7 end.
Proof. destruct shapeKey; reflexivity. Qed.

Lemma transposeTo_range (rootIndex : Z) (shapeKey : Family) :
  -1 <= rootIndex <= 11 -> 0 <= transposeTo rootIndex shapeKey < 12.
Proof.
  intros H. unfold transposeTo, jsrem. rewrite baseNoteIndexOf_values.
  apply Z.rem_bound_pos; destruct shapeKey; lia.
Qed.

Lemma voicingOfShape_some (useFlats : bool) (rootIndex maxFret : Z)
      (chord : jsstring) (shapeKey : Family) (shape : CagedShape)
      (v : Voicing) :
  voicingOfShape useFlats rootIndex maxFret chord shapeKey shape = Some v ->
  positions v
  = sounded useFlats rootIndex (transposeTo rootIndex shapeKey)
            (strings shape) 0
  /\ Forall (withinLimit maxFret (transposeTo rootIndex shapeKey))
            (strings shape)
  /\ (3 <= List.length (positions v))%nat
  /\ shapeName v = name shape
  /\ chordName v = chord
  /\ avgFret v = (inject_Z (sumFrets (positions v))
                  / inject_Z (Z.of_nat (List.length (positions v))))%Q.
Proof.
  unfold voicingOfShape. fold (transposeTo rootIndex shapeKey).
  set (st := forEachIdx _ _ _ _).
  destruct (sc_validVoicing st) eqn:Hv; [|discriminate].
  destruct (3 <=? Z.of_nat (List.length (sc_positions st))) eqn:Hlen;
    [|discriminate].
  simpl. intros [= <-]. cbn [positions shapeName chordName avgFret].
  destruct (scan_valid _ _ _ _ _ _ _ Hv) as (_ & Hall & Hpos).
  fold st in Hpos. cbn [sc_positions app] in Hpos.
  repeat split; try assumption. lia.
Qed.

(** A shape with a fret beyond the limit gives no voicing. *)
Lemma voicingOfShape_beyond (useFlats : bool) (rootIndex maxFret : Z)
      (chord : jsstring) (shapeKey : Family) (shape : CagedShape) :
  Exists (fun f => 0 <= f /\ maxFret < f + transposeTo rootIndex shapeKey)
         (strings shape) ->
  voicingOfShape useFlats rootIndex maxFret chord shapeKey shape = None.
Proof.
  intros Hex.
  destruct (voicingOfShape useFlats rootIndex maxFret chord shapeKey shape)
    as [v|] eqn:Hv; [|reflexivity].
  apply voicingOfShape_some in Hv as (_ & Hall & _).
  apply Exists_exists in Hex as (f & Hin & Hf0 & Hf).
  rewrite Forall_forall in Hall. specialize (Hall f Hin).
  unfold withinLimit in Hall. lia.
Qed.

Lemma fold_left_pushStep (useFlats : bool) (rootIndex maxFret : Z)
      (chord : jsstring) (q : Quality)
      (entries : list (Family * (Quality -> option CagedShape))) :
  forall acc,
    fold_left (pushStep useFlats rootIndex maxFret chord q) entries acc
    = (acc ++ flat_map (voicingsOfEntry useFlats rootIndex maxFret chord q)
                       entries)%list.
Proof.
  induction entries as [|e entries IH]; intros acc; simpl.
  - rewrite app_nil_r. reflexivity.
  - rewrite IH. unfold pushStep, voicingsOfEntry.
    destruct (snd e q) as [shape|]; [|reflexivity].
    destruct (voicingOfShape _ _ _ _ _ _); [|reflexivity].
    rewrite <- app_assoc. reflexivity.
Qed.

Lemma pushVoicings_flat_map (useFlats : bool) (rootIndex maxFret : Z)
      (chord : jsstring) (q : Quality) :
  pushVoicings useFlats rootIndex maxFret chord q
  = flat_map (voicingsOfEntry useFlats rootIndex maxFret chord q)
             CAGED_SHAPES.
Proof. unfold pushVoicings. apply fold_left_pushStep. Qed.

Lemma insertByAvg_In (x v : Voicing) (l : list Voicing) :
  In x (insertByAvg v l) <-> x = v \/ In x l.
Proof.
  induction l as [|w l IH]; simpl.
  - intuition auto.
  - destruct (Qle_bool (avgFret v - avgFret w) 0); simpl;
      rewrite ?IH; intuition auto.
Qed.

Lemma sortByAvg_In (x : Voicing) (l : list Voicing) :
  In x (sortByAvg l) <-> In x l.
Proof.
  induction l as [|v l IH]; simpl; [tauto|].
  rewrite insertByAvg_In, IH. intuition auto.
Qed.

(** Where a returned voicing comes from. *)
Lemma generateAllVoicings_inv (useFlats : bool) (chord : jsstring)
      (maxFret : Z) (v : Voicing) :
  In v (generateAllVoicings useFlats chord maxFret) ->
  exists parsed entry shape,
    parseChordName chord = Some parsed
    /\ In entry CAGED_SHAPES
    /\ snd entry (shapeQualityOf (quality parsed)) = Some shape
    /\ voicingOfShape useFlats (getNoteIndex (root parsed)) maxFret chord
                      (fst entry) shape = Some v.
Proof.
  unfold generateAllVoicings.
  destruct (parseChordName chord) as [parsed|]; [|intros []].
  rewrite sortByAvg_In, pushVoicings_flat_map, in_flat_map.
  intros (entry & Hin & Hv). unfold voicingsOfEntry in Hv.
  destruct (snd entry (shapeQualityOf (quality parsed))) as [shape|] eqn:Hq;
    [|destruct Hv].
  destruct (voicingOfShape _ _ _ _ _ _) as [w|] eqn:Hw; [|destruct Hv].
  destruct Hv as [<-|[]]. exists parsed, entry, shape. auto.
Qed.

(** C6: a returned voicing has at least three positions, each on a string
    1..6 at a fret between 0 and [maxFret], and it does not come from a
    shape of which a transposed fret would pass [maxFret]. *)
Theorem generateAllVoicings_bounds (useFlats : bool) (chord : jsstring)
        (maxFret : Z) (v : Voicing) :
  In v (generateAllVoicings useFlats chord maxFret) ->
  (3 <= List.length (positions v))%nat
  /\ Forall (fun p => 0 <= fret p <= maxFret /\ 1 <= stringNum p <= 6)
            (positions v)
  /\ forall parsed entry shape,
       parseChordName chord = Some parsed ->
       In entry CAGED_SHAPES ->
       snd entry (shapeQualityOf (quality parsed)) = Some shape ->
       Exists (fun f => 0 <= f /\
                 maxFret < f + transposeTo (getNoteIndex (root parsed))
                                           (fst entry))
              (strings shape) ->
       shapeName v <> name shape.
Proof.
  intros Hin.
  destruct (generateAllVoicings_inv _ _ _ _ Hin)
    as (parsed & entry & shape & Hp & He & Hq & Hv).
  pose proof (voicingOfShape_some _ _ _ _ _ _ _ Hv)
    as (Hpos & Hall & Hlen & Hname & _).
  destruct (CAGED_SHAPES_entry _ _ _ He Hq) as (Hsix & Hfam & _).
  pose proof (transposeTo_range _ (fst entry)
                (getNoteIndex_range (root parsed))) as Ht.
  split; [exact Hlen|]. split.
  - rewrite Hpos. eapply Forall_impl; [|apply sounded_positions].
    cbv beta. rewrite Hsix. intros p (Hs & (f & Hf & Hf0 & ->) & _).
    rewrite Forall_forall in Hall. specialize (Hall f Hf).
    unfold withinLimit in Hall. change (Z.of_nat 6) with 6 in Hs.
    cbn [fret stringNum]. lia.
  - intros parsed' entry' shape' Hp' He' Hq' Hex Heq.
    rewrite Hp in Hp'. injection Hp' as <-.
    destruct (CAGED_SHAPES_entry _ _ _ He' Hq') as (_ & Hfam' & _).
    assert (entry' = entry).
    { apply CAGED_SHAPES_key; try assumption. congruence. }
    subst entry'. rewrite Hq in Hq'. injection Hq' as <-.
    rewrite (voicingOfShape_beyond useFlats _ _ chord _ shape Hex) in Hv.
    discriminate Hv.
Qed.

Lemma generateAllVoicings_bounds_witness :
  exists v,
    hd_error (generateAllVoicings false (JS.lit "Am") 3) = Some v
    /\ (3 <= List.length (positions v))%nat
    /\ Forall (fun p => 0 <= fret p <= 3 /\ 1 <= stringNum p <= 6)
              (positions v)
    /\ forall parsed entry shape,
         parseChordName (JS.lit "Am") = Some parsed ->
         In entry CAGED_SHAPES ->
         snd entry (shapeQualityOf (quality parsed)) = Some shape ->
         Exists (fun f => 0 <= f /\
                   3 < f + transposeTo (getNoteIndex (root parsed))
                                       (fst entry))
                (strings shape) ->
         shapeName v <> name shape.
Proof.
  eexists. split; [vm_compute; reflexivity|].
  apply (generateAllVoicings_bounds false (JS.lit "Am") 3).
  vm_compute. left. reflexivity.
Defined.

Lemma forEachIdx_ext {X S} (f g : S -> X -> Z -> S) (l : list X) :
  (forall st x i, f st x i = g st x i) ->
  forall i st, forEachIdx f l i st = forEachIdx g l i st.
Proof.
  intros Hfg. induction l as [|x l IH]; intros i st; simpl; [reflexivity|].
  rewrite Hfg. apply IH.
Qed.

Lemma fold_left_ext {X Y} (f g : Y -> X -> Y) (l : list X) :
  (forall a x, f a x = g a x) ->
  forall a, fold_left f l a = fold_left g l a.
Proof.
  intros Hfg. induction l as [|x l IH]; intros a; simpl; [reflexivity|].
  rewrite Hfg. apply IH.
Qed.

(** The generator returns the same voicings in both display modes. *)
Lemma generateAllVoicings_notation (chord : jsstring) (maxFret : Z) :
  generateAllVoicings true chord maxFret
  = generateAllVoicings false chord maxFret.
Proof.
  unfold generateAllVoicings.
  destruct (parseChordName chord) as [parsed|]; [|reflexivity].
  f_equal. unfold pushVoicings. apply fold_left_ext. intros acc entry.
  unfold pushStep. destruct (snd entry _) as [shape|]; [|reflexivity].
  unfold voicingOfShape.
  rewrite (forEachIdx_ext
             (visit true (getNoteIndex (root parsed)) maxFret
                (jsrem (getNoteIndex (root parsed)
                        - baseNoteIndexOf (fst entry) + 12) 12))
             (visit false (getNoteIndex (root parsed)) maxFret
                (jsrem (getNoteIndex (root parsed)
                        - baseNoteIndexOf (fst entry) + 12) 12)));
    [reflexivity|].
  intros st f i. unfold visit. rewrite noteIndexAt_notation. reflexivity.
Qed.

(** In a returned voicing the flag [isRoot] of a position is true exactly
    when the open string's pitch class plus the fret, modulo 12, is what
    [getNoteIndex] gives for the parsed root; the display mode plays no
    part. *)
Lemma isRoot_index (useFlats : bool) (chord : jsstring) (maxFret : Z)
      (parsed : ChordSymbol) (v : Voicing) (p : Position) :
  parseChordName chord = Some parsed ->
  In v (generateAllVoicings useFlats chord maxFret) ->
  In p (positions v) ->
  (exists o,
      OPEN_STRING_NOTES (stringNum p) = Some o
      /\ (isRoot p = true <->
          (o + fret p) mod 12 = getNoteIndex (root parsed)))
  /\ generateAllVoicings true chord maxFret
     = generateAllVoicings false chord maxFret.
Proof.
  intros Hp Hv Hin. split; [|apply generateAllVoicings_notation].
  destruct (generateAllVoicings_inv _ _ _ _ Hv)
    as (parsed' & entry & shape & Hp' & He & Hq & Hvs).
  rewrite Hp in Hp'. injection Hp' as <-.
  pose proof (voicingOfShape_some _ _ _ _ _ _ _ Hvs) as (Hpos & _).
  destruct (CAGED_SHAPES_entry _ _ _ He Hq) as (Hsix & _).
  pose proof (transposeTo_range _ (fst entry)
                (getNoteIndex_range (root parsed))) as Ht.
  rewrite Hpos in Hin.
  pose proof (sounded_positions useFlats (getNoteIndex (root parsed))
                (transposeTo (getNoteIndex (root parsed)) (fst entry))
                (strings shape) 0) as Hall.
  rewrite Forall_forall in Hall.
  destruct (Hall p Hin) as (Hs & (f & _ & Hf0 & Hf) & Hr).
  rewrite Hsix in Hs. change (Z.of_nat 6) with 6 in Hs.
  destruct (OPEN_STRING_NOTES_defined (stringNum p)) as [o Ho]; [lia|].
  exists o. split; [exact Ho|].
  rewrite Hr, (noteIndexAt_pitch useFlats _ _ o Ho) by lia.
  apply Z.eqb_eq.
Qed.

Lemma descending_NoDup (ps : list Position) :
  StronglySorted (fun p q => stringNum q < stringNum p) ps ->
  NoDup (map stringNum ps).
Proof.
  induction 1 as [|p ps Hs IH Hall]; simpl; constructor; [|exact IH].
  intros Hin. apply in_map_iff in Hin as (q & Heq & Hq).
  rewrite Forall_forall in Hall. specialize (Hall q Hq). lia.
Qed.

(** C10: the positions of a returned voicing are listed by strictly
    decreasing string number, so no string occurs twice and there are at
    most six of them. *)
Theorem positions_descending (useFlats : bool) (chord : jsstring)
        (maxFret : Z) (v : Voicing) :
  In v (generateAllVoicings useFlats chord maxFret) ->
  StronglySorted (fun p q => stringNum q < stringNum p) (positions v)
  /\ NoDup (map stringNum (positions v))
  /\ (List.length (positions v) <= 6)%nat.
Proof.
  intros Hv.
  destruct (generateAllVoicings_inv _ _ _ _ Hv)
    as (parsed & entry & shape & Hp & He & Hq & Hvs).
  pose proof (voicingOfShape_some _ _ _ _ _ _ _ Hvs) as (Hpos & _).
  destruct (CAGED_SHAPES_entry _ _ _ He Hq) as (Hsix & _).
  assert (Hd : StronglySorted (fun p q => stringNum q < stringNum p)
                              (positions v)).
  { rewrite Hpos. apply sounded_descending. }
  split; [exact Hd|]. split; [apply descending_NoDup, Hd|].
  rewrite Hpos, <- Hsix. apply sounded_length.
Qed.

Lemma positions_descending_witness :
  exists v,
    hd_error (generateAllVoicings false (JS.lit "G7") 15) = Some v
    /\ StronglySorted (fun p q => stringNum q < stringNum p) (positions v)
    /\ NoDup (map stringNum (positions v))
    /\ (List.length (positions v) <= 6)%nat.
Proof.
  eexists. split; [vm_compute; reflexivity|].
  apply (positions_descending false (JS.lit "G7") 15).
  vm_compute. left. reflexivity.
Defined.

(* ------------------------------------------------------------------ *)
(** ** The order of the returned voicings *)

Lemma StronglySorted_impl {X} (R R' : X -> X -> Prop) (l : list X) :
  (forall a b, R a b -> R' a b) -> StronglySorted R l -> StronglySorted R' l.
Proof.
  intros HR. induction 1 as [|a l Hs IH Hall]; constructor; [exact IH|].
  eapply Forall_impl; [|exact Hall]. apply HR.
Qed.

Lemma insertByAvg_strict (v : Voicing) (l : list Voicing) :
  StronglySorted ltAvg l ->
  Forall (fun w => ~ (avgFret v == avgFret w)%Q) l ->
  StronglySorted ltAvg (insertByAvg v l).
Proof.
  induction 1 as [|w l Hs IH Hall]; intros Hne; simpl.
  - repeat constructor.
  - inversion Hne as [|? ? Hvw Hne']; subst.
    destruct (Qle_bool (avgFret v - avgFret w) 0) eqn:Hcmp.
    + apply Qle_bool_iff in Hcmp.
      assert (Hlt : ltAvg v w) by (unfold ltAvg; lra).
      constructor; [constructor; assumption|].
      constructor; [exact Hlt|].
      eapply Forall_impl; [|exact Hall]. unfold ltAvg in *. intros x Hx. lra.
    + assert (Hlt : ltAvg w v).
      { unfold ltAvg. destruct (Qlt_le_dec (avgFret w) (avgFret v)) as [H|H];
          [exact H|].
        assert (Hle : (avgFret v - avgFret w <= 0)%Q) by lra.
        apply Qle_bool_iff in Hle. congruence. }
      constructor; [apply IH, Hne'|].
      apply Forall_forall. intros x Hx. rewrite insertByAvg_In in Hx.
      destruct Hx as [->|Hx]; [exact Hlt|].
      rewrite Forall_forall in Hall. apply Hall, Hx.
Qed.

(** Sorting a list without two equal averages gives a strictly increasing
    list. *)
Lemma sortByAvg_strict (l : list Voicing) :
  ForallOrdPairs (fun a b => ~ (avgFret a == avgFret b)%Q) l ->
  StronglySorted ltAvg (sortByAvg l).
Proof.
  induction 1 as [|v l Hv Hl IH]; simpl; [constructor|].
  apply insertByAvg_strict; [exact IH|].
  apply Forall_forall. intros w Hw. rewrite sortByAvg_In in Hw.
  rewrite Forall_forall in Hv. apply Hv, Hw.
Qed.

(** The sort gives a non-decreasing list, whatever it is given. *)
Lemma insertByAvg_sorted (v : Voicing) (l : list Voicing) :
  StronglySorted (fun a b => (avgFret a <= avgFret b)%Q) l ->
  StronglySorted (fun a b => (avgFret a <= avgFret b)%Q) (insertByAvg v l).
Proof.
  induction 1 as [|w l Hs IH Hall]; simpl.
  - repeat constructor.
  - destruct (Qle_bool (avgFret v - avgFret w) 0) eqn:Hcmp.
    + apply Qle_bool_iff in Hcmp.
      constructor; [constructor; assumption|].
      constructor; [lra|].
      eapply Forall_impl; [|exact Hall]. cbv beta. intros x Hx. lra.
    + assert (Hlt : (avgFret w <= avgFret v)%Q).
      { destruct (Qlt_le_dec (avgFret w) (avgFret v)) as [H|H]; [lra|].
        assert (Hle : (avgFret v - avgFret w <= 0)%Q) by lra.
        apply Qle_bool_iff in Hle. congruence. }
      constructor; [exact IH|].
      apply Forall_forall. intros x Hx. rewrite insertByAvg_In in Hx.
      destruct Hx as [->|Hx]; [exact Hlt|].
      rewrite Forall_forall in Hall. apply Hall, Hx.
Qed.

Lemma sortByAvg_sorted (l : list Voicing) :
  StronglySorted (fun a b => (avgFret a <= avgFret b)%Q) (sortByAvg l).
Proof.
  induction l as [|v l IH]; simpl; [constructor|].
  apply insertByAvg_sorted, IH.
Qed.

(** For every root index and every shape quality the five families have
    five different average frets. *)
Lemma distinctAvgs_all :
  forallb (fun r => forallb (distinctAvgs r) supportedQualities) rootIndices
  = true.
Proof. vm_compute. reflexivity. Qed.

Lemma voicingsOfEntry_avg (r maxFret : Z) (chord : jsstring) (q : Quality)
      (entry : Family * (Quality -> option CagedShape)) (v : Voicing) :
  In v (voicingsOfEntry false r maxFret chord q entry) ->
  voicingsOfEntry false r maxFret chord q entry = [v]
  /\ entryAvg r q entry = [avgFret v].
Proof.
  unfold voicingsOfEntry, entryAvg.
  destruct (snd entry q) as [shape|]; [|intros []].
  destruct (voicingOfShape false r maxFret chord (fst entry) shape)
    as [w|] eqn:Hw; [|intros []].
  intros [<-|[]]. split; [reflexivity|].
  apply voicingOfShape_some in Hw as (Hpos & _ & _ & _ & _ & Havg).
  rewrite Havg, Hpos. reflexivity.
Qed.

Lemma pairwiseb_app_r {X} (ne : X -> X -> bool) (l1 l2 : list X) :
  pairwiseb ne (l1 ++ l2) = true -> pairwiseb ne l2 = true.
Proof.
  induction l1 as [|a l1 IH]; simpl; [auto|].
  intros H. apply andb_true_iff in H as [_ H]. auto.
Qed.

Lemma flat_map_distinct (r maxFret : Z) (chord : jsstring) (q : Quality)
      (entries : list (Family * (Quality -> option CagedShape))) :
  pairwiseb (fun a b => negb (Qeq_bool a b)) (flat_map (entryAvg r q) entries)
  = true ->
  ForallOrdPairs (fun a b => ~ (avgFret a == avgFret b)%Q)
                 (flat_map (voicingsOfEntry false r maxFret chord q) entries).
Proof.
  induction entries as [|e entries IH]; simpl; [constructor|].
  intros Hpw. specialize (IH (pairwiseb_app_r _ _ _ Hpw)).
  destruct (voicingsOfEntry false r maxFret chord q e) as [|v vs] eqn:Hve;
    [exact IH|].
  assert (Hin : In v (voicingsOfEntry false r maxFret chord q e))
    by (rewrite Hve; left; reflexivity).
  destruct (voicingsOfEntry_avg _ _ _ _ _ _ Hin) as [Hone Havg].
  rewrite Hve in Hone. injection Hone as ->.
  rewrite Havg in Hpw. simpl in Hpw |- *.
  apply andb_true_iff in Hpw as [Hall _].
  constructor; [|exact IH].
  apply Forall_forall. intros w Hw. apply in_flat_map in Hw as (e' & He' & Hw).
  destruct (voicingsOfEntry_avg _ _ _ _ _ _ Hw) as [_ Havg'].
  rewrite forallb_forall in Hall.
  assert (Hk : In (avgFret w) (flat_map (entryAvg r q) entries)).
  { apply in_flat_map. exists e'. split; [exact He'|].
    rewrite Havg'. left. reflexivity. }
  specialize (Hall _ Hk). apply negb_true_iff in Hall.
  apply Qeq_bool_neq, Hall.
Qed.

Lemma shapeQualityOf_enum (q : Quality) :
  In (shapeQualityOf q) supportedQualities.
Proof. destruct q; simpl; tauto. Qed.

(** No two voicings of one result have the same average fret. *)
Lemma generateAllVoicings_strict (useFlats : bool) (chord : jsstring)
      (maxFret : Z) :
  StronglySorted ltAvg (generateAllVoicings useFlats chord maxFret).
Proof.
  destruct useFlats; [rewrite generateAllVoicings_notation|];
    unfold generateAllVoicings;
    (destruct (parseChordName chord) as [parsed|]; [|constructor]);
    apply sortByAvg_strict; rewrite pushVoicings_flat_map;
    apply flat_map_distinct;
    pose proof distinctAvgs_all as Hall;
    rewrite forallb_forall in Hall;
    specialize (Hall _ (getNoteIndex_enum (root parsed)));
    rewrite forallb_forall in Hall;
    apply (Hall _ (shapeQualityOf_enum (quality parsed))).
Qed.

(** C5: the returned list is sorted non-decreasing by [avgFret], and two
    voicings with the same [avgFret] stand in the family order E, A, D, G,
    C. *)
Theorem generateAllVoicings_sorted (useFlats : bool) (chord : jsstring)
        (maxFret : Z) :
  StronglySorted (fun a b => (avgFret a <= avgFret b)%Q)
                 (generateAllVoicings useFlats chord maxFret)
  /\ StronglySorted tieOrder (generateAllVoicings useFlats chord maxFret).
Proof.
  split.
  - unfold generateAllVoicings.
    destruct (parseChordName chord); [apply sortByAvg_sorted|constructor].
  - eapply StronglySorted_impl; [|apply generateAllVoicings_strict].
    intros a b H. left. exact H.
Qed.

(* ------------------------------------------------------------------ *)
(** ** JavaScript numbers *)

Lemma pow2_pos (e : Z) : (0 < pow2 e)%Q.
Proof. apply Qpower_0_lt. reflexivity. Qed.

Lemma pow2_le (a b : Z) : a <= b -> (pow2 a <= pow2 b)%Q.
Proof. intros H. apply Qpower_le_compat_l; [exact H|discriminate]. Qed.

Lemma pow2_plus (a b : Z) : (pow2 (a + b) == pow2 a * pow2 b)%Q.
Proof. apply Qpower_plus. discriminate. Qed.

Lemma pow2_cancel (e : Z) : (pow2 (- e) * pow2 e == 1)%Q.
Proof.
  rewrite <- pow2_plus. replace (- e + e) with 0 by lia. reflexivity.
Qed.

Lemma pow2_inject (a : Z) : 0 <= a -> (pow2 a == inject_Z (2 ^ a))%Q.
Proof. intros H. rewrite Zpower_Qpower by exact H. reflexivity. Qed.

Lemma leadingBit_spec (q : Q) :
  (0 < q)%Q ->
  (pow2 (leadingBit q) <= q)%Q /\ (q < pow2 (leadingBit q + 1))%Q.
Proof.
  intros Hq. unfold leadingBit.
  destruct q as [n d]. cbn [Qnum Qden].
  assert (Hn : 0 < n).
  { unfold Qlt in Hq. cbn [Qnum Qden] in Hq. lia. }
  set (a := Z.log2 n). set (b := Z.log2 (Zpos d)).
  assert (Ha : 0 <= a) by apply Z.log2_nonneg.
  assert (Hb : 0 <= b) by apply Z.log2_nonneg.
  destruct (Z.log2_spec n Hn) as [Ha1 Ha2]. fold a in Ha1, Ha2.
  destruct (Z.log2_spec (Zpos d) eq_refl) as [Hb1 Hb2]. fold b in Hb1, Hb2.
  assert (Hqd : ((n # d) * inject_Z (Zpos d) == inject_Z n)%Q).
  { rewrite Qmake_Qdiv. field. discriminate. }
  rewrite Zle_Qle in Ha1, Hb1. rewrite Zlt_Qlt in Ha2, Hb2.
  unfold Z.succ in Ha2, Hb2.
  rewrite <- pow2_inject in Ha1, Ha2, Hb1, Hb2 by lia.
  assert (Hd : (0 < inject_Z (Zpos d))%Q) by reflexivity.
  set (x := (n # d)%Q) in *. set (dq := inject_Z (Zpos d)) in *.
  set (nq := inject_Z n) in *.
  assert (Hup : (x < pow2 (a - b + 1))%Q).
  { apply (Qmult_lt_r _ _ dq Hd). rewrite Hqd.
    apply Qlt_le_trans with (pow2 (a + 1)); [exact Ha2|].
    replace (a + 1) with ((a - b + 1) + b) by lia.
    rewrite pow2_plus. apply Qmult_le_l; [apply pow2_pos|exact Hb1]. }
  assert (Hlow : (pow2 (a - b - 1) < x)%Q).
  { apply (Qmult_lt_r _ _ dq Hd). rewrite Hqd.
    apply Qlt_le_trans with (pow2 a); [|exact Ha1].
    replace a with ((a - b - 1) + (b + 1)) at 2 by lia.
    rewrite pow2_plus. apply Qmult_lt_l; [apply pow2_pos|exact Hb2]. }
  destruct (Qle_bool (pow2 (a - b)) x) eqn:Hc.
  - apply Qle_bool_iff in Hc. split; assumption.
  - assert (Hlt : (x < pow2 (a - b))%Q).
    { apply Qnot_le_lt. intros H. apply Qle_bool_iff in H. congruence. }
    replace (a - b - 1 + 1) with (a - b) by lia.
    split; [apply Qlt_le_weak, Hlow|exact Hlt].
Qed.

Lemma nearestEven_floor (q : Q) :
  Qfloor q <= nearestEven q <= Qfloor q + 1.
Proof.
  unfold nearestEven. destruct (Qcompare _ _); [destruct (Z.even _)| |]; lia.
Qed.

Lemma nearestEven_le (x y : Q) :
  (x <= y)%Q -> nearestEven x <= nearestEven y.
Proof.
  intros Hxy. pose proof (Qfloor_resp_le x y Hxy) as Hf.
  pose proof (nearestEven_floor x) as Hx.
  pose proof (nearestEven_floor y) as Hy.
  destruct (Z.eq_dec (Qfloor x) (Qfloor y)) as [Heq|Hne]; [|lia].
  unfold nearestEven in *. rewrite <- Heq in *.
  set (f := Qfloor x) in *.
  destruct (Qcompare_spec (x - inject_Z f)%Q (1 # 2)%Q) as [H1|H1|H1];
    destruct (Qcompare_spec (y - inject_Z f)%Q (1 # 2)%Q) as [H2|H2|H2];
    try destruct (Z.even f); try lia; exfalso; lra.
Qed.

Lemma roundPositive_bounds (q : Q) :
  (0 < q)%Q ->
  (pow2 (leadingBit q) <= roundPositive q)%Q
  /\ (roundPositive q <= pow2 (leadingBit q + 1))%Q.
Proof.
  intros Hq. destruct (leadingBit_spec q Hq) as [Hlo Hhi].
  unfold roundPositive. set (k := leadingBit q) in *.
  set (e := k - 52).
  pose proof (pow2_pos e) as He. pose proof (pow2_pos (- e)) as Hne.
  set (s := (q * pow2 (- e))%Q).
  assert (Hs1 : (inject_Z (2 ^ 52) <= s)%Q).
  { rewrite <- pow2_inject by lia. unfold s.
    replace 52 with (k + - e) by (unfold e; lia).
    rewrite pow2_plus. apply Qmult_le_r; assumption. }
  assert (Hs2 : (s <= inject_Z (2 ^ 53))%Q).
  { rewrite <- pow2_inject by lia. unfold s.
    replace 53 with ((k + 1) + - e) by (unfold e; lia).
    rewrite pow2_plus. apply Qmult_le_r; [assumption|].
    apply Qlt_le_weak, Hhi. }
  assert (Hr1 : 2 ^ 52 <= nearestEven s).
  { pose proof (nearestEven_le _ _ Hs1) as H.
    replace (nearestEven (inject_Z (2 ^ 52))) with (2 ^ 52) in H
      by (vm_compute; reflexivity).
    exact H. }
  assert (Hr2 : nearestEven s <= 2 ^ 53).
  { pose proof (nearestEven_le _ _ Hs2) as H.
    replace (nearestEven (inject_Z (2 ^ 53))) with (2 ^ 53) in H
      by (vm_compute; reflexivity).
    exact H. }
  rewrite Zle_Qle in Hr1, Hr2. rewrite <- pow2_inject in Hr1, Hr2 by lia.
  split.
  - replace k with (52 + e) by (unfold e; lia). rewrite pow2_plus.
    apply Qmult_le_r; assumption.
  - replace (k + 1) with (53 + e) by (unfold e; lia). rewrite pow2_plus.
    apply Qmult_le_r; assumption.
Qed.

Lemma roundPositive_pos (q : Q) : (0 < q)%Q -> (0 < roundPositive q)%Q.
Proof.
  intros Hq. destruct (roundPositive_bounds q Hq) as [H _].
  pose proof (pow2_pos (leadingBit q)). lra.
Qed.

Lemma roundPositive_le (x y : Q) :
  (0 < x)%Q -> (x <= y)%Q -> (roundPositive x <= roundPositive y)%Q.
Proof.
  intros Hx Hxy. assert (Hy : (0 < y)%Q) by lra.
  destruct (leadingBit_spec x Hx) as [Hx1 Hx2].
  destruct (leadingBit_spec y Hy) as [Hy1 Hy2].
  destruct (roundPositive_bounds x Hx) as [_ Hrx].
  destruct (roundPositive_bounds y Hy) as [Hry _].
  destruct (Z.lt_trichotomy (leadingBit x) (leadingBit y)) as [Hlt|[Heq|Hgt]].
  - pose proof (pow2_le (leadingBit x + 1) (leadingBit y) ltac:(lia)). lra.
  - unfold roundPositive. rewrite Heq.
    apply Qmult_le_r; [apply pow2_pos|]. rewrite <- Zle_Qle.
    apply nearestEven_le. apply Qmult_le_r; [apply pow2_pos|exact Hxy].
  - pose proof (pow2_le (leadingBit y + 1) (leadingBit x) ltac:(lia)). lra.
Qed.

Lemma double_pos (q : Q) : (0 < q)%Q -> double q = roundPositive q.
Proof.
  intros H. unfold double.
  destruct (Qcompare_spec q 0); [exfalso; lra|exfalso; lra|reflexivity].
Qed.

Lemma double_neg (q : Q) : (q < 0)%Q -> double q = (- roundPositive (- q))%Q.
Proof.
  intros H. unfold double.
  destruct (Qcompare_spec q 0); [exfalso; lra|reflexivity|exfalso; lra].
Qed.

Lemma double_zero (q : Q) : (q == 0)%Q -> double q = 0%Q.
Proof.
  intros H. unfold double.
  destruct (Qcompare_spec q 0); [reflexivity|exfalso; lra|exfalso; lra].
Qed.

(** Rounding keeps the order. *)
Lemma double_le (x y : Q) : (x <= y)%Q -> (double x <= double y)%Q.
Proof.
  intros Hxy.
  destruct (Qcompare_spec x 0) as [Hx|Hx|Hx];
    destruct (Qcompare_spec y 0) as [Hy|Hy|Hy]; try (exfalso; lra).
  - rewrite (double_zero x Hx), (double_zero y Hy). lra.
  - rewrite (double_zero x Hx), (double_pos y Hy).
    pose proof (roundPositive_pos y Hy). lra.
  - rewrite (double_neg x Hx), (double_zero y Hy).
    pose proof (roundPositive_pos (- x) ltac:(lra)). lra.
  - rewrite (double_neg x Hx), (double_neg y Hy).
    pose proof (roundPositive_le (- y) (- x) ltac:(lra) ltac:(lra)). lra.
  - rewrite (double_neg x Hx), (double_pos y Hy).
    pose proof (roundPositive_pos (- x) ltac:(lra)).
    pose proof (roundPositive_pos y Hy). lra.
  - rewrite (double_pos x Hx), (double_pos y Hy).
    apply roundPositive_le; assumption.
Qed.

#[global] Instance double_comp : Proper (Qeq ==> Qeq) double.
Proof.
  intros x y Hxy. apply Qle_antisym; apply double_le; lra.
Qed.

Lemma Qopp_opp (q : Q) : (- - q)%Q = q.
Proof.
  destruct q as [n d]. unfold Qopp. cbn [Qnum Qden].
  rewrite Z.opp_involutive. reflexivity.
Qed.

Lemma double_opp (x : Q) : (double (- x) == - double x)%Q.
Proof.
  destruct (Qcompare_spec x 0) as [Hx|Hx|Hx].
  - rewrite (double_zero x Hx), (double_zero (- x)) by lra. reflexivity.
  - rewrite (double_neg x Hx), (double_pos (- x)) by lra. ring.
  - rewrite (double_pos x Hx), (double_neg (- x)) by lra.
    rewrite Qopp_opp. reflexivity.
Qed.

Lemma double_nonneg (x : Q) : (0 <= x)%Q -> (0 <= double x)%Q.
Proof. intros H. apply (double_le 0 x H). Qed.

(** The number written 0.1, and a tie that goes to the even significand. *)
Example double_tenth :
  (double (1 # 10) == 3602879701896397 # 36028797018963968)%Q.
Proof. vm_compute. reflexivity. Qed.

Example double_tie :
  (double (inject_Z (2 ^ 53 + 1)) == inject_Z (2 ^ 53))%Q
  /\ (double (inject_Z (2 ^ 53 + 3)) == inject_Z (2 ^ 53 + 4))%Q.
Proof. split; vm_compute; reflexivity. Qed.

(* ------------------------------------------------------------------ *)
(** ** The progression optimiser *)

Lemma Qltb_true (a b : Q) : Qltb a b = true <-> (a < b)%Q.
Proof.
  unfold Qltb. rewrite negb_true_iff. split.
  - intros H. destruct (Qlt_le_dec a b) as [Hlt|Hle]; [exact Hlt|].
    apply Qle_bool_iff in Hle. congruence.
  - intros H. destruct (Qle_bool b a) eqn:Hle; [|reflexivity].
    apply Qle_bool_iff in Hle. lra.
Qed.

Lemma Qltb_false (a b : Q) : Qltb a b = false <-> (b <= a)%Q.
Proof.
  unfold Qltb. rewrite negb_false_iff. apply Qle_bool_iff.
Qed.

Lemma leCost_refl (a : Cost) : leCost a a.
Proof. destruct a; simpl; [lra|exact I]. Qed.

Lemma leCost_trans (a b c : Cost) : leCost a b -> leCost b c -> leCost a c.
Proof. destruct a, b, c; simpl; try tauto. intros; lra. Qed.

Lemma ltCost_true (a b : Cost) : ltCost a b = true -> leCost a b.
Proof.
  destruct a, b; simpl; try discriminate; try tauto.
  intros H. apply Qltb_true in H. lra.
Qed.

Lemma ltCost_false (a b : Cost) : ltCost a b = false -> leCost b a.
Proof.
  destruct a, b; simpl; try discriminate; try tauto.
  intros H. apply Qltb_false in H. exact H.
Qed.

Lemma scanMin_fold {X} (key : X -> Cost) (l : list X) :
  forall (i0 : Z) (st : Cost * Z),
    let st' := forEachIdx (scanMin key) l i0 st in
    leCost (fst st') (fst st)
    /\ (forall x, In x l -> leCost (fst st') (key x))
    /\ (st' = st
        \/ exists k x, nth_error l k = Some x
                       /\ st' = (key x, i0 + Z.of_nat k)).
Proof.
  induction l as [|x l IH]; intros i0 st; simpl.
  - split; [apply leCost_refl|]. split; [intros ? []|left; reflexivity].
  - destruct (IH (i0 + 1) (scanMin key st x i0)) as (Hle & Hall & Hst).
    set (st1 := scanMin key st x i0) in *.
    set (st' := forEachIdx (scanMin key) l (i0 + 1) st1) in *.
    assert (H1 : leCost (fst st1) (fst st) /\ leCost (fst st1) (key x)
                 /\ (st1 = st \/ st1 = (key x, i0))).
    { unfold st1, scanMin. destruct (ltCost (key x) (fst st)) eqn:Hlt; simpl.
      - split; [apply ltCost_true, Hlt|].
        split; [apply leCost_refl|right; reflexivity].
      - split; [apply leCost_refl|].
        split; [apply ltCost_false, Hlt|left; reflexivity]. }
    destruct H1 as (H1a & H1b & H1c).
    split; [eapply leCost_trans; eassumption|]. split.
    + intros y [<-|Hy]; [eapply leCost_trans; eassumption|apply Hall, Hy].
    + destruct Hst as [Hst|(k & y & Hk & Hst)].
      * rewrite Hst. destruct H1c as [-> | ->]; [left; reflexivity|].
        right. exists O, x. split; [reflexivity|]. f_equal. simpl. lia.
      * right. exists (S k), y. split; [exact Hk|]. rewrite Hst. f_equal.
        lia.
Qed.

(** From [(Infinity, i)], over a non-empty list of finite keys, the search
    ends on an element of the list with a least key. *)
Lemma scanMin_least {X} (key : X -> Cost) (l : list X) (i : Z) :
  l <> [] ->
  (forall x, In x l -> exists c, key x = Finite c) ->
  exists k x,
    nth_error l k = Some x
    /\ forEachIdx (scanMin key) l 0 (Infinity, i) = (key x, Z.of_nat k)
    /\ forall y, In y l -> leCost (key x) (key y).
Proof.
  intros Hne Hfin.
  destruct (scanMin_fold key l 0 (Infinity, i)) as (_ & Hall & Hst).
  destruct Hst as [Hst|(k & x & Hk & Hst)].
  - destruct l as [|x0 l]; [contradiction|].
    specialize (Hall x0 (or_introl eq_refl)). rewrite Hst in Hall.
    destruct (Hfin x0 (or_introl eq_refl)) as [c Hc]. rewrite Hc in Hall.
    destruct Hall.
  - exists k, x. split; [exact Hk|]. split; [exact Hst|].
    intros y Hy. specialize (Hall y Hy). rewrite Hst in Hall. exact Hall.
Qed.

Lemma bestEnding_scanMin (lastRow : list Cell) :
  bestEnding lastRow = snd (forEachIdx (scanMin cost) lastRow 0 (Infinity, 0)).
Proof. reflexivity. Qed.

Lemma relaxStep_scanMin (vj : Voicing) (l : list (Voicing * Cell)) :
  forall (i0 : Z) (cell : Cell),
    let cell' := forEachIdx (relaxStep vj) l i0 cell in
    (cost cell', prev cell')
    = forEachIdx (scanMin (throughCost vj)) l i0 (cost cell, prev cell).
Proof.
  induction l as [|pk l IH]; intros i0 cell; simpl; [reflexivity|].
  rewrite IH. f_equal. unfold relaxStep, scanMin, throughCost. simpl.
  destruct (ltCost _ (cost cell)); reflexivity.
Qed.

(** The cell of candidate [vj]: its cost is the least total cost through a
    candidate of the previous row, and [prev] is the index of one that
    attains it. *)
Lemma relax_least (prevVoicings : list Voicing) (prevRow : list Cell)
      (vj : Voicing) :
  combine prevVoicings prevRow <> [] ->
  (forall pk, In pk (combine prevVoicings prevRow) ->
              exists c, cost (snd pk) = Finite c) ->
  exists k pk c,
    nth_error (combine prevVoicings prevRow) k = Some pk
    /\ cost (snd pk) = Finite c
    /\ relax prevVoicings prevRow vj
       = mkCell (Finite (double (c + calculateMovementCost (fst pk) vj)%Q))
                (Z.of_nat k)
    /\ forall pk' c', In pk' (combine prevVoicings prevRow) ->
                      cost (snd pk') = Finite c' ->
                      (double (c + calculateMovementCost (fst pk) vj)
                       <= double (c' + calculateMovementCost (fst pk') vj))%Q.
Proof.
  intros Hne Hfin.
  assert (Hkey : forall pk, In pk (combine prevVoicings prevRow) ->
                            exists c, throughCost vj pk = Finite c).
  { intros pk Hpk. destruct (Hfin pk Hpk) as [c Hc]. unfold throughCost.
    rewrite Hc. simpl. eauto. }
  destruct (scanMin_least (throughCost vj) _ (-1) Hne Hkey)
    as (k & pk & Hk & Hst & Hmin).
  pose proof (relaxStep_scanMin vj (combine prevVoicings prevRow) 0
                (mkCell Infinity (-1))) as Heq.
  simpl in Heq. rewrite Hst in Heq. fold (relax prevVoicings prevRow vj) in Heq.
  destruct (Hfin pk (nth_error_In _ _ Hk)) as [c Hc].
  exists k, pk, c. split; [exact Hk|]. split; [exact Hc|]. split.
  - destruct (relax prevVoicings prevRow vj) as [c0 p0]. simpl in Heq.
    injection Heq as H1 H2. subst c0 p0. unfold throughCost. rewrite Hc.
    reflexivity.
  - intros pk' c' Hin' Hc'. specialize (Hmin pk' Hin').
    unfold throughCost in Hmin. rewrite Hc, Hc' in Hmin. exact Hmin.
Qed.

Lemma getIdx_of_nat {X} (l : list X) (j : nat) :
  getIdx l (Z.of_nat j) = nth_error l j.
Proof.
  unfold getIdx. destruct (Z.of_nat j <? 0) eqn:H.
  - apply Z.ltb_lt in H. lia.
  - rewrite Nat2Z.id. reflexivity.
Qed.

Lemma nth_error_combine {X Y} (l1 : list X) (l2 : list Y) :
  forall (k : nat) (a : X) (b : Y),
    nth_error (combine l1 l2) k = Some (a, b) <->
    nth_error l1 k = Some a /\ nth_error l2 k = Some b.
Proof.
  revert l2. induction l1 as [|x l1 IH]; intros l2 k a b.
  - destruct k; simpl; split; try discriminate; intros [H _]; discriminate.
  - destruct l2 as [|y l2].
    + destruct k; simpl; split; try discriminate; intros [_ H];
        discriminate.
    + destruct k; simpl; [|apply IH].
      split; [intros [= -> ->]; auto|intros [[= ->] [= ->]]; reflexivity].
Qed.

(** Adding a movement cost keeps the order of the costs added to: the
    rounding of the sum is monotone. *)
Lemma addCost_le (c c' m : Q) :
  (c <= c')%Q -> (double (c + m) <= double (c' + m))%Q.
Proof. intros H. apply double_le. lra. Qed.

Lemma table_cell (preferredFret : Q)
      (rows : list (list Voicing * list Cell)) :
  Table preferredFret rows ->
  match rows with
  | [] => True
  | (vs, row) :: below =>
      forall j v, nth_error vs j = Some v ->
                  cellSpec preferredFret rows row below j v
  end.
Proof.
  induction 1 as [vs|vs pvs prow rows HT IH Hne].
  - intros j v Hj. unfold cellSpec.
    set (c0 := Qabs (double (avgFretNumber v - preferredFret)%Q)).
    exists (mkCell (Finite c0) (-1)), c0, [].
    assert (Hrow : nth_error (firstLayer preferredFret vs) j
                   = Some (mkCell (Finite c0) (-1))).
    { unfold firstLayer. rewrite nth_error_map, Hj. reflexivity. }
    split; [exact Hrow|]. split; [reflexivity|].
    split; [constructor|]. split; [simpl; fold c0; lra|]. split.
    + intros rp' Hrp'. inversion Hrp'. simpl. fold c0. lra.
    + intros acc. simpl. rewrite !getIdx_of_nat, Hj, Hrow. reflexivity.
  - intros j v Hj.
    assert (Hcomb : forall k u cell,
               nth_error (combine pvs prow) k = Some (u, cell) ->
               exists c rp,
                 cost cell = Finite c
                 /\ chosen rp (map fst rows)
                 /\ (rcost preferredFret (u :: rp) == c)%Q
                 /\ (forall rp', chosen rp' (map fst rows) ->
                                 (c <= rcost preferredFret (u :: rp'))%Q)
                 /\ forall acc,
                      backtrack ((pvs, prow) :: rows) (Z.of_nat k) acc
                      = Some (rev (map Some (u :: rp)) ++ acc)%list).
    { intros k u cell Hk. apply nth_error_combine in Hk as [Hu Hcell].
      destruct (IH k u Hu) as (cell' & c & rp & Hc' & Hrest).
      rewrite Hcell in Hc'. injection Hc' as <-. exists c, rp. exact Hrest. }
    assert (Hin : forall u, In u pvs ->
               exists k cell, nth_error (combine pvs prow) k = Some (u, cell)).
    { intros u Hu. apply In_nth_error in Hu as [k Hk].
      destruct (IH k u Hk) as (cell & _ & _ & Hcell & _).
      exists k, cell. apply nth_error_combine. auto. }
    assert (Hnonempty : combine pvs prow <> []).
    { destruct pvs as [|u pvs']; [contradiction|].
      destruct (Hin u (or_introl eq_refl)) as (k & cell & Hk).
      intros Heq. rewrite Heq in Hk. destruct k; discriminate. }
    assert (Hfin : forall pk, In pk (combine pvs prow) ->
                              exists c, cost (snd pk) = Finite c).
    { intros [u cell] Hpk. apply In_nth_error in Hpk as [k Hk].
      destruct (Hcomb k u cell Hk) as (c & _ & Hc & _). exists c. exact Hc. }
    destruct (relax_least pvs prow v Hnonempty Hfin)
      as (k & [u cell] & c & Hk & Hc & Hrelax & Hmin).
    simpl in Hc, Hrelax, Hmin.
    destruct (Hcomb k u cell Hk)
      as (c0 & rp & Hc0 & Hrp & Hcost & Hopt & Hback).
    rewrite Hc in Hc0. injection Hc0 as <-.
    assert (Hrow : nth_error (map (relax pvs prow) vs) j
                   = Some (relax pvs prow v))
      by (rewrite nth_error_map, Hj; reflexivity).
    unfold cellSpec.
    exists (relax pvs prow v), (double (c + calculateMovementCost u v)%Q),
      (u :: rp).
    split; [exact Hrow|]. split; [rewrite Hrelax; reflexivity|]. split.
    { constructor; [|exact Hrp].
      apply nth_error_combine in Hk as [Hu _].
      eapply nth_error_In, Hu. }
    split.
    { change (double (rcost preferredFret (u :: rp)
                      + calculateMovementCost u v)
              == double (c + calculateMovementCost u v))%Q.
      rewrite Hcost. reflexivity. }
    split.
    + intros rp' Hrp'. inversion Hrp' as [|u' cs rp'' css Hu' Hrp'' Heq1 Heq2].
      subst.
      destruct (Hin u' Hu') as (k' & cell' & Hk').
      destruct (Hcomb k' u' cell' Hk') as (c' & _ & Hc' & _ & _ & Hopt' & _).
      specialize (Hmin (u', cell') c' (nth_error_In _ _ Hk') Hc').
      simpl in Hmin. specialize (Hopt' rp'' Hrp'').
      change (double (c + calculateMovementCost u v)
              <= double (rcost preferredFret (u' :: rp'')
                         + calculateMovementCost u' v))%Q.
      pose proof (addCost_le _ _ (calculateMovementCost u' v) Hopt').
      lra.
    + intros acc.
      change (backtrack ((vs, map (relax pvs prow) vs) :: (pvs, prow) :: rows)
                        (Z.of_nat j) acc)
        with (match getIdx (map (relax pvs prow) vs) (Z.of_nat j) with
              | None => None
              | Some cell0 =>
                  backtrack ((pvs, prow) :: rows) (prev cell0)
                            (getIdx vs (Z.of_nat j) :: acc)
              end).
      rewrite !getIdx_of_nat, Hrow, Hj, Hrelax. cbn [prev].
      rewrite Hback. cbn [map rev]. rewrite <- !app_assoc. reflexivity.
Qed.

Lemma Table_top_length (preferredFret : Q)
      (rows : list (list Voicing * list Cell)) :
  Table preferredFret rows ->
  match rows with
  | [] => True
  | (vs, row) :: _ => List.length row = List.length vs
  end.
Proof.
  destruct 1; [unfold firstLayer|]; apply length_map.
Qed.

Lemma fillDP_length (rest : list (list Voicing)) :
  forall pvs prow, List.length (fillDP pvs prow rest) = List.length rest.
Proof.
  induction rest as [|vs rest IH]; intros pvs prow; simpl; [reflexivity|].
  rewrite IH. reflexivity.
Qed.

Lemma fillDP_Table (preferredFret : Q) (rest : list (list Voicing)) :
  forall pvs prow rows,
    Table preferredFret ((pvs, prow) :: rows) ->
    pvs <> [] -> Forall (fun c => c <> []) rest ->
    Table preferredFret
          (rev (combine rest (fillDP pvs prow rest)) ++ (pvs, prow) :: rows).
Proof.
  induction rest as [|vs rest IH]; intros pvs prow rows HT Hne Hall; simpl.
  - exact HT.
  - inversion Hall as [|? ? Hvs Hrest]; subst.
    rewrite <- app_assoc. simpl. apply IH; [|exact Hvs|exact Hrest].
    apply Table_next; assumption.
Qed.

Lemma map_fst_combine {X Y} (l1 : list X) (l2 : list Y) :
  List.length l1 = List.length l2 -> map fst (combine l1 l2) = l1.
Proof.
  revert l2. induction l1 as [|x l1 IH]; intros [|y l2] H; simpl in *;
    try discriminate; [reflexivity|].
  rewrite IH by lia. reflexivity.
Qed.

Lemma map_snd_combine {X Y} (l1 : list X) (l2 : list Y) :
  List.length l1 = List.length l2 -> map snd (combine l1 l2) = l2.
Proof.
  revert l2. induction l1 as [|x l1 IH]; intros [|y l2] H; simpl in *;
    try discriminate; [reflexivity|].
  rewrite IH by lia. reflexivity.
Qed.

Lemma chosen_rev (path : list Voicing) (cands : list (list Voicing)) :
  chosen path cands -> chosen (rev path) (rev cands).
Proof.
  unfold chosen. induction 1 as [|v c path cands Hv Hrest IH]; simpl;
    [constructor|].
  apply Forall2_app; [exact IH|]. constructor; [exact Hv|constructor].
Qed.

(** The movement cost of C1 is the number [calculateMovementCost]
    returns. *)
Lemma movementCost_calculated (a b : Voicing) :
  (movementCost a b == calculateMovementCost a b)%Q.
Proof.
  unfold movementCost, calculateMovementCost.
  set (f := Qabs (double (avgFretNumber a - avgFretNumber b)%Q)).
  set (s := Qabs (double (inject_Z (fretSpan a) - inject_Z (fretSpan b))%Q)).
  assert (Hf : (2 * f == f * inject_Z 2)%Q)
    by (change (inject_Z 2) with 2%Q; ring).
  assert (Hs : ((1 # 2) * s == s * (1 # 2))%Q) by ring.
  rewrite Hf, Hs.
  destruct (JS.eqb (shapeName a) (shapeName b)); reflexivity.
Qed.

Lemma addMovements_snoc (rest : list Voicing) (u v : Voicing) :
  forall (acc : Q) (a : Voicing),
    addMovements acc a ((rest ++ [u]) ++ [v])
    = double (addMovements acc a (rest ++ [u]) + movementCost u v)%Q.
Proof.
  induction rest as [|b rest IH]; intros acc a; [reflexivity|].
  cbn [app addMovements]. apply IH.
Qed.

Lemma totalCost_snoc (preferredFret : Q) (p : list Voicing) (u v : Voicing) :
  totalCost preferredFret ((p ++ [u]) ++ [v])
  = double (totalCost preferredFret (p ++ [u]) + movementCost u v)%Q.
Proof.
  destruct p as [|a p]; [reflexivity|].
  cbn [app totalCost]. apply addMovements_snoc.
Qed.

(** The cost of a path summed from its first voicing on is the cost the
    table accumulates. *)
Lemma totalCost_rev (preferredFret : Q) (rp : list Voicing) :
  (totalCost preferredFret (rev rp) == rcost preferredFret rp)%Q.
Proof.
  induction rp as [|v rp IH]; [reflexivity|].
  destruct rp as [|u rp]; [reflexivity|].
  change (totalCost preferredFret ((rev rp ++ [u]) ++ [v])
          == double (rcost preferredFret (u :: rp)
                     + calculateMovementCost u v))%Q.
  rewrite totalCost_snoc. simpl rev in IH.
  rewrite IH, movementCost_calculated. reflexivity.
Qed.

Lemma nearer_fold (preferredFret : Q) (rest : list Voicing) :
  forall best,
    In (fold_left (nearer preferredFret) rest best) (best :: rest)
    /\ forall v, In v (best :: rest) ->
         (totalCost preferredFret
                    [fold_left (nearer preferredFret) rest best]
          <= totalCost preferredFret [v])%Q.
Proof.
  induction rest as [|w rest IH]; intros best; cbn [fold_left].
  - split; [left; reflexivity|]. intros v [<-|[]]. lra.
  - destruct (IH (nearer preferredFret best w)) as (Hin & Hmin).
    assert (Hb : (nearer preferredFret best w = best
                  \/ nearer preferredFret best w = w)
                 /\ (totalCost preferredFret [nearer preferredFret best w]
                     <= totalCost preferredFret [best])%Q
                 /\ (totalCost preferredFret [nearer preferredFret best w]
                     <= totalCost preferredFret [w])%Q).
    { unfold nearer. cbn [totalCost addMovements].
      destruct (Qltb (Qabs (double (avgFretNumber w - preferredFret)%Q))
                     (Qabs (double (avgFretNumber best - preferredFret)%Q)))
        eqn:Hlt.
      - apply Qltb_true in Hlt. split; [right; reflexivity|]. split; lra.
      - apply Qltb_false in Hlt. split; [left; reflexivity|]. split; lra. }
    destruct Hb as (Hb & Hb0 & Hbw).
    pose proof (Hmin _ (or_introl eq_refl)) as Hrb.
    split.
    + destruct Hin as [Hin|Hin]; [|right; right; exact Hin].
      rewrite <- Hin. destruct Hb as [-> | ->]; [left|right; left];
        reflexivity.
    + intros v [<-|[<-|Hv]]; [lra|lra|].
      apply Hmin. right. exact Hv.
Qed.

(** The single-chord branch picks a candidate nearest to the preferred
    fret. *)
Lemma closest_least (preferredFret : Q) (v0 : Voicing) (rest : list Voicing) :
  exists r,
    closest preferredFret (v0 :: rest) = Some r
    /\ In r (v0 :: rest)
    /\ forall v, In v (v0 :: rest) ->
                 (totalCost preferredFret [r]
                  <= totalCost preferredFret [v])%Q.
Proof.
  exists (fold_left (nearer preferredFret) rest v0).
  split; [reflexivity|]. apply nearer_fold.
Qed.

(** The optimiser on candidate sets that are all non-empty: it returns one
    candidate per chord, and no other choice of candidates costs less. *)
Lemma optimizeFrom_optimal (preferredFret : Q)
      (allVoicings : list (list Voicing)) :
  allVoicings <> [] ->
  Forall (fun c => c <> []) allVoicings ->
  exists result,
    optimizeFrom preferredFret allVoicings = Some (map Some result)
    /\ chosen result allVoicings
    /\ forall path, chosen path allVoicings ->
                    (totalCost preferredFret result
                     <= totalCost preferredFret path)%Q.
Proof.
  intros Hne Hall.
  destruct allVoicings as [|c0 [|c1 rest]]; [contradiction| |].
  - (* a single chord *)
    inversion Hall as [|? ? Hc0 _]; subst.
    destruct c0 as [|v0 vs]; [contradiction|].
    destruct (closest_least preferredFret v0 vs) as (r & Hr & Hin & Hmin).
    exists [r]. unfold optimizeFrom. rewrite Hr.
    split; [reflexivity|]. split; [constructor; [exact Hin|constructor]|].
    intros path Hpath. inversion Hpath as [|v c p cs Hv Hp]; subst.
    inversion Hp; subst. exact (Hmin v Hv).
  - (* the table *)
    inversion Hall as [|? ? Hc0 Hrest]; subst.
    set (all := c0 :: c1 :: rest) in *.
    set (dp := dpTable preferredFret all).
    assert (Hlen : List.length all = List.length dp).
    { unfold dp, all. cbn [dpTable List.length]. rewrite fillDP_length.
      reflexivity. }
    assert (HT : Table preferredFret (rev (combine all dp))).
    { change (rev (combine all dp))
        with (rev (combine (c1 :: rest)
                     (fillDP c0 (firstLayer preferredFret c0) (c1 :: rest)))
              ++ (c0, firstLayer preferredFret c0) :: [])%list.
      apply (fillDP_Table preferredFret (c1 :: rest) c0
               (firstLayer preferredFret c0) []);
        [constructor|exact Hc0|exact Hrest]. }
    assert (Hfst : map fst (rev (combine all dp)) = rev all)
      by (rewrite map_rev, map_fst_combine by exact Hlen; reflexivity).
    assert (Hsnd : map snd (rev (combine all dp)) = rev dp)
      by (rewrite map_rev, map_snd_combine by exact Hlen; reflexivity).
    change (optimizeFrom preferredFret all)
      with (backtrack (rev (combine all dp)) (bestEnding (last dp [])) []).
    destruct (rev (combine all dp)) as [|[vsn rown] below] eqn:Hrows.
    { apply (f_equal (@List.length _)) in Hfst. rewrite length_rev in Hfst.
      discriminate Hfst. }
    pose proof (table_cell _ _ HT) as Hcell. cbv beta iota in Hcell.
    pose proof (Table_top_length _ _ HT) as Htop. cbv beta iota in Htop.
    cbn [map fst snd] in Hfst, Hsnd.
    assert (Hlast : last dp [] = rown).
    { apply (f_equal (@rev _)) in Hsnd. rewrite rev_involutive in Hsnd.
      rewrite <- Hsnd. cbn [rev]. apply last_last. }
    assert (Hvsn : vsn <> []).
    { assert (Hin : In vsn all) by (apply in_rev; rewrite <- Hfst; left;
                                     reflexivity).
      rewrite Forall_forall in Hall. apply Hall, Hin. }
    assert (Hfin : forall cell, In cell rown -> exists c, cost cell = Finite c).
    { intros cell Hc. apply In_nth_error in Hc as [j Hj].
      assert (Hjlt : (j < List.length vsn)%nat).
      { rewrite <- Htop. apply nth_error_Some. rewrite Hj. discriminate. }
      destruct (nth_error vsn j) as [v|] eqn:Hv;
        [|apply nth_error_None in Hv; lia].
      destruct (Hcell j v Hv) as (cell' & c & _ & Hc' & Hcost & _).
      rewrite Hj in Hc'. injection Hc' as <-. exists c. exact Hcost. }
    assert (Hrown : rown <> []).
    { intros ->. destruct vsn; [contradiction|discriminate Htop]. }
    destruct (scanMin_least cost rown 0 Hrown Hfin)
      as (k & cellk & Hk & Hscan & Hleast).
    assert (Hbest : bestEnding rown = Z.of_nat k)
      by (rewrite bestEnding_scanMin, Hscan; reflexivity).
    assert (Hklt : (k < List.length vsn)%nat).
    { rewrite <- Htop. apply nth_error_Some. rewrite Hk. discriminate. }
    destruct (nth_error vsn k) as [vk|] eqn:Hvk;
      [|apply nth_error_None in Hvk; lia].
    destruct (Hcell k vk Hvk) as (cell & c & rp & Hc & Hcost & Hrp & Hrc & _
                                  & Hback).
    rewrite Hk in Hc. injection Hc as <-.
    exists (rev (vk :: rp)). rewrite Hlast, Hbest, Hback, app_nil_r, map_rev.
    split; [reflexivity|]. split.
    + rewrite <- (rev_involutive all), <- Hfst. apply chosen_rev.
      constructor; [eapply nth_error_In; exact Hvk|exact Hrp].
    + intros path Hpath. apply chosen_rev in Hpath. rewrite <- Hfst in Hpath.
      inversion Hpath as [|v' cs rp' css Hv' Hrp' Heq1 Heq2]. subst.
      apply In_nth_error in Hv' as [k' Hk'].
      destruct (Hcell k' v' Hk') as (cell' & c' & _ & Hc' & Hcost' & _ & _
                                     & Hopt' & _).
      specialize (Hleast cell' (nth_error_In _ _ Hc')).
      rewrite Hcost, Hcost' in Hleast. simpl in Hleast.
      specialize (Hopt' rp' Hrp').
      rewrite totalCost_rev, <- (rev_involutive path), totalCost_rev.
      rewrite <- Heq1. lra.
Qed.

Lemma candidates_length (useFlats : bool) (preferredFret fretRange : Q)
      (chordNames : list jsstring) :
  List.length (candidates useFlats preferredFret fretRange chordNames)
  = List.length chordNames.
Proof.
  unfold candidates. rewrite length_map, length_combine, length_map.
  apply Nat.min_id.
Qed.

Lemma filter_existsb {X} (f : X -> bool) (l : list X) :
  (if existsb f l then filter f l else l)
  = match filter f l with [] => l | x :: xs => x :: xs end.
Proof.
  destruct (existsb f l) eqn:He.
  - apply existsb_exists in He as (x & Hin & Hx).
    destruct (filter f l) as [|y ys] eqn:Hf; [|reflexivity].
    assert (H : In x (filter f l)) by (apply filter_In; auto).
    rewrite Hf in H. destruct H.
  - destruct (filter f l) as [|y ys] eqn:Hf; [reflexivity|].
    assert (H : In y (filter f l)) by (rewrite Hf; left; reflexivity).
    apply filter_In in H as [Hin Hy].
    assert (existsb f l = true) by (apply existsb_exists; eauto).
    congruence.
Qed.

(** The candidates the optimiser works on are, chord by chord, the
    candidate sets of C1. *)
Lemma candidates_candidatesOf (useFlats : bool) (preferredFret fretRange : Q)
      (chordNames : list jsstring) :
  candidates useFlats preferredFret fretRange chordNames
  = map (candidatesOf useFlats preferredFret fretRange) chordNames.
Proof.
  unfold candidates. induction chordNames as [|chord names IH];
    [reflexivity|].
  cbn [map combine]. rewrite IH. f_equal.
  cbn [fst snd]. unfold candidatesOf. rewrite filter_existsb.
  destruct (filter _ _); reflexivity.
Qed.





Example optimizeProgression_Am_C_G :
  option_map (map (option_map (fun v => (shapeName v, avgFret v))))
    (optimizeProgression false (inject_Z 5) (inject_Z 7)
       (map JS.lit ["Am"; "C"; "G"]%string))
  = Some [Some (JS.lit "E-shape", 34 # 6); Some (JS.lit "G-shape", 38 # 6);
          Some (JS.lit "D-shape", 27 # 4)].
Proof. vm_compute. reflexivity. Qed.

(** Two paths of the same exact cost: the rounding of the sums decides, and
    the call returns the E, D and E shapes. *)
Example optimizeProgression_Am_G7_Am :
  option_map (map (option_map (fun v => (shapeName v, avgFret v))))
    (optimizeProgression false (inject_Z 5) (inject_Z 7)
       (map JS.lit ["Am"; "G7"; "Am"]%string))
  = Some [Some (JS.lit "E-shape", 34 # 6); Some (JS.lit "D-shape", 25 # 4);
          Some (JS.lit "E-shape", 34 # 6)].
Proof. vm_compute. reflexivity. Qed.

(** A chord that is repeated need not keep its voicing: at the preferred
    fret 10^17 the second C moves from the E shape to the G shape. *)
Example optimizeProgression_C_C :
  option_map (map (option_map shapeName))
    (optimizeProgression false (inject_Z (10 ^ 17)) (inject_Z 7)
       (map JS.lit ["C"; "C"]%string))
  = Some [Some (JS.lit "E-shape"); Some (JS.lit "G-shape")].
Proof. vm_compute. reflexivity. Qed.

(** Outside the hypothesis of C1: a name that is not a chord has no
    candidate, and the call throws. *)
Example optimizeProgression_no_candidate :
  optimizeProgression false (inject_Z 5) (inject_Z 7)
    (map JS.lit ["Am"; "xx"]%string) = None.
Proof. vm_compute. reflexivity. Qed.

Lemma CAGED_SHAPES_order : map fst CAGED_SHAPES = [E; A; D; C; G].
Proof. reflexivity. Qed.

(* ================================================================== *)
(** * Further properties *)

(* ------------------------------------------------------------------ *)
(** ** The fret limit of the voicing generator *)

Lemma visit_limit (useFlats : bool) (rootIndex m m' transpose : Z)
      (st : Scan) (f index : Z) :
  withinLimit m transpose f -> m <= m' ->
  visit useFlats rootIndex m transpose st f index
  = visit useFlats rootIndex m' transpose st f index.
Proof.
  unfold visit, withinLimit. intros H Hm.
  destruct (f >=? 0) eqn:Hf; [|reflexivity].
  destruct (f + transpose >? m) eqn:H1; [lia|].
  destruct (f + transpose >? m') eqn:H2; [lia|reflexivity].
Qed.

Lemma scan_limit (useFlats : bool) (rootIndex m m' transpose : Z)
      (frets : list Z) :
  Forall (withinLimit m transpose) frets -> m <= m' ->
  forall index st,
    forEachIdx (visit useFlats rootIndex m transpose) frets index st
    = forEachIdx (visit useFlats rootIndex m' transpose) frets index st.
Proof.
  induction 1 as [|f frets Hf Hall IH]; intros Hm index st; simpl;
    [reflexivity|].
  rewrite (visit_limit useFlats rootIndex m m' transpose st f index Hf Hm).
  apply IH, Hm.
Qed.

(** A voicing a shape gives under one limit is the voicing it gives under
    every larger limit. *)
Lemma voicingOfShape_limit (useFlats : bool) (rootIndex m m' : Z)
      (chord : jsstring) (shapeKey : Family) (shape : CagedShape)
      (v : Voicing) :
  voicingOfShape useFlats rootIndex m chord shapeKey shape = Some v ->
  m <= m' ->
  voicingOfShape useFlats rootIndex m' chord shapeKey shape = Some v.
Proof.
  intros Hv Hm.
  pose proof (voicingOfShape_some _ _ _ _ _ _ _ Hv) as (_ & Hall & _).
  unfold voicingOfShape in *. fold (transposeTo rootIndex shapeKey) in *.
  rewrite <- (scan_limit useFlats rootIndex m m' _ _ Hall Hm). exact Hv.
Qed.

Lemma generateAllVoicings_intro (useFlats : bool) (chord : jsstring)
      (maxFret : Z) (parsed : ChordSymbol)
      (entry : Family * (Quality -> option CagedShape)) (shape : CagedShape)
      (v : Voicing) :
  parseChordName chord = Some parsed ->
  In entry CAGED_SHAPES ->
  snd entry (shapeQualityOf (quality parsed)) = Some shape ->
  voicingOfShape useFlats (getNoteIndex (root parsed)) maxFret chord
                 (fst entry) shape = Some v ->
  In v (generateAllVoicings useFlats chord maxFret).
Proof.
  intros Hp He Hq Hv. unfold generateAllVoicings. rewrite Hp.
  rewrite sortByAvg_In, pushVoicings_flat_map, in_flat_map.
  exists entry. split; [exact He|]. unfold voicingsOfEntry.
  rewrite Hq, Hv. left. reflexivity.
Qed.

Lemma sounded_frets_within (useFlats : bool) (rootIndex transpose m : Z)
      (frets : list Z) :
  forall index,
    Forall (fun p => fret p <= m)
           (sounded useFlats rootIndex transpose frets index) ->
    Forall (withinLimit m transpose) frets.
Proof.
  induction frets as [|f frets IH]; intros index H; [constructor|].
  cbn [sounded] in H. unfold withinLimit.
  destruct (f >=? 0) eqn:Hf.
  - inversion H as [|? ? Hp Hrest]; subst. cbn [fret] in Hp.
    constructor; [right; exact Hp|]. eapply IH, Hrest.
  - constructor; [left; lia|]. eapply IH, H.
Qed.

Lemma sounded_frets_limit (useFlats : bool) (rootIndex transpose m : Z)
      (frets : list Z) :
  Forall (withinLimit m transpose) frets ->
  forall index,
    Forall (fun p => fret p <= m)
           (sounded useFlats rootIndex transpose frets index).
Proof.
  induction 1 as [|f frets Hf Hall IH]; intros index; cbn [sounded];
    [constructor|].
  destruct (f >=? 0) eqn:Hf0; [|apply IH].
  constructor; [|apply IH]. cbn [fret]. unfold withinLimit in Hf. lia.
Qed.

Lemma voicingOfShape_complete (useFlats : bool) (rootIndex m : Z)
      (chord : jsstring) (shapeKey : Family) (shape : CagedShape) :
  Forall (withinLimit m (transposeTo rootIndex shapeKey)) (strings shape) ->
  (3 <= List.length (sounded useFlats rootIndex
                             (transposeTo rootIndex shapeKey)
                             (strings shape) 0))%nat ->
  exists v,
    voicingOfShape useFlats rootIndex m chord shapeKey shape = Some v.
Proof.
  intros Hall Hlen.
  pose proof (scan_within useFlats rootIndex m
                (transposeTo rootIndex shapeKey) (strings shape) 0
                (mkScan [] None 0 true) Hall) as Hvalid.
  cbn [sc_validVoicing] in Hvalid.
  pose proof (scan_valid useFlats rootIndex m
                (transposeTo rootIndex shapeKey) (strings shape) 0
                (mkScan [] None 0 true) Hvalid) as (_ & _ & Hpos).
  cbn [sc_positions app] in Hpos.
  unfold voicingOfShape. fold (transposeTo rootIndex shapeKey).
  rewrite Hvalid, Hpos.
  destruct (3 <=? Z.of_nat (List.length _)) eqn:H3; [simpl; eauto|].
  apply Z.leb_gt in H3. lia.
Qed.

(** X1: the fret limit only filters.  With [m <= m'], the voicings returned
    under the limit [m] are those returned under [m'] that have no fret
    above [m]. *)
Theorem generateAllVoicings_limit (useFlats : bool) (chord : jsstring)
        (m m' : Z) (v : Voicing) :
  m <= m' ->
  (In v (generateAllVoicings useFlats chord m) <->
   In v (generateAllVoicings useFlats chord m')
   /\ Forall (fun p => fret p <= m) (positions v)).
Proof.
  intros Hm. split.
  - intros Hin.
    destruct (generateAllVoicings_inv _ _ _ _ Hin)
      as (parsed & entry & shape & Hp & He & Hq & Hv).
    split.
    + eapply generateAllVoicings_intro; eauto.
      eapply voicingOfShape_limit; eauto.
    + pose proof (voicingOfShape_some _ _ _ _ _ _ _ Hv) as (Hpos & Hall & _).
      rewrite Hpos. apply sounded_frets_limit, Hall.
  - intros [Hin Hfrets].
    destruct (generateAllVoicings_inv _ _ _ _ Hin)
      as (parsed & entry & shape & Hp & He & Hq & Hv).
    pose proof (voicingOfShape_some _ _ _ _ _ _ _ Hv)
      as (Hpos & _ & Hlen & _).
    rewrite Hpos in Hfrets, Hlen.
    apply sounded_frets_within in Hfrets.
    destruct (voicingOfShape_complete useFlats _ m chord _ shape Hfrets Hlen)
      as [w Hw].
    pose proof (voicingOfShape_limit _ _ _ _ _ _ _ _ Hw Hm) as Hw'.
    rewrite Hv in Hw'. injection Hw' as <-.
    eapply generateAllVoicings_intro; eauto.
Qed.

Lemma sounded_count (useFlats : bool) (rootIndex transpose : Z)
      (frets : list Z) :
  forall index,
    List.length (sounded useFlats rootIndex transpose frets index)
    = List.length (filter (fun f => f >=? 0) frets).
Proof.
  induction frets as [|f frets IH]; intros index; cbn [sounded filter];
    [reflexivity|].
  destruct (f >=? 0); cbn [List.length]; rewrite IH; reflexivity.
Qed.

(** Every family has a shape for each of the five shape qualities; its
    template frets are at most 3 and at least four strings sound. *)
Lemma CAGED_SHAPES_supported
      (entry : Family * (Quality -> option CagedShape)) (q : Quality) :
  In entry CAGED_SHAPES -> supportedQuality q = true ->
  exists shape,
    snd entry q = Some shape
    /\ Forall (fun f => f <= 3) (strings shape)
    /\ (4 <= List.length (filter (fun f => f >=? 0) (strings shape)))%nat.
Proof.
  intros Hin Hq. simpl in Hin.
  repeat (destruct Hin as [<-|Hin];
          [destruct q; try discriminate Hq; eexists;
           (split; [reflexivity|]);
           (split; [repeat constructor; lia|simpl; lia])|]).
  destruct Hin.
Qed.

Lemma voicingsOfEntry_full (useFlats : bool) (rootIndex maxFret : Z)
      (chord : jsstring) (q : Quality)
      (entry : Family * (Quality -> option CagedShape)) :
  In entry CAGED_SHAPES -> supportedQuality q = true ->
  -1 <= rootIndex <= 11 -> 14 <= maxFret ->
  exists v,
    voicingsOfEntry useFlats rootIndex maxFret chord q entry = [v]
    /\ shapeName v = familyName (fst entry).
Proof.
  intros Hin Hq Hr Hm.
  destruct (CAGED_SHAPES_supported entry q Hin Hq)
    as (shape & Hs & Hfrets & Hcount).
  destruct (CAGED_SHAPES_entry _ _ _ Hin Hs) as (_ & Hname & _).
  pose proof (transposeTo_range rootIndex (fst entry) Hr) as Ht.
  destruct (voicingOfShape_complete useFlats rootIndex maxFret chord
              (fst entry) shape) as [v Hv].
  - eapply Forall_impl; [|exact Hfrets]. unfold withinLimit. intros f Hf.
    right. lia.
  - rewrite sounded_count. lia.
  - exists v. unfold voicingsOfEntry. rewrite Hs, Hv.
    split; [reflexivity|].
    pose proof (voicingOfShape_some _ _ _ _ _ _ _ Hv) as (_ & _ & _ & Hn & _).
    congruence.
Qed.

Lemma flat_map_singletons {X Y} (g : X -> list Y) (l : list X) :
  (forall x, In x l -> exists y, g x = [y]) ->
  List.length (flat_map g l) = List.length l.
Proof.
  induction l as [|x l IH]; intros H; simpl; [reflexivity|].
  destruct (H x (or_introl eq_refl)) as [y Hy]. rewrite Hy. simpl.
  f_equal. apply IH. intros x' Hx'. apply H. right. exact Hx'.
Qed.

Lemma insertByAvg_length (v : Voicing) (l : list Voicing) :
  List.length (insertByAvg v l) = S (List.length l).
Proof.
  induction l as [|w l IH]; simpl; [reflexivity|].
  destruct (Qle_bool (avgFret v - avgFret w) 0); simpl; [reflexivity|].
  rewrite IH. reflexivity.
Qed.

Lemma sortByAvg_length (l : list Voicing) :
  List.length (sortByAvg l) = List.length l.
Proof.
  induction l as [|v l IH]; simpl; [reflexivity|].
  rewrite insertByAvg_length, IH. reflexivity.
Qed.

Lemma five_voicings (useFlats : bool) (chord : jsstring) (maxFret : Z) :
  isChord chord = true -> 14 <= maxFret ->
  List.length (generateAllVoicings useFlats chord maxFret) = 5%nat
  /\ forall shapeKey,
       exists v, In v (generateAllVoicings useFlats chord maxFret)
                 /\ shapeName v = familyName shapeKey.
Proof.
  unfold isChord, generateAllVoicings.
  destruct (parseChordName chord) as [parsed|]; [|discriminate].
  intros _ Hm.
  pose proof (getNoteIndex_range (root parsed)) as Hr.
  pose proof (shapeQualityOf_is_supported (quality parsed)) as Hq.
  split.
  - rewrite sortByAvg_length, pushVoicings_flat_map.
    rewrite (flat_map_singletons _ CAGED_SHAPES); [reflexivity|].
    intros entry Hin.
    destruct (voicingsOfEntry_full useFlats _ maxFret chord _ entry Hin Hq
                Hr Hm) as (v & Hv & _).
    exists v. exact Hv.
  - intros shapeKey.
    assert (Hin : exists entry, In entry CAGED_SHAPES
                                /\ fst entry = shapeKey).
    { destruct shapeKey; simpl; eauto 10. }
    destruct Hin as (entry & Hin & <-).
    destruct (voicingsOfEntry_full useFlats _ maxFret chord _ entry Hin Hq
                Hr Hm) as (v & Hv & Hname).
    exists v. split; [|exact Hname].
    rewrite sortByAvg_In, pushVoicings_flat_map, in_flat_map.
    exists entry. split; [exact Hin|]. rewrite Hv. left. reflexivity.
Qed.

(** X2: with a fret limit of 14 or more (the default is 15) every name that
    parses has exactly five voicings, one of each shape family. *)
Theorem generateAllVoicings_five (useFlats : bool) (chord : jsstring)
        (maxFret : Z) :
  isChord chord = true -> 14 <= maxFret ->
  List.length (generateAllVoicings useFlats chord maxFret) = 5%nat
  /\ forall shapeKey,
       exists v, In v (generateAllVoicings useFlats chord maxFret)
                 /\ shapeName v = familyName shapeKey.
Proof. apply five_voicings. Qed.

Lemma generateAllVoicings_five_witness :
  List.length (generateAllVoicings false (JS.lit "Bbm7") 15) = 5%nat
  /\ forall shapeKey,
       exists v, In v (generateAllVoicings false (JS.lit "Bbm7") 15)
                 /\ shapeName v = familyName shapeKey.
Proof.
  apply (generateAllVoicings_five false (JS.lit "Bbm7") 15);
    [reflexivity|lia].
Defined.

(* ------------------------------------------------------------------ *)
(** ** The summary fields of a voicing *)

Lemma visit_stats (useFlats : bool) (rootIndex maxFret transpose : Z)
      (st : Scan) (f index : Z) :
  scanStats st ->
  scanStats (visit useFlats rootIndex maxFret transpose st f index).
Proof.
  unfold visit. intros H.
  destruct (f >=? 0); [|exact H].
  destruct (f + transpose >? maxFret); [exact H|].
  set (a := f + transpose).
  set (p := mkPos (6 - index) a
                  (noteIndexAt useFlats (6 - index) a =? rootIndex)).
  unfold scanStats in *.
  destruct (a >? 0) eqn:Ha; cbn [sc_minFret sc_maxFretUsed sc_positions].
  - assert (Hpos : 0 < a) by lia.
    destruct (sc_minFret st) as [m|]; cbn [minInf].
    + destruct H as (Hm & Hall & (p1 & Hp1 & Hf1) & (p2 & Hp2 & Hf2)).
      split; [lia|]. split; [|split].
      * apply Forall_app. split.
        -- eapply Forall_impl; [|exact Hall]. cbv beta. intros q Hq. lia.
        -- constructor; [|constructor]. unfold p; cbn [fret]. right. lia.
      * destruct (Z.min_spec m a) as [[_ ->]|[_ ->]].
        -- exists p1. split; [apply in_or_app; left; exact Hp1|exact Hf1].
        -- exists p. split; [apply in_or_app; right; left; reflexivity|].
           reflexivity.
      * destruct (Z.max_spec (sc_maxFretUsed st) a) as [[_ ->]|[_ ->]].
        -- exists p. split; [apply in_or_app; right; left; reflexivity|].
           reflexivity.
        -- exists p2. split; [apply in_or_app; left; exact Hp2|exact Hf2].
    + destruct H as (Hmax & Hall). rewrite Hmax.
      rewrite Z.max_r by lia.
      split; [lia|]. split; [|split].
      * apply Forall_app. split.
        -- eapply Forall_impl; [|exact Hall]. cbv beta. intros q Hq. lia.
        -- constructor; [|constructor]. unfold p; cbn [fret]. right. lia.
      * exists p. split; [apply in_or_app; right; left; reflexivity|].
        reflexivity.
      * exists p. split; [apply in_or_app; right; left; reflexivity|].
        reflexivity.
  - assert (Hpos : a <= 0) by lia.
    destruct (sc_minFret st) as [m|].
    + destruct H as (Hm & Hall & (p1 & Hp1 & Hf1) & (p2 & Hp2 & Hf2)).
      split; [lia|]. split; [|split].
      * apply Forall_app. split; [exact Hall|].
        constructor; [|constructor]. unfold p; cbn [fret]. left. lia.
      * exists p1. split; [apply in_or_app; left; exact Hp1|exact Hf1].
      * exists p2. split; [apply in_or_app; left; exact Hp2|exact Hf2].
    + destruct H as (Hmax & Hall). split; [exact Hmax|].
      apply Forall_app. split; [exact Hall|].
      constructor; [|constructor]. unfold p; cbn [fret]. exact Hpos.
Qed.

Lemma scan_stats (useFlats : bool) (rootIndex maxFret transpose : Z)
      (frets : list Z) :
  forall index st,
    scanStats st ->
    scanStats (forEachIdx (visit useFlats rootIndex maxFret transpose)
                          frets index st).
Proof.
  induction frets as [|f frets IH]; intros index st H; simpl; [exact H|].
  apply IH, visit_stats, H.
Qed.

Lemma highestFret_bound (ps : list Position) (M : Z) :
  0 <= M -> Forall (fun p => fret p <= M) ps -> highestFret ps <= M.
Proof.
  intros HM. induction 1 as [|p ps Hp Hall IH]; simpl; lia.
Qed.

Lemma highestFret_reach (ps : list Position) (p : Position) :
  In p ps -> fret p <= highestFret ps.
Proof.
  induction ps as [|q ps IH]; simpl; [intros []|].
  intros [->|Hin]; [lia|]. specialize (IH Hin). lia.
Qed.

Lemma highestFret_nonneg (ps : list Position) : 0 <= highestFret ps.
Proof. induction ps as [|q ps IH]; simpl; lia. Qed.

Lemma sumFrets_acc (ps : list Position) :
  forall acc,
    fold_left (fun sum p => sum + fret p) ps acc
    = acc + fold_left (fun sum p => sum + fret p) ps 0.
Proof.
  induction ps as [|p ps IH]; intros acc; simpl; [lia|].
  rewrite (IH (acc + fret p)), (IH (fret p)). lia.
Qed.

Lemma sumFrets_cons (p : Position) (ps : list Position) :
  sumFrets (p :: ps) = fret p + sumFrets ps.
Proof. unfold sumFrets. simpl. apply sumFrets_acc. Qed.

Lemma sumFrets_bounds (ps : list Position) (M : Z) :
  Forall (fun p => 0 <= fret p <= M) ps ->
  0 <= sumFrets ps <= Z.of_nat (List.length ps) * M.
Proof.
  induction 1 as [|p ps Hp Hall IH].
  - unfold sumFrets. simpl. lia.
  - rewrite sumFrets_cons. cbn [List.length]. rewrite Nat2Z.inj_succ. lia.
Qed.

Lemma avg_bounds (s n M : Z) :
  0 < n -> 0 <= s <= n * M ->
  (0 <= inject_Z s / inject_Z n <= inject_Z M)%Q.
Proof.
  intros Hn Hs.
  assert (Hq : (0 < inject_Z n)%Q)
    by (change 0%Q with (inject_Z 0); rewrite <- Zlt_Qlt; exact Hn).
  split.
  - apply Qle_shift_div_l; [exact Hq|]. rewrite Qmult_0_l.
    change 0%Q with (inject_Z 0). rewrite <- Zle_Qle. lia.
  - apply Qle_shift_div_r; [exact Hq|]. rewrite <- inject_Z_mult.
    rewrite <- Zle_Qle. lia.
Qed.

Lemma voicingOfShape_fields (useFlats : bool) (rootIndex maxFret : Z)
      (chord : jsstring) (shapeKey : Family) (shape : CagedShape)
      (v : Voicing) :
  voicingOfShape useFlats rootIndex maxFret chord shapeKey shape = Some v ->
  exists st,
    scanStats st
    /\ positions v = sc_positions st
    /\ baseFret v = match sc_minFret st with None => 0 | Some m => m end
    /\ fretSpan v = sc_maxFretUsed st - baseFret v.
Proof.
  unfold voicingOfShape. set (st := forEachIdx _ _ _ _).
  destruct (sc_validVoicing st && _)%bool; [|discriminate].
  intros [= <-]. exists st. cbn [positions baseFret fretSpan].
  split; [|auto].
  apply scan_stats. simpl. split; [reflexivity|constructor].
Qed.

(** The frets of a returned voicing lie between the transpose and the
    transpose plus 3. *)
Lemma generateAllVoicings_frets (useFlats : bool) (chord : jsstring)
      (maxFret : Z) (v : Voicing) :
  In v (generateAllVoicings useFlats chord maxFret) ->
  exists t, 0 <= t < 12
            /\ Forall (fun p => t <= fret p <= t + 3) (positions v).
Proof.
  intros Hin.
  destruct (generateAllVoicings_inv _ _ _ _ Hin)
    as (parsed & entry & shape & Hp & He & Hq & Hv).
  pose proof (voicingOfShape_some _ _ _ _ _ _ _ Hv) as (Hpos & _).
  destruct (CAGED_SHAPES_supported entry _ He
              (shapeQualityOf_is_supported (quality parsed)))
    as (shape' & Hq' & Hfrets & _).
  rewrite Hq in Hq'. injection Hq' as <-.
  exists (transposeTo (getNoteIndex (root parsed)) (fst entry)).
  split; [apply transposeTo_range, getNoteIndex_range|].
  rewrite Hpos. eapply Forall_impl; [|apply sounded_positions].
  cbv beta. intros p (_ & (f & Hf & Hf0 & ->) & _).
  rewrite Forall_forall in Hfrets. specialize (Hfrets f Hf). lia.
Qed.

(** X3: the summary fields of a returned voicing.  [baseFret + fretSpan] is
    its highest fret, [baseFret] is a fret it uses and every fretted string
    is at [baseFret] or above, the span is at most 3 frets, and [avgFret]
    lies between 0 and the highest fret. *)
Theorem voicing_summary (useFlats : bool) (chord : jsstring) (maxFret : Z)
        (v : Voicing) :
  In v (generateAllVoicings useFlats chord maxFret) ->
  baseFret v + fretSpan v = highestFret (positions v)
  /\ (exists p, In p (positions v) /\ fret p = baseFret v)
  /\ Forall (fun p => fret p = 0 \/ baseFret v <= fret p) (positions v)
  /\ 0 <= fretSpan v <= 3
  /\ (0 <= avgFret v <= inject_Z (highestFret (positions v)))%Q.
Proof.
  intros Hin.
  destruct (generateAllVoicings_frets _ _ _ _ Hin) as (t & Ht & Hrange).
  destruct (generateAllVoicings_inv _ _ _ _ Hin)
    as (parsed & entry & shape & Hp & He & Hq & Hv).
  pose proof (voicingOfShape_some _ _ _ _ _ _ _ Hv)
    as (_ & _ & Hlen & _ & _ & Havg).
  destruct (voicingOfShape_fields _ _ _ _ _ _ _ Hv)
    as (st & Hst & Hpos & Hbase & Hspan).
  unfold scanStats in Hst. rewrite <- Hpos in Hst.
  rewrite Forall_forall in Hrange.
  assert (Hhigh : baseFret v + fretSpan v = highestFret (positions v)
                  /\ (exists p, In p (positions v) /\ fret p = baseFret v)
                  /\ Forall (fun p => fret p = 0 \/ baseFret v <= fret p)
                            (positions v)
                  /\ 0 <= fretSpan v <= 3).
  { destruct (sc_minFret st) as [m|].
    - destruct Hst as (Hm & Hall & (p1 & Hp1 & Hf1) & (p2 & Hp2 & Hf2)).
      pose proof (Hrange p1 Hp1) as H1. pose proof (Hrange p2 Hp2) as H2.
      split; [|split; [|split]].
      + rewrite Hspan. apply Z.le_antisymm.
        * pose proof (highestFret_reach _ _ Hp2). lia.
        * assert (highestFret (positions v) <= sc_maxFretUsed st); [|lia].
          apply highestFret_bound; [lia|].
          eapply Forall_impl; [|exact Hall]. cbv beta. intros q Hq'. lia.
      + exists p1. split; [exact Hp1|lia].
      + apply Forall_forall. intros q Hq'.
        rewrite Forall_forall in Hall. specialize (Hall q Hq').
        specialize (Hrange q Hq'). lia.
      + lia.
    - destruct Hst as (Hmax & Hall).
      assert (Hzero : forall q, In q (positions v) -> fret q = 0).
      { intros q Hq'. rewrite Forall_forall in Hall.
        specialize (Hall q Hq'). specialize (Hrange q Hq'). lia. }
      destruct (positions v) as [|p0 ps] eqn:Hps; [simpl in Hlen; lia|].
      split; [|split; [|split]].
      + rewrite Hspan, Hmax, Hbase. apply Z.le_antisymm.
        * apply highestFret_nonneg.
        * apply highestFret_bound; [lia|]. apply Forall_forall.
          intros q Hq'. rewrite (Hzero q Hq'). lia.
      + exists p0. split; [left; reflexivity|].
        rewrite Hbase. apply Hzero. left. reflexivity.
      + apply Forall_forall. intros q Hq'. left. apply Hzero, Hq'.
      + lia. }
  destruct Hhigh as (H1 & H2 & H3 & H4).
  repeat (split; [assumption|]).
  rewrite Havg. apply avg_bounds; [lia|].
  apply sumFrets_bounds. apply Forall_forall. intros q Hq'.
  pose proof (highestFret_reach _ _ Hq'). specialize (Hrange q Hq'). lia.
Qed.

Lemma voicing_summary_witness :
  exists v,
    hd_error (generateAllVoicings false (JS.lit "C") 15) = Some v
    /\ baseFret v + fretSpan v = highestFret (positions v)
    /\ (exists p, In p (positions v) /\ fret p = baseFret v)
    /\ Forall (fun p => fret p = 0 \/ baseFret v <= fret p) (positions v)
    /\ 0 <= fretSpan v <= 3
    /\ (0 <= avgFret v <= inject_Z (highestFret (positions v)))%Q.
Proof.
  eexists. split; [vm_compute; reflexivity|].
  apply (voicing_summary false (JS.lit "C") 15).
  vm_compute. left. reflexivity.
Defined.

Lemma generateAllVoicings_limit_witness :
  exists v,
    hd_error (generateAllVoicings false (JS.lit "Am") 3) = Some v
    /\ (In v (generateAllVoicings false (JS.lit "Am") 3) <->
        In v (generateAllVoicings false (JS.lit "Am") 15)
        /\ Forall (fun p => fret p <= 3) (positions v)).
Proof.
  eexists. split; [vm_compute; reflexivity|].
  apply (generateAllVoicings_limit false (JS.lit "Am") 3 15). lia.
Defined.

(* ------------------------------------------------------------------ *)
(** ** When the optimiser returns and when it throws *)

Lemma relaxStep_dead (vj : Voicing) (l : list (Voicing * Cell)) :
  Forall (fun pk => cost (snd pk) = Infinity) l ->
  forall i cell, forEachIdx (relaxStep vj) l i cell = cell.
Proof.
  induction 1 as [|pk l Hpk Hall IH]; intros i cell; simpl; [reflexivity|].
  rewrite IH. unfold relaxStep. rewrite Hpk. reflexivity.
Qed.

Lemma combine_snd_Forall {X Y} (P : Y -> Prop) (l1 : list X) (l2 : list Y) :
  Forall P l2 -> Forall (fun pk => P (snd pk)) (combine l1 l2).
Proof.
  intros H. revert l1. induction H as [|y l2 Hy Hall IH]; intros [|x l1];
    simpl; constructor; auto.
Qed.

Lemma relax_dead (pvs : list Voicing) (prow : list Cell) (vj : Voicing) :
  pvs = [] \/ Forall (fun cell => cost cell = Infinity) prow ->
  relax pvs prow vj = mkCell Infinity (-1).
Proof.
  intros H. unfold relax. apply relaxStep_dead.
  destruct H as [->|H]; [constructor|].
  apply (combine_snd_Forall (fun cell => cost cell = Infinity) pvs prow H).
Qed.

Lemma deadRow_infinite (row : list Cell) :
  deadRow row -> Forall (fun cell => cost cell = Infinity) row.
Proof.
  intros H. eapply Forall_impl; [|exact H]. intros cell ->. reflexivity.
Qed.

Lemma map_relax_dead (pvs vs : list Voicing) (prow : list Cell) :
  pvs = [] \/ Forall (fun cell => cost cell = Infinity) prow ->
  deadRow (map (relax pvs prow) vs).
Proof.
  intros H. unfold deadRow. apply Forall_forall. intros cell Hc.
  apply in_map_iff in Hc as (v & <- & _). apply relax_dead, H.
Qed.

(** Below an empty candidate set, or a row without a finite cost, the last
    row of the table is as initialised. *)
Lemma fillDP_last_dead (rest : list (list Voicing)) :
  forall pvs prow,
    rest <> [] ->
    (pvs = [] \/ Forall (fun cell => cost cell = Infinity) prow)
    \/ Exists (fun c => c = []) rest ->
    deadRow (last (fillDP pvs prow rest) []).
Proof.
  induction rest as [|vs rest IH]; intros pvs prow Hne H; [contradiction|].
  cbn [fillDP]. destruct rest as [|vs' rest'].
  - cbn [fillDP last]. destruct H as [H|H]; [apply map_relax_dead, H|].
    inversion H as [? ? Hvs|? ? Hex]; [subst; constructor|inversion Hex].
  - change (deadRow (last (fillDP vs (map (relax pvs prow) vs) (vs' :: rest'))
                          [])).
    apply IH; [discriminate|].
    destruct H as [H|H].
    + left. right. apply deadRow_infinite, map_relax_dead, H.
    + inversion H as [? ? Hvs|? ? Hex]; [left; left; exact Hvs|right].
      exact Hex.
Qed.

Lemma bestStep_dead (row : list Cell) :
  Forall (fun cell => cost cell = Infinity) row ->
  forall i st, forEachIdx bestStep row i st = st.
Proof.
  induction 1 as [|cell row Hc Hall IH]; intros i st; simpl; [reflexivity|].
  rewrite IH. unfold bestStep. rewrite Hc. reflexivity.
Qed.

(** The optimiser throws when a chord has no candidate. *)
Lemma optimizeFrom_throws (preferredFret : Q)
      (allVoicings : list (list Voicing)) :
  Exists (fun c => c = []) allVoicings ->
  optimizeFrom preferredFret allVoicings = None.
Proof.
  intros Hex.
  destruct allVoicings as [|c0 [|c1 rest]].
  - inversion Hex.
  - inversion Hex as [? ? Hc|? ? H]; [subst; reflexivity|inversion H].
  - set (all := c0 :: c1 :: rest) in *.
    set (dp := dpTable preferredFret all).
    assert (Hlen : List.length all = List.length dp).
    { unfold dp, all. cbn [dpTable List.length]. rewrite fillDP_length.
      reflexivity. }
    assert (Hdead : deadRow (last dp [])).
    { unfold dp, all. cbn [dpTable].
      change (deadRow (last (fillDP c0 (firstLayer preferredFret c0)
                                    (c1 :: rest)) [])).
      apply fillDP_last_dead; [discriminate|].
      inversion Hex as [? ? Hc|? ? H]; [left; left; exact Hc|right; exact H]. }
    assert (Hsnd : map snd (rev (combine all dp)) = rev dp)
      by (rewrite map_rev, map_snd_combine by exact Hlen; reflexivity).
    assert (Hrows : List.length (rev (combine all dp))
                    = S (S (List.length rest))).
    { rewrite length_rev, length_combine, <- Hlen, Nat.min_id.
      reflexivity. }
    change (optimizeFrom preferredFret all)
      with (backtrack (rev (combine all dp)) (bestEnding (last dp [])) []).
    unfold bestEnding.
    rewrite (bestStep_dead _ (deadRow_infinite _ Hdead)). cbn [snd].
    destruct (rev (combine all dp)) as [|[vsn rown] [|r2 below]];
      try discriminate Hrows.
    cbn [map snd] in Hsnd.
    assert (Hlast : last dp [] = rown).
    { apply (f_equal (@rev _)) in Hsnd. rewrite rev_involutive in Hsnd.
      rewrite <- Hsnd. cbn [rev]. apply last_last. }
    rewrite Hlast in Hdead. destruct r2 as [vs2 row2].
    destruct rown as [|cell rown']; [reflexivity|].
    inversion Hdead as [|? ? Hcell _]; subst. reflexivity.
Qed.

Lemma candidatesOf_incl (useFlats : bool) (preferredFret fretRange : Q)
      (chord : jsstring) (v : Voicing) :
  In v (candidatesOf useFlats preferredFret fretRange chord) ->
  In v (generateAllVoicings useFlats chord 15).
Proof.
  unfold candidatesOf. cbv zeta.
  destruct (existsb _ _); [|auto].
  intros Hin. apply filter_In in Hin. tauto.
Qed.

Lemma candidatesOf_empty (useFlats : bool) (preferredFret fretRange : Q)
      (chord : jsstring) :
  candidatesOf useFlats preferredFret fretRange chord = [] <->
  isChord chord = false.
Proof.
  unfold candidatesOf. cbv zeta. rewrite filter_existsb. split.
  - destruct (filter _ _); [|discriminate]. intros Hgen.
    destruct (isChord chord) eqn:Hc; [|reflexivity].
    pose proof (five_voicings useFlats chord 15 Hc ltac:(lia))
      as [Hlen _].
    rewrite Hgen in Hlen. discriminate Hlen.
  - unfold isChord, generateAllVoicings.
    destruct (parseChordName chord); [discriminate|reflexivity].
Qed.

Lemma generateAllVoicings_chordName (useFlats : bool) (chord : jsstring)
      (maxFret : Z) (v : Voicing) :
  In v (generateAllVoicings useFlats chord maxFret) -> chordName v = chord.
Proof.
  intros Hin.
  destruct (generateAllVoicings_inv _ _ _ _ Hin)
    as (parsed & entry & shape & _ & _ & _ & Hv).
  apply voicingOfShape_some in Hv. tauto.
Qed.

Lemma chords_rejected (useFlats : bool)
        (preferredFret fretRange : Q) (chordNames : list jsstring) :
  Exists (fun chord => isChord chord = false) chordNames ->
  optimizeProgression useFlats preferredFret fretRange chordNames = None.
Proof.
  intros Hex. unfold optimizeProgression.
  destruct chordNames as [|c cs]; [inversion Hex|].
  apply optimizeFrom_throws. rewrite candidates_candidatesOf.
  apply Exists_exists in Hex as (chord & Hin & Hc).
  apply Exists_exists. exists (candidatesOf useFlats preferredFret fretRange
                                            chord).
  split; [apply in_map, Hin|]. apply candidatesOf_empty, Hc.
Qed.

(** X4: [optimizeProgression] throws when one of the names is not a chord
    name, in any position of a list of any length. *)
Theorem optimizeProgression_throws (useFlats : bool)
        (preferredFret fretRange : Q) (chordNames : list jsstring) :
  Exists (fun chord => isChord chord = false) chordNames ->
  optimizeProgression useFlats preferredFret fretRange chordNames = None.
Proof. apply chords_rejected. Qed.

Lemma optimizeProgression_throws_witness :
  optimizeProgression false (inject_Z 5) (inject_Z 7)
    (map JS.lit ["Am"; "Hm"; "G"]%string) = None.
Proof.
  apply optimizeProgression_throws. right. left. reflexivity.
Defined.

Lemma chords_optimized (useFlats : bool)
      (preferredFret fretRange : Q) (chordNames : list jsstring) :
  Forall (fun chord => isChord chord = true) chordNames ->
  exists result,
    optimizeProgression useFlats preferredFret fretRange chordNames
    = Some (map Some result)
    /\ Forall2 (fun v chord =>
                  In v (generateAllVoicings useFlats chord 15)
                  /\ chordName v = chord)
               result chordNames.
Proof.
  intros Hall. destruct chordNames as [|c cs].
  - exists []. split; [reflexivity|constructor].
  - assert (Hne : candidates useFlats preferredFret fretRange (c :: cs) <> [])
      by (rewrite candidates_candidatesOf; discriminate).
    assert (Hfull : Forall (fun cand => cand <> [])
                      (candidates useFlats preferredFret fretRange (c :: cs))).
    { rewrite candidates_candidatesOf. apply Forall_forall.
      intros cand Hin. apply in_map_iff in Hin as (chord & <- & Hin).
      rewrite Forall_forall in Hall. specialize (Hall chord Hin).
      intros Hempty. apply candidatesOf_empty in Hempty. congruence. }
    destruct (optimizeFrom_optimal preferredFret _ Hne Hfull)
      as (result & Hres & Hch & _).
    exists result. split; [exact Hres|].
    rewrite candidates_candidatesOf in Hch. unfold chosen in Hch.
    clear Hres Hne Hfull Hall.
    remember (c :: cs) as names eqn:Hn. clear Hn c cs.
    revert result Hch. induction names as [|chord names IH];
      intros result Hch; inversion Hch; subst; constructor.
    + match goal with H : In _ (candidatesOf _ _ _ _) |- _ =>
        apply candidatesOf_incl in H; split;
        [exact H|eapply generateAllVoicings_chordName, H] end.
    + apply IH. assumption.
Qed.



Lemma parseProgression_chords (input : jsstring) :
  Forall (fun t => isChord t = true) (parseProgression input).
Proof.
  destruct (parseProgression_cases input) as [->|(_ & -> & Hall)].
  - apply Forall_forall. intros t Ht. apply filter_In in Ht. tauto.
  - apply Forall_forall. rewrite forallb_forall in Hall. exact Hall.
Qed.

(** X6: what [parseProgression] returns can be handed to
    [optimizeProgression]: the call does not throw and returns one voicing
    for each parsed chord. *)
Theorem optimizeProgression_parseProgression (useFlats : bool)
        (preferredFret fretRange : Q) (input : jsstring) :
  exists result,
    optimizeProgression useFlats preferredFret fretRange
                        (parseProgression input)
    = Some (map Some result)
    /\ List.length result = List.length (parseProgression input).
Proof.
  assert (Hall : Forall (fun t => isChord t = true) (parseProgression input)).
  { destruct (parseProgression_cases input) as [->|(_ & -> & Hall)].
    - apply Forall_forall. intros t Ht. apply filter_In in Ht. tauto.
    - apply Forall_forall. rewrite forallb_forall in Hall. exact Hall. }
  destruct (chords_optimized useFlats preferredFret fretRange
              _ Hall) as (result & Hres & Hf2).
  exists result. split; [exact Hres|]. apply (Forall2_length Hf2).
Qed.

(* ------------------------------------------------------------------ *)
(** ** The single-voicing resolver, continued *)

Lemma JS_eqb_eq (a b : jsstring) : JS.eqb a b = true <-> a = b.
Proof.
  revert b. induction a as [|x a IH]; intros [|y b]; simpl;
    try (split; [discriminate|discriminate]); [tauto|].
  rewrite andb_true_iff, N.eqb_eq, IH. split.
  - intros [-> ->]. reflexivity.
  - intros [= -> ->]. auto.
Qed.

Lemma JS_eqb_refl (a : jsstring) : JS.eqb a a = true.
Proof. apply JS_eqb_eq. reflexivity. Qed.

Lemma lookup_key {X} (tbl : list (jsstring * X)) (k : jsstring) (v : X) :
  lookup tbl k = Some v -> In (k, v) tbl.
Proof.
  induction tbl as [|[k' v'] tbl IH]; simpl; [discriminate|].
  destruct (JS.eqb k' k) eqn:Hk.
  - intros [= ->]. apply JS_eqb_eq in Hk. subst. left. reflexivity.
  - intros H. right. apply IH, H.
Qed.

(** On a string 1..6 and a fret from 0 up, [getNoteAtPosition] spells the
    pitch class of the position. *)
Lemma getNoteAtPosition_spelled (useFlats : bool) (stringNum fretNum o : Z) :
  OPEN_STRING_NOTES stringNum = Some o -> 0 <= fretNum ->
  getNoteAtPosition useFlats stringNum fretNum
  = Some (spelledName useFlats ((o + fretNum) mod 12)).
Proof.
  intros Ho Hf. destruct (OPEN_STRING_NOTES_range _ _ Ho) as [_ Hr].
  unfold getNoteAtPosition. rewrite Ho. unfold jsrem.
  rewrite Z.rem_mod_nonneg by lia.
  pose proof (Z.mod_pos_bound (o + fretNum) 12 ltac:(lia)) as Hb.
  set (i := (o + fretNum) mod 12) in *.
  assert (Hc : i = 0 \/ i = 1 \/ i = 2 \/ i = 3 \/ i = 4 \/ i = 5 \/ i = 6
               \/ i = 7 \/ i = 8 \/ i = 9 \/ i = 10 \/ i = 11) by lia.
  destruct useFlats;
    repeat (destruct Hc as [->|Hc]; [reflexivity|]); subst i; rewrite Hc;
    reflexivity.
Qed.

(** The root test of [shapeToPositions] is the test on note indices, also
    for a root of one letter and for a root the note table lacks. *)
Lemma resolver_isRoot (useFlats : bool) (root : jsstring) (i : Z) :
  0 <= i < 12 ->
  (JS.eqb (spelledName useFlats i) root
   || ((1 <? Z.of_nat (List.length root)) && (i =? getNoteIndex root)))%bool
  = (i =? getNoteIndex root).
Proof.
  intros Hi.
  destruct (JS.eqb (spelledName useFlats i) root) eqn:Hn.
  - apply JS_eqb_eq in Hn. subst root. cbn [orb]. symmetry.
    apply Z.eqb_eq.
    pose proof (spelledIndex_pitch useFlats i Hi) as Hs.
    unfold spelledIndex in Hs.
    destruct (i <? 0) eqn:Hneg; [apply Z.ltb_lt in Hneg; lia|].
    unfold spelledName.
    destruct (nth_error NOTE_NAMES (Z.to_nat i)) as [n|] eqn:Hnth.
    + rewrite (nth_error_nth _ _ _ Hnth). symmetry. exact Hs.
    + apply nth_error_None in Hnth. simpl in Hnth. lia.
  - cbn [orb]. destruct (1 <? Z.of_nat (List.length root)) eqn:Hlen;
      [reflexivity|].
    cbn [andb]. symmetry. apply Z.eqb_neq. intros Heq.
    unfold getNoteIndex in Heq.
    destruct (lookup noteMap root) as [j|] eqn:Hl; [|lia]. subst j.
    apply lookup_key in Hl. apply Z.ltb_ge in Hlen.
    assert (Hc : i = 0 \/ i = 1 \/ i = 2 \/ i = 3 \/ i = 4 \/ i = 5 \/ i = 6
                 \/ i = 7 \/ i = 8 \/ i = 9 \/ i = 10 \/ i = 11) by lia.
    simpl in Hl.
    repeat (destruct Hl as [Hl|Hl];
            [injection Hl as <- <-; first
               [ simpl in Hlen; lia
               | destruct useFlats; discriminate Hn ]|]).
    destruct Hl.
Qed.

Lemma shapeToPositions_loop (useFlats : bool) (root : jsstring)
      (transpose : Z) (frets : list Z) :
  0 <= transpose ->
  forall index acc,
    0 <= index -> index + Z.of_nat (List.length frets) <= 6 ->
    forEachIdx
      (fun positions fret index =>
         let stringNum := 6 - index in
         if fret >=? 0 then
           let actualFret := fret + transpose in
           let noteAtPosition :=
             getNoteAtPosition useFlats stringNum actualFret in
           let isRoot :=
             (match noteAtPosition with
              | Some n => JS.eqb n root
              | None => false
              end
              || ((1 <? Z.of_nat (List.length root))
                  && (noteIndexAt useFlats stringNum actualFret
                      =? getNoteIndex root)))%bool in
           (positions ++ [mkPos stringNum actualFret isRoot])%list
         else positions)
      frets index acc
    = (acc ++ sounded useFlats (getNoteIndex root) transpose frets index)%list.
Proof.
  intros Ht. induction frets as [|f frets IH]; intros index acc Hi Hlen.
  - simpl. rewrite app_nil_r. reflexivity.
  - cbn [List.length] in Hlen. rewrite Nat2Z.inj_succ in Hlen.
    cbn [forEachIdx sounded]. rewrite IH by lia.
    destruct (f >=? 0) eqn:Hf; [|reflexivity].
    rewrite <- app_assoc. cbn [app]. do 3 f_equal.
    destruct (OPEN_STRING_NOTES_defined (6 - index)) as [o Ho]; [lia|].
    rewrite (getNoteAtPosition_spelled useFlats _ _ o Ho) by lia.
    rewrite (noteIndexAt_pitch useFlats _ _ o Ho) by lia.
    apply resolver_isRoot. apply Z.mod_pos_bound. lia.
Qed.

(** The positions of the resolver are the sounded strings of its shape,
    with the root flag of the generator. *)
Lemma shapeToPositions_sounded (useFlats : bool) (shape : ChordShape)
      (transpose : Z) (root : jsstring) :
  0 <= transpose -> (List.length (cs_strings shape) <= 6)%nat ->
  shapeToPositions useFlats (shape, transpose) root
  = sounded useFlats (getNoteIndex root) transpose (cs_strings shape) 0.
Proof.
  intros Ht Hlen. unfold shapeToPositions. cbn [fst snd].
  rewrite shapeToPositions_loop by lia. reflexivity.
Qed.

(** Every stored shape has six strings, template frets of at most 3 and at
    least four sounded strings. *)
Lemma CHORD_SHAPES_entries :
  Forall (fun shape =>
            List.length (cs_strings shape) = 6%nat
            /\ Forall (fun f => f <= 3) (cs_strings shape)
            /\ (4 <= List.length (filter (fun f => f >=? 0)
                                         (cs_strings shape)))%nat)
         (map snd CHORD_SHAPES).
Proof.
  simpl. repeat (constructor;
                 [split; [reflexivity|split;
                          [repeat constructor; lia|simpl; lia]]|]).
  constructor.
Qed.

Lemma orElse_In {X} (a b : option X) (x : X) (l : list X) :
  orElse a b = Some x ->
  (forall y, a = Some y -> In y l) -> (forall y, b = Some y -> In y l) ->
  In x l.
Proof. destruct a; simpl; intros H Ha Hb; auto. Qed.

Lemma lookup_In_snd {X} (tbl : list (jsstring * X)) (k : jsstring) (v : X) :
  lookup tbl k = Some v -> In v (map snd tbl).
Proof. intros H. apply lookup_key in H. apply (in_map snd) in H. exact H. Qed.

(** What [findChordShape] returns: a stored shape and a transpose between
    0 and 11. *)
Lemma findChordShape_inv (root : jsstring) (q : Quality) (shape : ChordShape)
      (transpose : Z) :
  findChordShape root q = Some (shape, transpose) ->
  In shape (map snd CHORD_SHAPES) /\ 0 <= transpose < 12.
Proof.
  unfold findChordShape.
  pose proof (getNoteIndex_range root) as Hr.
  assert (HE : 0 <= transposedFromE root < 12).
  { unfold transposedFromE, jsrem.
    change (getNoteIndex (JS.lit "E")) with 4.
    apply Z.rem_bound_pos; lia. }
  assert (HA : 0 <= transposedFromA root < 12).
  { unfold transposedFromA, jsrem.
    change (getNoteIndex (JS.lit "A")) with 9.
    apply Z.rem_bound_pos; lia. }
  destruct (if existsb (JS.eqb root) openChords
            then lookup CHORD_SHAPES (root ++ JS.lit "_" ++ qualityName q)
            else None) as [sh|] eqn:Hopen.
  - intros [= <- <-]. split; [|lia].
    destruct (existsb (JS.eqb root) openChords); [|discriminate].
    eapply lookup_In_snd, Hopen.
  - destruct (transposedFromE root <=? 7).
    + destruct (orElse _ _) as [sh|] eqn:Hor; [|discriminate].
      intros [= <- <-]. split; [|exact HE].
      eapply orElse_In; [exact Hor| |]; intros y Hy;
        eapply lookup_In_snd, Hy.
    + destruct (orElse _ _) as [sh|] eqn:Hor; [|discriminate].
      intros [= <- <-]. split; [|exact HA].
      eapply orElse_In; [exact Hor| |]; intros y Hy;
        eapply lookup_In_snd, Hy.
Qed.

(** [findChordShape] always finds a shape: the fallback to
    [generateBasicVoicing] is never taken. *)
Lemma findChordShape_total (root : jsstring) (q : Quality) :
  exists shape transpose, findChordShape root q = Some (shape, transpose).
Proof.
  unfold findChordShape.
  destruct (if existsb (JS.eqb root) openChords
            then lookup CHORD_SHAPES (root ++ JS.lit "_" ++ qualityName q)
            else None) as [sh|]; [eauto|].
  destruct (transposedFromE root <=? 7); destruct q; simpl; eauto.
Qed.

Lemma calculateChordPositions_sounded (useFlats : bool) (chord : jsstring)
      (parsed : ChordSymbol) :
  parseChordName chord = Some parsed ->
  exists shape transpose,
    findChordShape (root parsed) (quality parsed) = Some (shape, transpose)
    /\ 0 <= transpose < 12
    /\ List.length (cs_strings shape) = 6%nat
    /\ Forall (fun f => f <= 3) (cs_strings shape)
    /\ (4 <= List.length (filter (fun f => f >=? 0) (cs_strings shape)))%nat
    /\ calculateChordPositions useFlats chord
       = shapeToPositions useFlats (shape, transpose) (root parsed)
    /\ calculateChordPositions useFlats chord
       = sounded useFlats (getNoteIndex (root parsed)) transpose
                 (cs_strings shape) 0.
Proof.
  intros Hp.
  destruct (findChordShape_total (root parsed) (quality parsed))
    as (shape & t & Hs).
  destruct (findChordShape_inv _ _ _ _ Hs) as (Hin & Ht).
  pose proof CHORD_SHAPES_entries as Hall. rewrite Forall_forall in Hall.
  destruct (Hall shape Hin) as (Hlen & Hfrets & Hcount).
  exists shape, t. unfold calculateChordPositions. rewrite Hp, Hs.
  split; [reflexivity|]. do 4 (split; [assumption|]).
  split; [reflexivity|].
  apply shapeToPositions_sounded; lia.
Qed.

(** X7: [calculateChordPositions] returns no position exactly when the name
    does not parse; for a name that parses [findChordShape] finds a stored
    shape, so the positions are those of [shapeToPositions] and
    [generateBasicVoicing] is not used. *)
Theorem calculateChordPositions_resolved (useFlats : bool)
        (chord : jsstring) :
  (calculateChordPositions useFlats chord = [] <-> isChord chord = false)
  /\ forall parsed,
       parseChordName chord = Some parsed ->
       exists shape transpose,
         findChordShape (root parsed) (quality parsed)
         = Some (shape, transpose)
         /\ calculateChordPositions useFlats chord
            = shapeToPositions useFlats (shape, transpose) (root parsed).
Proof.
  split.
  - unfold isChord.
    destruct (parseChordName chord) as [parsed|] eqn:Hp.
    + destruct (calculateChordPositions_sounded useFlats chord parsed Hp)
        as (shape & t & _ & _ & _ & _ & Hcount & _ & Heq).
      split; [|discriminate]. intros Hnil.
      apply (f_equal (@List.length _)) in Hnil.
      rewrite Heq, sounded_count in Hnil. simpl in Hnil. lia.
    + unfold calculateChordPositions. rewrite Hp. tauto.
  - intros parsed Hp.
    destruct (calculateChordPositions_sounded useFlats chord parsed Hp)
      as (shape & t & Hs & _ & _ & _ & _ & Heq & _).
    exists shape, t. auto.
Qed.

(** X8: the positions [calculateChordPositions] computes for a name that
    parses: four to six of them, on strings 6 down to 1 in strictly
    decreasing order, at frets 0..14, with [isRoot] set exactly where the
    pitch class of the position is the note index of the root. *)
Theorem calculateChordPositions_positions (useFlats : bool)
        (chord : jsstring) (parsed : ChordSymbol) :
  parseChordName chord = Some parsed ->
  (4 <= List.length (calculateChordPositions useFlats chord) <= 6)%nat
  /\ StronglySorted (fun p q => stringNum q < stringNum p)
                    (calculateChordPositions useFlats chord)
  /\ Forall (fun p =>
               1 <= stringNum p <= 6 /\ 0 <= fret p <= 14
               /\ exists o,
                    OPEN_STRING_NOTES (stringNum p) = Some o
                    /\ (isRoot p = true <->
                        (o + fret p) mod 12 = getNoteIndex (root parsed)))
            (calculateChordPositions useFlats chord).
Proof.
  intros Hp.
  destruct (calculateChordPositions_sounded useFlats chord parsed Hp)
    as (shape & t & _ & Ht & Hlen & Hfrets & Hcount & _ & ->).
  split; [|split].
  - rewrite sounded_count. split; [exact Hcount|].
    rewrite <- Hlen. apply filter_length_le.
  - apply sounded_descending.
  - eapply Forall_impl; [|apply sounded_positions]. cbv beta.
    rewrite Hlen. change (Z.of_nat 6) with 6.
    intros p (Hs & (f & Hf & Hf0 & Hfret) & Hr).
    rewrite Forall_forall in Hfrets. specialize (Hfrets f Hf).
    split; [lia|]. split; [lia|].
    destruct (OPEN_STRING_NOTES_defined (stringNum p)) as [o Ho]; [lia|].
    exists o. split; [exact Ho|].
    rewrite Hr, (noteIndexAt_pitch useFlats _ _ o Ho) by lia.
    apply Z.eqb_eq.
Qed.

Lemma calculateChordPositions_positions_witness :
  (4 <= List.length (calculateChordPositions true (JS.lit "Bb")) <= 6)%nat
  /\ StronglySorted (fun p q => stringNum q < stringNum p)
                    (calculateChordPositions true (JS.lit "Bb"))
  /\ Forall (fun p =>
               1 <= stringNum p <= 6 /\ 0 <= fret p <= 14
               /\ exists o,
                    OPEN_STRING_NOTES (stringNum p) = Some o
                    /\ (isRoot p = true <->
                        (o + fret p) mod 12 = getNoteIndex (JS.lit "Bb")))
            (calculateChordPositions true (JS.lit "Bb")).
Proof.
  apply (calculateChordPositions_positions true (JS.lit "Bb")
           (mkChord (JS.lit "Bb") q_major None)).
  reflexivity.
Defined.

(** For the five shape qualities the shape [findChordShape] picks is a
    CAGED shape, transposed as the generator transposes it. *)
Lemma findChordShape_caged (root : jsstring) (q : Quality)
      (shape : ChordShape) (transpose : Z) :
  supportedQuality q = true ->
  findChordShape root q = Some (shape, transpose) ->
  exists entry cshape,
    In entry CAGED_SHAPES
    /\ snd entry q = Some cshape
    /\ strings cshape = cs_strings shape
    /\ transpose = transposeTo (getNoteIndex root) (fst entry).
Proof.
  intros Hq Hs.
  destruct (existsb (JS.eqb root) openChords) eqn:Ho.
  - apply existsb_exists in Ho as (r & Hr & Heq).
    apply JS_eqb_eq in Heq. subst r. simpl in Hr.
    repeat (destruct Hr as [<-|Hr];
            [destruct q; try discriminate Hq; vm_compute in Hs;
             injection Hs as <- <-; any_caged_entry|]).
    destruct Hr.
  - unfold findChordShape in Hs. rewrite Ho in Hs.
    destruct (transposedFromE root <=? 7).
    + destruct q; try discriminate Hq; cbv beta iota in Hs;
        match type of Hs with
        | context [orElse ?a ?b] =>
            let v := eval vm_compute in (orElse a b) in
            change (orElse a b) with v in Hs
        end; injection Hs as <- <-; caged_entry 0%nat.
    + destruct q; try discriminate Hq; cbv beta iota in Hs;
        match type of Hs with
        | context [orElse ?a ?b] =>
            let v := eval vm_compute in (orElse a b) in
            change (orElse a b) with v in Hs
        end; injection Hs as <- <-; caged_entry 1%nat.
Qed.

(** X9: for a quality the generator has shapes for (major, minor, 7, m7,
    maj7), the positions of [calculateChordPositions] are the positions of
    one of the voicings [generateAllVoicings] returns for the same name,
    under any fret limit from 14 up. *)
Theorem calculateChordPositions_generated (useFlats : bool)
        (chord : jsstring) (parsed : ChordSymbol) (maxFret : Z) :
  parseChordName chord = Some parsed ->
  supportedQuality (quality parsed) = true ->
  14 <= maxFret ->
  exists v,
    In v (generateAllVoicings useFlats chord maxFret)
    /\ positions v = calculateChordPositions useFlats chord.
Proof.
  intros Hp Hq Hm.
  destruct (calculateChordPositions_sounded useFlats chord parsed Hp)
    as (shape & t & Hs & Ht & _ & Hfrets & Hcount & _ & Heq).
  destruct (findChordShape_caged _ _ _ _ Hq Hs)
    as (entry & cshape & He & Hc & Hstr & Htr).
  rewrite <- (shapeQualityOf_supported _ Hq) in Hc.
  destruct (voicingOfShape_complete useFlats (getNoteIndex (root parsed))
              maxFret chord (fst entry) cshape) as [v Hv].
  - rewrite Hstr, <- Htr. eapply Forall_impl; [|exact Hfrets].
    unfold withinLimit. intros f Hf. right. lia.
  - rewrite sounded_count, Hstr. lia.
  - exists v. split.
    + eapply generateAllVoicings_intro; eauto.
    + apply voicingOfShape_some in Hv as (Hpos & _).
      rewrite Hpos, Heq, Hstr, <- Htr. reflexivity.
Qed.

Lemma calculateChordPositions_generated_witness :
  exists v,
    In v (generateAllVoicings false (JS.lit "F#m7") 15)
    /\ positions v = calculateChordPositions false (JS.lit "F#m7").
Proof.
  apply (calculateChordPositions_generated false (JS.lit "F#m7")
           (mkChord (JS.lit "F#") q_m7 None) 15);
    [reflexivity|reflexivity|lia].
Defined.

(* ------------------------------------------------------------------ *)
(** ** The fallback voicing *)

Lemma basicVoicingCheck_all :
  forallb (fun root => forallb (basicVoicingCheck root) allQualities)
          (map fst noteMap) = true.
Proof. vm_compute. reflexivity. Qed.

Lemma allQualities_complete (q : Quality) : In q allQualities.
Proof. destruct q; simpl; tauto. Qed.

Lemma lowerFrets_In (fret f : Z) :
  0 <= f < fret -> In f (lowerFrets fret).
Proof.
  intros H. unfold lowerFrets. apply in_map_iff. exists (Z.to_nat f).
  split; [lia|]. apply in_seq. lia.
Qed.

Lemma combine_eqb_eq (l1 l2 : list Z) :
  List.length l1 = List.length l2 ->
  forallb (fun xy => fst xy =? snd xy) (combine l1 l2) = true -> l1 = l2.
Proof.
  revert l2. induction l1 as [|x l1 IH]; intros [|y l2] Hlen H;
    simpl in *; try discriminate; [reflexivity|].
  apply andb_true_iff in H as [Hxy H]. apply Z.eqb_eq in Hxy.
  f_equal; [exact Hxy|]. apply IH; [lia|exact H].
Qed.

(** X10: [generateBasicVoicing] with sharps notation, for a root of the note
    table and any quality: one position on each string from 6 down to 1, at
    the lowest fret of the string that sounds a tone of the chord, which is
    never above fret 5, flagged as root when it sounds the root.  For a
    root the table lacks it returns no position. *)
Theorem generateBasicVoicing_sharps (root : jsstring) (q : Quality) :
  (getNoteIndex root = -1 -> generateBasicVoicing false root q = [])
  /\ (getNoteIndex root <> -1 ->
      map stringNum (generateBasicVoicing false root q) = [6; 5; 4; 3; 2; 1]
      /\ Forall (fun p =>
                   0 <= fret p <= 5
                   /\ isChordTone (getNoteIndex root) q (stringNum p) (fret p)
                      = true
                   /\ (forall f, 0 <= f < fret p ->
                         isChordTone (getNoteIndex root) q (stringNum p) f
                         = false)
                   /\ (isRoot p = true <->
                       noteIndexAt false (stringNum p) (fret p)
                       = getNoteIndex root))
                (generateBasicVoicing false root q)).
Proof.
  split.
  - intros Hr. unfold generateBasicVoicing, getChordNotes. rewrite Hr.
    reflexivity.
  - intros Hr.
    assert (Hkey : In root (map fst noteMap)).
    { unfold getNoteIndex in Hr.
      destruct (lookup noteMap root) as [i|] eqn:Hl; [|contradiction].
      apply lookup_key in Hl. apply (in_map fst) in Hl. exact Hl. }
    pose proof basicVoicingCheck_all as Hall.
    rewrite forallb_forall in Hall. specialize (Hall root Hkey).
    rewrite forallb_forall in Hall.
    specialize (Hall q (allQualities_complete q)).
    unfold basicVoicingCheck in Hall.
    apply andb_true_iff in Hall as [Hall Hps].
    apply andb_true_iff in Hall as [Hstr Hlen].
    apply Nat.eqb_eq in Hlen. split.
    + apply combine_eqb_eq; [rewrite length_map; exact Hlen|exact Hstr].
    + apply Forall_forall. intros p Hp. rewrite forallb_forall in Hps.
      specialize (Hps p Hp).
      repeat (apply andb_true_iff in Hps as [Hps ?]).
      split; [lia|]. split; [assumption|]. split.
      * intros f Hf.
        match goal with H : forallb _ (lowerFrets _) = true |- _ =>
          rewrite forallb_forall in H;
          specialize (H f (lowerFrets_In _ _ Hf));
          apply negb_true_iff in H; exact H end.
      * match goal with H : Bool.eqb _ _ = true |- _ =>
          apply Bool.eqb_prop in H; rewrite H end.
        apply Z.eqb_eq.
Qed.

Lemma generateBasicVoicing_sharps_witness :
  map stringNum (generateBasicVoicing false (JS.lit "Eb") q_sus2)
  = [6; 5; 4; 3; 2; 1].
Proof.
  apply (proj2 (generateBasicVoicing_sharps (JS.lit "Eb") q_sus2)).
  discriminate.
Defined.

(* ------------------------------------------------------------------ *)
(** ** Position ids and note names with octave *)

Lemma lit_inj (a b : string) : JS.lit a = JS.lit b -> a = b.
Proof.
  unfold JS.lit. intros H.
  apply (f_equal (map ascii_of_N)) in H.
  rewrite !map_map in H.
  rewrite !(map_ext _ (fun x => x) ascii_N_embedding), !map_id in H.
  apply (f_equal string_of_list_ascii) in H.
  now rewrite !string_of_list_ascii_of_string in H.
Qed.

Lemma showZ_inj (a b : Z) : showZ a = showZ b -> a = b.
Proof.
  unfold showZ. intros H. apply lit_inj in H.
  apply (f_equal NilEmpty.int_of_string) in H.
  rewrite !NilEmpty.isi in H. injection H as H.
  apply (f_equal Z.of_int) in H. now rewrite !DecimalZ.of_to in H.
Qed.

Lemma string_of_uint_digits (d : Decimal.uint) :
  Forall isDigitOrMinus (JS.lit (NilEmpty.string_of_uint d)).
Proof.
  induction d; cbn [NilEmpty.string_of_uint]; [constructor|..];
    (constructor; [right; vm_compute; split; discriminate | exact IHd]).
Qed.

Lemma showZ_digits (z : Z) : Forall isDigitOrMinus (showZ z).
Proof.
  unfold showZ. destruct (Z.to_int z) as [d|d];
    cbn [NilEmpty.string_of_int].
  - apply string_of_uint_digits.
  - constructor; [left; reflexivity | apply string_of_uint_digits].
Qed.

Lemma showZ_no_f (z : Z) : ~ In 102%N (showZ z).
Proof.
  intros Hin. pose proof (showZ_digits z) as H.
  rewrite Forall_forall in H. destruct (H _ Hin) as [H1|H1]; lia.
Qed.

Lemma app_cons_unique (x : N) (a c b d : jsstring) :
  ~ In x a -> ~ In x c ->
  (a ++ x :: b = c ++ x :: d)%list -> a = c /\ b = d.
Proof.
  revert c. induction a as [|y a IH]; intros [|z c] Ha Hc H.
  - injection H as H; auto.
  - injection H as H1 H2. exfalso. apply Hc. left. auto.
  - injection H as H1 H2. exfalso. apply Ha. left. auto.
  - injection H as H1 H2. subst z.
    destruct (IH c) as [-> ->]; auto.
    + intros Hin. apply Ha. right. exact Hin.
    + intros Hin. apply Hc. right. exact Hin.
Qed.

Lemma getPositionId_inj (s1 f1 s2 f2 : Z) :
  getPositionId s1 f1 = getPositionId s2 f2 -> s1 = s2 /\ f1 = f2.
Proof.
  unfold getPositionId. intros H.
  change (JS.lit "s") with [115%N] in H.
  change (JS.lit "f") with [102%N] in H.
  cbn [app] in H. injection H as H.
  apply app_cons_unique in H; try apply showZ_no_f.
  destruct H as [H1 H2]. split; apply showZ_inj; assumption.
Qed.

(** X11: getPositionId names each string and fret pair by its own id: two
    pairs with the same id are the same pair. *)
Theorem getPositionId_injective (s1 f1 s2 f2 : Z) :
  getPositionId s1 f1 = getPositionId s2 f2 -> s1 = s2 /\ f1 = f2.
Proof. apply getPositionId_inj. Qed.

Lemma getPositionId_injective_witness : 3 = 3 /\ 12 = 12.
Proof. apply (getPositionId_injective 3 12 3 12). reflexivity. Defined.

Lemma spelledName_index (useFlats : bool) (i : Z) :
  0 <= i < 12 -> getNoteIndex (spelledName useFlats i) = i.
Proof.
  intros Hi.
  pose proof (spelledIndex_pitch useFlats i Hi) as Hs.
  unfold spelledIndex in Hs.
  destruct (i <? 0) eqn:Hneg; [apply Z.ltb_lt in Hneg; lia|].
  unfold spelledName.
  destruct (nth_error NOTE_NAMES (Z.to_nat i)) as [n|] eqn:Hnth.
  - rewrite (nth_error_nth _ _ _ Hnth). exact Hs.
  - apply nth_error_None in Hnth. simpl in Hnth. lia.
Qed.







(* ------------------------------------------------------------------ *)
(** ** Search *)

Lemma chordRegex_inv (s : jsstring) (letter : N) (acc rest : jsstring) :
  chordRegex s = Some (letter, acc, rest) ->
  isRootLetter letter = true /\ (acc = [] \/ acc = [35%N] \/ acc = [98%N]).
Proof.
  unfold chordRegex. destruct s as [|c r]; [discriminate|].
  destruct (isRootLetter c) eqn:Hc; [|discriminate]. cbn [negb].
  destruct (existsb JS.isLineTerminator r); [discriminate|].
  destruct r as [|a r'].
  - intros [= <- <- <-]. auto.
  - destruct (N.eqb a 35) eqn:H1; cbn [orb].
    + apply N.eqb_eq in H1. subst a. intros [= <- <- <-]. auto.
    + destruct (N.eqb a 98) eqn:H2.
      * apply N.eqb_eq in H2. subst a. intros [= <- <- <-]. auto.
      * intros [= <- <- <-]. auto.
Qed.

Lemma isRootLetter_enum (c : N) :
  isRootLetter c = true ->
  In c [65; 66; 67; 68; 69; 70; 71; 97; 98; 99; 100; 101; 102; 103]%N.
Proof.
  unfold isRootLetter. intros H.
  apply orb_true_iff in H.
  assert (Hc : (65 <= c <= 71 \/ 97 <= c <= 103)%N).
  { destruct H as [H|H]; apply andb_true_iff in H as [H1 H2];
      apply N.leb_le in H1, H2; lia. }
  cbn [In]. lia.
Qed.

Lemma In_unknownRoots (r : jsstring) :
  In r unknownRoots <-> existsb (JS.eqb r) unknownRoots = true.
Proof.
  rewrite existsb_exists. split.
  - intros H. exists r. split; [exact H|apply JS_eqb_refl].
  - intros [x [Hx Heq]]. apply JS_eqb_eq in Heq. now subst x.
Qed.

(** The roots without a note index are E#, B#, Cb and Fb. *)
Lemma parsed_root_known (query : jsstring) (p : ChordSymbol) :
  parseChordName query = Some p ->
  (getNoteIndex (root p) =? -1) = existsb (JS.eqb (root p)) unknownRoots.
Proof.
  intros Hp.
  destruct (parseChordName_some_inv _ _ Hp)
    as [letter [acc [rest [Hre ->]]]].
  destruct (chordRegex_inv _ _ _ _ Hre) as [Hl Hacc].
  apply isRootLetter_enum in Hl. cbn [root].
  cbn [In] in Hl.
  repeat (destruct Hl as [<-|Hl];
          [destruct Hacc as [-> | [-> | ->]]; vm_compute; reflexivity|]).
  destruct Hl.
Qed.

Lemma getChordNotes_length (r : jsstring) (q : Quality) :
  List.length (getChordNotes r q)
  = if getNoteIndex r =? -1 then 0%nat else List.length (CHORD_INTERVALS q).
Proof.
  unfold getChordNotes. destruct (getNoteIndex r =? -1); [reflexivity|].
  apply length_map.
Qed.

Lemma CHORD_INTERVALS_nonempty (q : Quality) :
  (0 < List.length (CHORD_INTERVALS q))%nat.
Proof. destruct q; cbn; lia. Qed.

Lemma parseChordName_trim (query : jsstring) (p : ChordSymbol) :
  parseChordName query = Some p -> JS.trim query <> [].
Proof.
  intros Hp Ht. destruct (parseChordName_some_inv _ _ Hp)
    as [letter [acc [rest [Hre _]]]].
  rewrite Ht in Hre. discriminate.
Qed.

Lemma chord_found (toLowerCase : jsstring -> jsstring)
      (query : jsstring) (r : ChordResult) :
  handleSearch toLowerCase query = SearchChord r <->
  exists p,
    parseChordName query = Some p /\
    ~ In (root p) unknownRoots /\
    r = mkChordResult query p (getChordNotes (root p) (quality p)).
Proof.
  unfold handleSearch, searchChords. split.
  - destruct (JS.trim query) as [|c t]; [discriminate|].
    destruct (parseChordName query) as [p|] eqn:Hp.
    + cbn [cr_notes]. rewrite getChordNotes_length.
      rewrite (parsed_root_known _ _ Hp).
      destruct (existsb (JS.eqb (root p)) unknownRoots) eqn:Hu.
      * cbn. destruct (searchSongs toLowerCase query); discriminate.
      * pose proof (CHORD_INTERVALS_nonempty (quality p)) as Hn.
        apply Nat.ltb_lt in Hn. rewrite Hn. intros [= <-].
        exists p. split; [reflexivity|]. split; [|reflexivity].
        rewrite In_unknownRoots, Hu. discriminate.
    + destruct (searchSongs toLowerCase query); discriminate.
  - intros [p [Hp [Hu ->]]].
    pose proof (parseChordName_trim _ _ Hp) as Ht.
    destruct (JS.trim query) as [|c t]; [contradiction|].
    rewrite Hp. cbn [cr_notes]. rewrite getChordNotes_length.
    rewrite (parsed_root_known _ _ Hp).
    rewrite In_unknownRoots in Hu.
    destruct (existsb (JS.eqb (root p)) unknownRoots); [contradiction|].
    pose proof (CHORD_INTERVALS_nonempty (quality p)) as Hn.
    apply Nat.ltb_lt in Hn. now rewrite Hn.
Qed.

(** X14: handleSearch answers a blank query with the type empty.  It
    answers with a chord exactly when the query parses as a chord name
    whose root is none of E#, B#, Cb and Fb, whatever the song table holds;
    the result then carries the query as its name, the parsed chord and its
    notes.  Every other query that is not blank goes on to the song search:
    the songs found, or the type notfound when there is none. *)
Theorem handleSearch_chord (toLowerCase : jsstring -> jsstring)
        (query : jsstring) :
  (forall r,
      handleSearch toLowerCase query = SearchChord r <->
      exists p,
        parseChordName query = Some p /\
        ~ In (root p) unknownRoots /\
        r = mkChordResult query p (getChordNotes (root p) (quality p)))
  /\ (JS.trim query = [] -> handleSearch toLowerCase query = SearchEmpty)
  /\ (JS.trim query <> [] ->
      (forall p, parseChordName query = Some p -> In (root p) unknownRoots) ->
      handleSearch toLowerCase query
      = match searchSongs toLowerCase query with
        | [] => SearchNotFound
        | songResults => SearchSongs songResults
        end).
Proof.
  split; [intros r; apply chord_found|]. split.
  - unfold handleSearch. now intros ->.
  - intros Hne Hroot. unfold handleSearch, searchChords.
    destruct (JS.trim query) as [|c t]; [contradiction|].
    destruct (parseChordName query) as [p|] eqn:Hp; [|reflexivity].
    cbn [cr_notes]. rewrite getChordNotes_length.
    rewrite (parsed_root_known _ _ Hp).
    specialize (Hroot p eq_refl). rewrite In_unknownRoots in Hroot.
    rewrite Hroot. reflexivity.
Qed.

Example handleSearch_blank (toLowerCase : jsstring -> jsstring) :
  handleSearch toLowerCase (JS.lit "  ") = SearchEmpty.
Proof. reflexivity. Qed.

(* ------------------------------------------------------------------ *)
(** ** The root flag *)

Lemma parsed_root_pitch (query : jsstring) (p : ChordSymbol) :
  parseChordName query = Some p -> rootCheck (root p) = true.
Proof.
  intros Hp.
  destruct (parseChordName_some_inv _ _ Hp)
    as [letter [acc [rest [Hre ->]]]].
  destruct (chordRegex_inv _ _ _ _ Hre) as [Hl Hacc].
  apply isRootLetter_enum in Hl. cbn [root].
  cbn [In] in Hl.
  repeat (destruct Hl as [<-|Hl];
          [destruct Hacc as [-> | [-> | ->]]; vm_compute; reflexivity|]).
  destruct Hl.
Qed.

Lemma soundedPitch_some (p : Position) (o : Z) :
  OPEN_STRING_NOTES (stringNum p) = Some o ->
  soundedPitch p = Some ((o + fret p) mod 12).
Proof. unfold soundedPitch. now intros ->. Qed.

(** C9: for a chord whose root the note table has, the flag [isRoot] of a
    position of a returned voicing is true exactly when the pitch class
    sounded there, open string plus fret modulo 12, is the pitch class of
    the parsed root, and the display mode plays no part.  For the root Cb,
    which the parser accepts and the note table lacks, it is not: the
    voicings returned are those of B, every one has a position that sounds
    pitch class 11, the pitch class of Cb, and no position is flagged. *)
Theorem isRoot_recomputed :
  (forall (useFlats : bool) (chord : jsstring) (maxFret : Z)
          (parsed : ChordSymbol) (v : Voicing) (p : Position),
      parseChordName chord = Some parsed ->
      ~ In (root parsed) unknownRoots ->
      In v (generateAllVoicings useFlats chord maxFret) ->
      In p (positions v) ->
      exists k,
        rootPitchClass (root parsed) = Some k
        /\ (isRoot p = true <-> soundedPitch p = Some k))
  /\ (forall (chord : jsstring) (maxFret : Z),
         generateAllVoicings true chord maxFret
         = generateAllVoicings false chord maxFret)
  /\ parseChordName (JS.lit "Cb") = Some (mkChord (JS.lit "Cb") q_major None)
  /\ rootPitchClass (JS.lit "Cb") = Some 11
  /\ map shapeName (generateAllVoicings false (JS.lit "Cb") 15)
     = map shapeName (generateAllVoicings false (JS.lit "B") 15)
  /\ generateAllVoicings false (JS.lit "Cb") 15 <> []
  /\ Forall (fun v =>
               Exists (fun p => soundedPitch p = Some 11) (positions v)
               /\ Forall (fun p => isRoot p = false) (positions v))
            (generateAllVoicings false (JS.lit "Cb") 15).
Proof.
  split; [|split; [apply generateAllVoicings_notation|]].
  - intros useFlats chord maxFret parsed v p Hp Hknown Hv Hin.
    destruct (isRoot_index useFlats chord maxFret parsed v p Hp Hv Hin)
      as [(o & Ho & Hiff) _].
    pose proof (parsed_root_pitch _ _ Hp) as Hc. unfold rootCheck in Hc.
    destruct (rootPitchClass (root parsed)) as [k|]; [|discriminate].
    exists k. split; [reflexivity|].
    apply orb_true_iff in Hc as [Hc|Hc].
    + exfalso. apply Hknown. apply existsb_exists in Hc as (r & Hr & Heq).
      apply JS_eqb_eq in Heq. now subst r.
    + apply Z.eqb_eq in Hc. rewrite (soundedPitch_some _ _ Ho), Hiff, Hc.
      split; [intros ->; reflexivity|intros [= ->]; reflexivity].
  - split; [reflexivity|]. split; [reflexivity|].
    split; [vm_compute; reflexivity|]. split; [vm_compute; discriminate|].
    vm_compute.
    repeat (constructor;
            [split;
             [first [ apply Exists_cons_hd; reflexivity
                    | apply Exists_cons_tl, Exists_cons_hd; reflexivity
                    | do 2 apply Exists_cons_tl; apply Exists_cons_hd;
                      reflexivity
                    | do 3 apply Exists_cons_tl; apply Exists_cons_hd;
                      reflexivity
                    | do 4 apply Exists_cons_tl; apply Exists_cons_hd;
                      reflexivity
                    | do 5 apply Exists_cons_tl; apply Exists_cons_hd;
                      reflexivity ]
             |repeat constructor]|]).
    constructor.
Qed.

(* ------------------------------------------------------------------ *)
(** ** The progression guard *)

Lemma dropWhile_all (p : N -> bool) (s : jsstring) :
  Forall (fun c => p c = true) s -> JS.dropWhile p s = [].
Proof.
  induction 1 as [|c s Hc _ IH]; simpl; [reflexivity|]. now rewrite Hc.
Qed.

Lemma trim_blank (t : jsstring) : blank t -> JS.trim t = [].
Proof.
  intros H. unfold JS.trim, JS.trimStart.
  rewrite (dropWhile_all _ _ H). reflexivity.
Qed.

Lemma dropWhile_split (p : N -> bool) (s : jsstring) :
  exists pre, s = (pre ++ JS.dropWhile p s)%list
              /\ Forall (fun c => p c = true) pre.
Proof.
  induction s as [|c s [pre [IH1 IH2]]]; simpl.
  - exists []. split; [reflexivity|constructor].
  - destruct (p c) eqn:Hc.
    + exists (c :: pre). split; [cbn; now rewrite <- IH1|].
      constructor; assumption.
    + exists []. split; [reflexivity|constructor].
Qed.

Lemma trim_split (input : jsstring) :
  exists w1 w2,
    input = (w1 ++ JS.trim input ++ w2)%list /\ blank w1 /\ blank w2.
Proof.
  unfold JS.trim, JS.trimEnd, JS.trimStart.
  destruct (dropWhile_split JS.isWhiteSpace input) as [w1 [H1 Hw1]].
  set (u := JS.dropWhile JS.isWhiteSpace input) in *.
  destruct (dropWhile_split JS.isWhiteSpace (rev u)) as [pre [H2 Hpre]].
  exists w1, (rev pre). split; [|split].
  - rewrite <- rev_app_distr, <- H2, rev_involutive. exact H1.
  - exact Hw1.
  - apply Forall_rev. exact Hpre.
Qed.

Lemma splitGo_tokens (P : N -> Prop) (matchAt : jsstring -> option nat) :
  forall s cur skip,
    Forall P s -> Forall P cur ->
    Forall (Forall P) (JS.splitGo matchAt s cur skip).
Proof.
  induction s as [|c s IH]; intros cur skip Hs Hcur; simpl.
  - constructor; [apply Forall_rev, Hcur|constructor].
  - inversion Hs as [|? ? Hc Hs']; subst.
    destruct skip as [|k]; [|apply IH; assumption].
    destruct (matchAt (c :: s)) as [[|len]|].
    + apply IH; [assumption|constructor; assumption].
    + constructor; [apply Forall_rev, Hcur|apply IH; [assumption|constructor]].
    + apply IH; [assumption|constructor; assumption].
Qed.

Lemma blank_tokens (tokens : list jsstring) :
  Forall blank tokens -> filter nonEmpty (map JS.trim tokens) = [].
Proof.
  induction 1 as [|t ts Ht _ IH]; simpl; [reflexivity|].
  rewrite (trim_blank _ Ht). exact IH.
Qed.

Lemma filter_cons_length {X} (f : X -> bool) (x : X) (l : list X) :
  filter f l = [] -> (List.length (filter f (x :: l)) <= 1)%nat.
Proof. simpl. intros ->. destruct (f x); simpl; lia. Qed.

(** A split of white space leaves at most one token that is not blank. *)
Lemma blank_split (matchAt : jsstring -> option nat) :
  forall s cur skip,
    blank s ->
    (List.length
       (filter nonEmpty (map JS.trim (JS.splitGo matchAt s cur skip)))
     <= 1)%nat.
Proof.
  induction s as [|c s IH]; intros cur skip Hs.
  - simpl. destruct (nonEmpty _); simpl; lia.
  - inversion Hs as [|? ? Hc Hs']; subst. cbn [JS.splitGo].
    destruct skip as [|k]; [|apply IH; assumption].
    destruct (matchAt (c :: s)) as [[|len]|].
    + apply IH; assumption.
    + cbn [map]. apply filter_cons_length, blank_tokens.
      apply splitGo_tokens; [assumption|constructor].
    + apply IH; assumption.
Qed.

Lemma splitGo_ink (core rest cur : jsstring) :
  inkOnly core ->
  JS.splitGo primarySeparator (core ++ rest) cur 0
  = JS.splitGo primarySeparator rest (rev core ++ cur) 0.
Proof.
  intros H. revert cur.
  induction H as [|c core [Hw Hs] _ IH]; intros cur; [reflexivity|].
  cbn [app JS.splitGo]. unfold primarySeparator at 1.
  rewrite Hs. cbn [JS.runLength]. rewrite Hw. cbn [Nat.leb].
  rewrite IH. cbn [rev]. now rewrite <- app_assoc.
Qed.

Lemma whiteSpace_not_separator (c : N) :
  JS.isWhiteSpace c = true -> isCommaOrHyphen c = false.
Proof.
  intros Hw. destruct (isCommaOrHyphen c) eqn:Hs; [|reflexivity].
  unfold isCommaOrHyphen in Hs. apply orb_true_iff in Hs.
  destruct Hs as [Hs|Hs]; apply N.eqb_eq in Hs; subst c; discriminate.
Qed.

Lemma runLength_blank (w rest : jsstring) (c : N) :
  blank w -> JS.isWhiteSpace c = false ->
  JS.runLength JS.isWhiteSpace (w ++ c :: rest) = List.length w.
Proof.
  intros Hw Hc. induction Hw as [|x w Hx _ IH]; simpl.
  - now rewrite Hc.
  - now rewrite Hx, IH.
Qed.

Lemma leading_blank_split (w1 : jsstring) :
  blank w1 ->
  forall (c : N) (core w2 cur : jsstring) (skip : nat),
    inkOnly (c :: core) -> blank w2 -> blank cur ->
    (skip <= List.length w1)%nat ->
    (List.length
       (filter nonEmpty
          (map JS.trim
             (JS.splitGo primarySeparator (w1 ++ (c :: core) ++ w2)
                         cur skip)))
     <= 1)%nat.
Proof.
  induction 1 as [|x w1 Hx Hw1 IH]; intros c core w2 cur skip Hcore Hw2 Hcur Hk.
  - cbn [List.length] in Hk. assert (skip = 0%nat) as -> by lia.
    cbn [app]. rewrite app_comm_cons, (splitGo_ink _ _ _ Hcore).
    apply blank_split, Hw2.
  - cbn [app JS.splitGo]. destruct skip as [|k].
    + assert (Hsep : primarySeparator (x :: w1 ++ c :: core ++ w2)
                     = if (2 <=? S (List.length w1))%nat
                       then Some (S (List.length w1)) else None).
      { unfold primarySeparator.
        rewrite (whiteSpace_not_separator _ Hx).
        cbn [JS.runLength]. rewrite Hx.
        inversion Hcore as [|? ? [Hc _] _]; subst.
        now rewrite (runLength_blank _ _ _ Hw1 Hc). }
      rewrite Hsep. destruct (2 <=? S (List.length w1))%nat.
      * cbn [map filter].
        rewrite (trim_blank (rev cur)) by (apply Forall_rev, Hcur).
        cbn [nonEmpty].
        apply IH; [assumption|assumption|constructor|lia].
      * apply IH; [assumption|assumption| |lia].
        constructor; assumption.
    + apply IH; try assumption. cbn [List.length] in Hk. lia.
Qed.

Lemma splitGo_nonempty (matchAt : jsstring -> option nat) :
  forall s cur skip, (1 <= List.length (JS.splitGo matchAt s cur skip))%nat.
Proof.
  induction s as [|c s IH]; intros cur skip; simpl; [lia|].
  destruct skip as [|k]; [|apply IH].
  destruct (matchAt (c :: s)) as [[|len]|]; try apply IH.
  cbn [List.length]. lia.
Qed.

Lemma space_split_two (s : jsstring) :
  Exists (fun c => JS.isWhiteSpace c = true) s ->
  forall cur,
    (2 <= List.length (JS.splitGo spaceSeparator s cur 0))%nat.
Proof.
  induction s as [|c s IH]; intros H cur; [inversion H|].
  cbn [JS.splitGo].
  destruct (JS.isWhiteSpace c) eqn:Hc.
  - assert (Hm : spaceSeparator (c :: s)
                 = Some (S (JS.runLength JS.isWhiteSpace s)))
      by (unfold spaceSeparator; cbn [JS.runLength]; now rewrite Hc).
    rewrite Hm. cbn [List.length].
    pose proof (splitGo_nonempty spaceSeparator s []
                  (JS.runLength JS.isWhiteSpace s)). lia.
  - assert (Hm : spaceSeparator (c :: s) = None)
      by (unfold spaceSeparator; cbn [JS.runLength]; now rewrite Hc).
    rewrite Hm. apply IH. inversion H as [? ? Hh|? ? Ht]; subst;
      [congruence|exact Ht].
Qed.

Lemma single_space_part (t : jsstring) :
  (List.length (JS.splitRegex spaceSeparator t) <= 1)%nat ->
  Forall (fun c => JS.isWhiteSpace c = false) t.
Proof.
  intros Hlen. apply Forall_forall. intros c Hin.
  destruct (JS.isWhiteSpace c) eqn:Hc; [|reflexivity].
  exfalso.
  assert (He : Exists (fun c => JS.isWhiteSpace c = true) t)
    by (apply Exists_exists; eauto).
  pose proof (space_split_two t He []) as H2.
  unfold JS.splitRegex in Hlen. lia.
Qed.

Lemma single_primary_part (input : jsstring) :
  existsb isCommaOrHyphen input = false ->
  (List.length (spaceParts input) <= 1)%nat ->
  (List.length (primaryParts input) <= 1)%nat.
Proof.
  intros Hsep Hlen. unfold spaceParts in Hlen.
  pose proof (single_space_part _ Hlen) as Hink.
  assert (Hns : Forall (fun c => isCommaOrHyphen c = false) input).
  { apply Forall_forall. intros c Hin.
    destruct (isCommaOrHyphen c) eqn:Hc; [|reflexivity].
    assert (existsb isCommaOrHyphen input = true)
      by (apply existsb_exists; eauto). congruence. }
  pose proof (trim_Forall _ _ Hns) as Hns'.
  destruct (trim_split input) as [w1 [w2 [Heq [Hw1 Hw2]]]].
  unfold primaryParts, JS.splitRegex. rewrite Heq at 1.
  destruct (JS.trim input) as [|c core] eqn:Ht.
  - cbn [app]. rewrite blank_tokens; [simpl; lia|].
    apply splitGo_tokens; [apply Forall_app; split; assumption|constructor].
  - apply leading_blank_split; try assumption; [|constructor|lia].
    apply Forall_forall. intros x Hx. split.
    + rewrite Forall_forall in Hink. apply Hink, Hx.
    + rewrite Forall_forall in Hns'. apply Hns', Hx.
Qed.

Lemma filter_length_le {X} (f : X -> bool) (l : list X) :
  (List.length (filter f l) <= List.length l)%nat.
Proof.
  induction l as [|x l IH]; simpl; [lia|]. destruct (f x); simpl; lia.
Qed.

Lemma progression_detected (input : jsstring) :
  (1 < List.length (parseProgression input))%nat ->
  isProgression input = true.
Proof.
  intros Hlen. destruct input as [|c s]; [simpl in Hlen; lia|].
  unfold isProgression.
  destruct (existsb isCommaOrHyphen (c :: s)) eqn:Hsep; [reflexivity|].
  cbn [orb]. fold (spaceParts (c :: s)).
  destruct (1 <? List.length (spaceParts (c :: s)))%nat eqn:Hsp;
    [reflexivity|].
  apply Nat.ltb_ge in Hsp. exfalso.
  destruct (parseProgression_cases (c :: s)) as [Heq|[_ [Heq _]]];
    rewrite Heq in Hlen; [|lia].
  pose proof (filter_length_le isChord (primaryParts (c :: s))).
  pose proof (single_primary_part _ Hsep Hsp). lia.
Qed.

(* ------------------------------------------------------------------ *)
(** ** The progression parser, token by token *)

Lemma chunks_cons (s : jsstring) : exists t ts, chunks s = t :: ts.
Proof.
  destruct s as [|c s]; simpl; [eauto|].
  destruct (JS.isWhiteSpace c); [eauto|]. destruct (chunks s); eauto.
Qed.

Lemma runLength_le (p : N -> bool) (s : jsstring) :
  (JS.runLength p s <= List.length s)%nat.
Proof.
  induction s as [|c s IH]; simpl; [lia|]. destruct (p c); simpl; lia.
Qed.

(** The second split, up to empty tokens, cuts at every white-space code
    unit. *)
Lemma space_split_chunks (s : jsstring) :
  forall cur skip,
    (skip <= JS.runLength JS.isWhiteSpace s)%nat ->
    (skip = O \/ cur = []) ->
    filter nonEmpty (JS.splitGo spaceSeparator s cur skip)
    = filter nonEmpty (glue (rev cur) (chunks s)).
Proof.
  induction s as [|c s IH]; intros cur skip Hk Hc.
  - simpl in Hk. assert (skip = O) by lia. subst skip. simpl.
    now rewrite app_nil_r.
  - cbn [JS.splitGo]. destruct skip as [|k].
    + assert (Hm : spaceSeparator (c :: s)
                   = if JS.isWhiteSpace c
                     then Some (S (JS.runLength JS.isWhiteSpace s))
                     else None).
      { unfold spaceSeparator. cbn [JS.runLength].
        destruct (JS.isWhiteSpace c); reflexivity. }
      rewrite Hm. cbn [chunks]. destruct (JS.isWhiteSpace c) eqn:Hw.
      * cbn [glue filter]. rewrite app_nil_r.
        rewrite (IH [] _ (Nat.le_refl _) (or_intror eq_refl)).
        cbn [rev]. destruct (chunks_cons s) as (t & ts & ->).
        reflexivity.
      * rewrite (IH (c :: cur) O (Nat.le_0_l _) (or_introl eq_refl)).
        destruct (chunks_cons s) as (t & ts & ->). cbn [glue rev].
        now rewrite <- app_assoc.
    + destruct Hc as [Hc| ->]; [discriminate|].
      cbn [JS.runLength] in Hk. destruct (JS.isWhiteSpace c) eqn:Hw; [|lia].
      rewrite (IH [] k ltac:(lia) (or_intror eq_refl)).
      cbn [chunks]. rewrite Hw. cbn [rev glue app filter nonEmpty].
      destruct (chunks_cons s) as (t & ts & ->). reflexivity.
Qed.

Lemma space_split_words (s : jsstring) :
  filter nonEmpty (JS.splitRegex spaceSeparator s) = words s.
Proof.
  unfold JS.splitRegex, words.
  rewrite (space_split_chunks s [] O (Nat.le_0_l _) (or_introl eq_refl)).
  destruct (chunks_cons s) as (t & ts & ->). reflexivity.
Qed.

Lemma words_blank_l (b s : jsstring) : blank b -> words (b ++ s) = words s.
Proof.
  unfold words. induction 1 as [|c b Hc _ IH]; [reflexivity|].
  cbn [app chunks]. rewrite Hc. exact IH.
Qed.

Lemma chunks_snoc (s : jsstring) (c : N) :
  JS.isWhiteSpace c = true -> chunks (s ++ [c]) = (chunks s ++ [[]])%list.
Proof.
  intros Hc. induction s as [|x s IH]; simpl.
  - now rewrite Hc.
  - rewrite IH. destruct (JS.isWhiteSpace x); [reflexivity|].
    destruct (chunks_cons s) as (t & ts & ->). reflexivity.
Qed.

Lemma words_blank_r (s b : jsstring) : blank b -> words (s ++ b) = words s.
Proof.
  intros Hb. revert s. induction Hb as [|c b Hc _ IH]; intros s.
  - now rewrite app_nil_r.
  - change (c :: b) with ([c] ++ b)%list. rewrite app_assoc, IH.
    unfold words. rewrite (chunks_snoc _ _ Hc), filter_app.
    cbn [filter nonEmpty]. now rewrite app_nil_r.
Qed.

Lemma words_trim (s : jsstring) : words (JS.trim s) = words s.
Proof.
  destruct (trim_split s) as (w1 & w2 & Heq & H1 & H2).
  rewrite Heq at 2. now rewrite words_blank_l, words_blank_r.
Qed.

Lemma endsInInk_tail (c : N) (s : jsstring) :
  endsInInk (c :: s) -> endsInInk s.
Proof.
  unfold endsInInk. cbn [rev]. destruct (rev s) as [|d r]; [trivial|].
  cbn [app]. trivial.
Qed.

Lemma endsInInk_blank (c : N) (s : jsstring) :
  endsInInk (c :: s) -> JS.isWhiteSpace c = true -> s <> [].
Proof.
  unfold endsInInk. intros H Hc ->. cbn in H. congruence.
Qed.

Lemma space_split_full (s : jsstring) :
  forall cur skip,
    endsInInk s ->
    (cur <> [] /\ skip = O)
    \/ (s <> [] /\ skip = JS.runLength JS.isWhiteSpace s) ->
    Forall (fun t => nonEmpty t = true)
           (JS.splitGo spaceSeparator s cur skip).
Proof.
  induction s as [|c s IH]; intros cur skip Hend Hc.
  - destruct Hc as [[Hcur ->]|[Hs _]]; [|contradiction].
    simpl. constructor; [|constructor].
    destruct cur as [|x cur]; [contradiction|]. cbn [rev].
    destruct (rev cur); reflexivity.
  - pose proof (endsInInk_tail _ _ Hend) as Hend'.
    cbn [JS.splitGo]. destruct skip as [|k].
    + assert (Hm : spaceSeparator (c :: s)
                   = if JS.isWhiteSpace c
                     then Some (S (JS.runLength JS.isWhiteSpace s))
                     else None).
      { unfold spaceSeparator. cbn [JS.runLength].
        destruct (JS.isWhiteSpace c); reflexivity. }
      rewrite Hm. destruct (JS.isWhiteSpace c) eqn:Hw.
      * destruct Hc as [[Hcur _]|[_ Hk]];
          [|cbn [JS.runLength] in Hk; rewrite Hw in Hk; discriminate].
        constructor.
        { destruct cur as [|x cur]; [contradiction|]. cbn [rev].
          destruct (rev cur); reflexivity. }
        apply IH; [exact Hend'|]. right.
        split; [exact (endsInInk_blank _ _ Hend Hw)|reflexivity].
      * apply IH; [exact Hend'|]. left. split; [discriminate|reflexivity].
    + destruct Hc as [[_ Hk]|[_ Hk]]; [discriminate|].
      cbn [JS.runLength] in Hk. destruct (JS.isWhiteSpace c) eqn:Hw;
        [|discriminate].
      injection Hk as ->. apply IH; [exact Hend'|]. right.
      split; [exact (endsInInk_blank _ _ Hend Hw)|reflexivity].
Qed.

Lemma filter_Forall {X} (f : X -> bool) (l : list X) :
  Forall (fun x => f x = true) l -> filter f l = l.
Proof.
  induction 1 as [|x l Hx _ IH]; simpl; [reflexivity|]. now rewrite Hx, IH.
Qed.

Lemma dropWhile_head (p : N -> bool) (s : jsstring) :
  match JS.dropWhile p s with
  | [] => True
  | c :: _ => p c = false
  end.
Proof.
  induction s as [|c s IH]; simpl; [trivial|].
  destruct (p c) eqn:Hc; [exact IH|exact Hc].
Qed.

Lemma trim_ends (s : jsstring) :
  match JS.trim s with
  | [] => True
  | c :: _ => JS.isWhiteSpace c = false
  end
  /\ endsInInk (JS.trim s).
Proof.
  unfold JS.trim, JS.trimEnd, JS.trimStart.
  set (u := JS.dropWhile JS.isWhiteSpace s).
  pose proof (dropWhile_head JS.isWhiteSpace s) as Hu. fold u in Hu.
  pose proof (dropWhile_head JS.isWhiteSpace (rev u)) as Hr.
  split.
  - destruct (dropWhile_split JS.isWhiteSpace (rev u)) as (pre & Heq & Hpre).
    set (v := JS.dropWhile JS.isWhiteSpace (rev u)) in *.
    assert (Hu' : u = (rev v ++ rev pre)%list).
    { rewrite <- rev_app_distr, <- Heq, rev_involutive. reflexivity. }
    destruct (rev v) as [|c r] eqn:Hv; [trivial|].
    rewrite Hu' in Hu. exact Hu.
  - unfold endsInInk. rewrite rev_involutive. exact Hr.
Qed.

(** The second split of a string that is not blank gives its words. *)
Lemma spaceParts_words (input : jsstring) :
  JS.trim input <> [] -> spaceParts input = words input.
Proof.
  intros Hne. rewrite <- words_trim, <- space_split_words.
  symmetry. apply filter_Forall. unfold spaceParts, JS.splitRegex.
  destruct (trim_ends input) as [Hhead Hend].
  apply space_split_full; [exact Hend|]. right. split; [exact Hne|].
  destruct (JS.trim input) as [|c s]; [contradiction|].
  cbn [JS.runLength]. now rewrite Hhead.
Qed.

(** The first split reads through the body of a token. *)
Lemma tokenBody_scan (s : jsstring) :
  tokenBody s = true ->
  forall rest cur,
    JS.splitGo primarySeparator (s ++ rest) cur 0
    = JS.splitGo primarySeparator rest (rev s ++ cur) 0.
Proof.
  induction s as [|c s IH]; intros Hb rest cur; [reflexivity|].
  cbn [tokenBody] in Hb. apply andb_true_iff in Hb as [Hb Hs].
  apply andb_true_iff in Hb as [Hc Hw]. apply negb_true_iff in Hc.
  assert (Hm : primarySeparator (c :: s ++ rest) = None).
  { unfold primarySeparator. rewrite Hc. cbn [JS.runLength].
    destruct (JS.isWhiteSpace c); [|reflexivity].
    destruct s as [|d s]; [discriminate|]. apply negb_true_iff in Hw.
    cbn [app JS.runLength]. rewrite Hw. reflexivity. }
  cbn [app JS.splitGo]. rewrite Hm, (IH Hs). cbn [rev].
  now rewrite <- app_assoc.
Qed.

Lemma runLength_margin (p : N -> bool) (sep rest : jsstring) :
  (forall c, p c = true -> isSeparatorChar c = true) ->
  headInk rest ->
  (JS.runLength p (sep ++ rest) <= List.length sep)%nat.
Proof.
  intros Hp Hrest. induction sep as [|c sep IH]; cbn [app JS.runLength].
  - destruct rest as [|d rest]; [simpl; lia|]. cbn [JS.runLength].
    destruct (p d) eqn:Hd; [|simpl; lia].
    apply Hp in Hd. simpl in Hrest. congruence.
  - destruct (p c); simpl; lia.
Qed.

Lemma blank_snoc (w : jsstring) (c : N) :
  blank w -> JS.isWhiteSpace c = true -> blank (w ++ [c]).
Proof.
  intros Hw Hc. apply Forall_app. split; [exact Hw|].
  constructor; [exact Hc|constructor].
Qed.

(** The first split across a margin: either the margin is at most one
    white-space code unit and the token under way goes on, or the token
    under way ends, with white space after it at most, and the next one
    starts, with white space before it at most. *)
Lemma margin_split (rest : jsstring) :
  headInk rest ->
  forall sep,
    margin sep ->
    forall cur skip,
      (skip <= List.length sep)%nat ->
      (exists w,
          blank w
          /\ JS.splitGo primarySeparator (sep ++ rest) cur skip
             = JS.splitGo primarySeparator rest (w ++ cur) 0
          /\ (skip = O -> blank sep /\ (List.length sep <= 1)%nat))
      \/ (exists w bl cur',
             blank w /\ Forall blank bl /\ blank cur'
             /\ JS.splitGo primarySeparator (sep ++ rest) cur skip
                = ((rev cur ++ w) :: bl
                   ++ JS.splitGo primarySeparator rest cur' 0)%list).
Proof.
  intros Hrest. induction 1 as [|c sep Hc Hsep IH]; intros cur skip Hk.
  - simpl in Hk. assert (skip = O) by lia. subst skip. left. exists [].
    split; [constructor|]. split; [reflexivity|]. intros _.
    split; [constructor|simpl; lia].
  - cbn [List.length] in Hk. cbn [app JS.splitGo]. destruct skip as [|k].
    + (* a match may start here *)
      assert (Hcut : forall n,
                 (n <= List.length sep)%nat ->
                 exists w bl cur',
                   blank w /\ Forall blank bl /\ blank cur'
                   /\ (rev cur :: JS.splitGo primarySeparator (sep ++ rest)
                                             [] n)
                      = ((rev cur ++ w) :: bl
                         ++ JS.splitGo primarySeparator rest cur' 0)%list).
      { intros n Hn.
        destruct (IH [] n Hn) as [(w & Hw & Heq & _)
                                 |(w & bl & cur' & Hw & Hbl & Hcur & Heq)].
        - exists [], [], (w ++ [])%list. split; [constructor|].
          split; [constructor|]. split; [now rewrite app_nil_r|].
          rewrite Heq, (app_nil_r (rev cur)). reflexivity.
        - exists [], (w :: bl), cur'. split; [constructor|].
          split; [constructor; assumption|]. split; [exact Hcur|].
          now rewrite Heq, app_nil_r. }
      destruct (isCommaOrHyphen c) eqn:Hch.
      * assert (Hm : primarySeparator (c :: sep ++ rest)
                     = Some (S (JS.runLength isCommaOrHyphen (sep ++ rest)))).
        { unfold primarySeparator. rewrite Hch. cbn [JS.runLength].
          now rewrite Hch. }
        rewrite Hm. right. apply Hcut. apply runLength_margin; [|exact Hrest].
        intros x Hx. unfold isSeparatorChar. rewrite Hx. apply orb_true_r.
      * assert (Hw : JS.isWhiteSpace c = true).
        { unfold isSeparatorChar in Hc. rewrite Hch, orb_false_r in Hc.
          exact Hc. }
        set (m := JS.runLength JS.isWhiteSpace (sep ++ rest)).
        assert (Hmle : (m <= List.length sep)%nat).
        { apply runLength_margin; [|exact Hrest].
          intros x Hx. unfold isSeparatorChar. now rewrite Hx. }
        assert (Hm : primarySeparator (c :: sep ++ rest)
                     = if (1 <=? m)%nat then Some (S m) else None).
        { unfold primarySeparator. rewrite Hch. cbn [JS.runLength].
          rewrite Hw. fold m. reflexivity. }
        rewrite Hm. destruct (1 <=? m)%nat eqn:Hm1.
        -- right. apply Hcut, Hmle.
        -- apply Nat.leb_gt in Hm1.
           destruct (IH (c :: cur) O (Nat.le_0_l _))
             as [(w & Hbw & Heq & Hone)
                |(w & bl & cur' & Hbw & Hbl & Hcur & Heq)].
           ++ left. exists (w ++ [c])%list.
              split; [apply blank_snoc; assumption|].
              split; [now rewrite Heq, <- app_assoc|]. intros _.
              destruct (Hone eq_refl) as [Hbs _].
              assert (sep = []) as ->.
              { destruct sep as [|d sep]; [reflexivity|].
                inversion Hbs as [|? ? Hd _]; subst.
                unfold m in Hm1. cbn [app JS.runLength] in Hm1.
                rewrite Hd in Hm1. lia. }
              split; [constructor; [exact Hw|constructor]|simpl; lia].
           ++ right. exists (c :: w), bl, cur'.
              split; [constructor; assumption|].
              split; [exact Hbl|]. split; [exact Hcur|].
              rewrite Heq. cbn [rev]. now rewrite <- app_assoc.
    + destruct (IH cur k ltac:(lia))
        as [(w & Hbw & Heq & _)|(w & bl & cur' & Hbw & Hbl & Hcur & Heq)].
      * left. exists w. split; [exact Hbw|]. split; [exact Heq|].
        discriminate.
      * right. exists w, bl, cur'. auto.
Qed.

Lemma blank_not_separator (sep : jsstring) :
  blank sep -> existsb isCommaOrHyphen sep = false.
Proof.
  induction 1 as [|c sep Hc _ IH]; [reflexivity|]. cbn [existsb].
  now rewrite (whiteSpace_not_separator _ Hc), IH.
Qed.

(** Across a separator the token under way ends. *)
Lemma separator_split (rest sep cur : jsstring) :
  headInk rest -> separates sep ->
  exists w bl cur',
    blank w /\ Forall blank bl /\ blank cur'
    /\ JS.splitGo primarySeparator (sep ++ rest) cur 0
       = ((rev cur ++ w) :: bl
          ++ JS.splitGo primarySeparator rest cur' 0)%list.
Proof.
  intros Hrest [Hm Hsep].
  destruct (margin_split rest Hrest sep Hm cur O (Nat.le_0_l _))
    as [(w & _ & _ & Hone)|H]; [|exact H].
  destruct (Hone eq_refl) as [Hb Hlen]. exfalso.
  destruct Hsep as [Hsep|Hsep]; [|lia].
  rewrite (blank_not_separator _ Hb) in Hsep. discriminate.
Qed.

Lemma dropWhile_blank (b s : jsstring) :
  blank b -> JS.dropWhile JS.isWhiteSpace (b ++ s)
             = JS.dropWhile JS.isWhiteSpace s.
Proof.
  induction 1 as [|c b Hc _ IH]; [reflexivity|]. cbn [app JS.dropWhile].
  now rewrite Hc.
Qed.

Lemma tokenBody_ends (t : jsstring) :
  tokenBody t = true -> endsInInk t.
Proof.
  unfold endsInInk. induction t as [|c t IH]; [intros _; exact I|].
  cbn [tokenBody]. intros Hb. apply andb_true_iff in Hb as [Hb Ht].
  apply andb_true_iff in Hb as [_ Hw]. specialize (IH Ht). cbn [rev].
  destruct t as [|d t].
  - simpl. destruct (JS.isWhiteSpace c); [discriminate|reflexivity].
  - destruct (rev (d :: t)) as [|x r] eqn:Hr.
    + apply (f_equal (@List.length _)) in Hr. rewrite length_rev in Hr.
      discriminate Hr.
    + exact IH.
Qed.

(** Trimming takes the white space around a token away and leaves the
    token. *)
Lemma trim_token (b1 t b2 : jsstring) :
  isToken t = true -> blank b1 -> blank b2 ->
  JS.trim (b1 ++ t ++ b2) = t.
Proof.
  intros Ht H1 H2. destruct t as [|c t]; [discriminate|].
  cbn [isToken] in Ht. apply andb_true_iff in Ht as [Hc Hb].
  apply negb_true_iff in Hc.
  unfold JS.trim, JS.trimStart, JS.trimEnd.
  rewrite (dropWhile_blank _ _ H1). cbn [app JS.dropWhile]. rewrite Hc.
  change (c :: t ++ b2)%list with ((c :: t) ++ b2)%list.
  rewrite rev_app_distr, dropWhile_blank by (apply Forall_rev, H2).
  pose proof (tokenBody_ends _ Hb) as He. unfold endsInInk in He.
  destruct (rev (c :: t)) as [|x r] eqn:Hr.
  - apply (f_equal (@List.length _)) in Hr. rewrite length_rev in Hr.
    discriminate Hr.
  - cbn [JS.dropWhile]. rewrite He, <- Hr. apply rev_involutive.
Qed.

Lemma isToken_nonEmpty (t : jsstring) : isToken t = true -> nonEmpty t = true.
Proof. destruct t; [discriminate|reflexivity]. Qed.

Lemma isToken_headInk (t rest : jsstring) :
  isToken t = true -> headInk (t ++ rest).
Proof.
  destruct t as [|c t]; [discriminate|]. cbn [isToken tokenBody]. intros H.
  apply andb_true_iff in H as [Hw H]. apply andb_true_iff in H as [H _].
  apply andb_true_iff in H as [Hc _]. apply negb_true_iff in Hw, Hc.
  cbn [app headInk]. unfold isSeparatorChar. now rewrite Hw, Hc.
Qed.

Lemma isToken_body (t : jsstring) : isToken t = true -> tokenBody t = true.
Proof.
  destruct t as [|c t]; [discriminate|]. cbn [isToken]. intros H.
  apply andb_true_iff in H. tauto.
Qed.

(** The tokens of the first split, from the first token on. *)
Lemma joined_tokens (trail : jsstring) (rest : list (jsstring * jsstring)) :
  margin trail ->
  Forall (fun st => separates (fst st) /\ isToken (snd st) = true) rest ->
  forall t cur,
    isToken t = true -> blank cur ->
    filter nonEmpty
      (map JS.trim
         (JS.splitGo primarySeparator (joined t rest ++ trail) cur 0))
    = t :: map snd rest.
Proof.
  intros Htrail. induction 1 as [|[sep t'] rest [Hsep Ht'] _ IH];
    intros t cur Ht Hcur.
  - unfold joined. cbn [map List.concat]. rewrite app_nil_r.
    rewrite (tokenBody_scan _ (isToken_body _ Ht)).
    rewrite <- (app_nil_r trail).
    destruct (margin_split [] I trail Htrail (rev t ++ cur) O
                (Nat.le_0_l _))
      as [(w & Hw & Heq & _)|(w & bl & cur' & Hw & Hbl & Hc' & Heq)];
      rewrite Heq.
    + cbn [JS.splitGo map filter].
      rewrite !rev_app_distr, rev_involutive, <- app_assoc.
      rewrite trim_token;
        [|exact Ht|apply Forall_rev, Hcur|apply Forall_rev, Hw].
      now rewrite (isToken_nonEmpty _ Ht).
    + cbn [JS.splitGo map filter].
      rewrite rev_app_distr, rev_involutive, <- app_assoc.
      rewrite trim_token; [|exact Ht|apply Forall_rev, Hcur|exact Hw].
      rewrite (isToken_nonEmpty _ Ht). f_equal.
      apply blank_tokens. apply Forall_app. split; [exact Hbl|].
      constructor; [apply Forall_rev, Hc'|constructor].
  - assert (Heq : (joined t ((sep, t') :: rest) ++ trail
                   = t ++ sep ++ (joined t' rest ++ trail))%list).
    { unfold joined. cbn [map List.concat fst snd].
      now rewrite <- !app_assoc. }
    rewrite Heq, (tokenBody_scan _ (isToken_body _ Ht)).
    cbn [fst snd] in Hsep, Ht'.
    assert (Hhead : headInk (joined t' rest ++ trail)).
    { unfold joined. rewrite <- app_assoc. apply isToken_headInk, Ht'. }
    destruct (separator_split _ sep (rev t ++ cur) Hhead Hsep)
      as (w & bl & cur' & Hw & Hbl & Hc' & Hs).
    rewrite Hs. cbn [map filter]. rewrite map_app, filter_app.
    rewrite rev_app_distr, rev_involutive, <- app_assoc.
    rewrite trim_token; [|exact Ht|apply Forall_rev, Hcur|exact Hw].
    rewrite (isToken_nonEmpty _ Ht), (blank_tokens _ Hbl).
    cbn [app map snd]. f_equal. apply IH; assumption.
Qed.

(** The first split of tokens joined by separators, inside margins, gives
    the tokens. *)
Lemma primaryParts_joined (lead t trail : jsstring)
      (rest : list (jsstring * jsstring)) :
  margin lead -> margin trail -> isToken t = true ->
  Forall (fun st => separates (fst st) /\ isToken (snd st) = true) rest ->
  primaryParts (lead ++ joined t rest ++ trail) = t :: map snd rest.
Proof.
  intros Hlead Htrail Ht Hrest. unfold primaryParts, JS.splitRegex.
  assert (Hhead : headInk (joined t rest ++ trail)).
  { unfold joined. rewrite <- app_assoc. apply isToken_headInk, Ht. }
  destruct (margin_split _ Hhead lead Hlead [] O (Nat.le_0_l _))
    as [(w & Hw & Heq & _)|(w & bl & cur' & Hw & Hbl & Hc' & Heq)];
    rewrite Heq.
  - apply joined_tokens; try assumption. now rewrite app_nil_r.
  - cbn [rev app map filter]. rewrite (trim_blank _ Hw). cbn [nonEmpty].
    rewrite map_app, filter_app, (blank_tokens _ Hbl). cbn [app].
    apply joined_tokens; assumption.
Qed.

(** The first split of a margin gives no token. *)
Lemma primaryParts_margin (input : jsstring) :
  margin input -> primaryParts input = [].
Proof.
  intros Hm. unfold primaryParts, JS.splitRegex.
  rewrite <- (app_nil_r input).
  destruct (margin_split [] I input Hm [] O (Nat.le_0_l _))
    as [(w & Hw & Heq & _)|(w & bl & cur' & Hw & Hbl & Hc' & Heq)];
    rewrite Heq.
  - cbn [JS.splitGo map filter]. rewrite app_nil_r.
    rewrite (trim_blank (rev w)) by (apply Forall_rev, Hw). reflexivity.
  - cbn [rev app map filter JS.splitGo]. rewrite (trim_blank _ Hw).
    cbn [nonEmpty]. apply blank_tokens. apply Forall_app.
    split; [exact Hbl|]. constructor; [apply Forall_rev, Hc'|constructor].
Qed.

Lemma token_not_blank (lead t rest : jsstring) :
  isToken t = true -> JS.trim (lead ++ t ++ rest) <> [].
Proof.
  intros Ht Htrim.
  destruct (trim_split (lead ++ t ++ rest)) as (w1 & w2 & Heq & H1 & H2).
  rewrite Htrim in Heq. cbn [app] in Heq.
  assert (Hb : blank (lead ++ t ++ rest))
    by (rewrite Heq; apply Forall_app; split; assumption).
  apply Forall_app in Hb as [_ Hb]. apply Forall_app in Hb as [Hb _].
  destruct t as [|c t]; [discriminate|]. inversion Hb as [|? ? Hc _]; subst.
  cbn [isToken] in Ht. rewrite Hc in Ht. discriminate.
Qed.

Lemma isToken_cons (c : N) (t : jsstring) :
  isSeparatorChar c = false -> isToken t = true -> isToken (c :: t) = true.
Proof.
  unfold isSeparatorChar. intros Hc Ht. apply orb_false_iff in Hc as [Hw Hs].
  cbn [isToken tokenBody]. rewrite Hw, Hs. cbn [negb andb].
  apply isToken_body, Ht.
Qed.

Lemma isToken_space (c w : N) (t : jsstring) :
  isSeparatorChar c = false -> JS.isWhiteSpace w = true ->
  isToken t = true -> isToken (c :: w :: t) = true.
Proof.
  unfold isSeparatorChar. intros Hc Hw Ht.
  apply orb_false_iff in Hc as [Hcw Hcs].
  destruct t as [|d t]; [discriminate|]. cbn [isToken] in Ht.
  apply andb_true_iff in Ht as [Hd Hb].
  cbn [isToken]. rewrite Hcw. cbn [negb andb].
  change (tokenBody (c :: w :: d :: t))
    with (negb (isCommaOrHyphen c)
          && (if JS.isWhiteSpace c
              then negb (JS.isWhiteSpace w) else true)
          && (negb (isCommaOrHyphen w)
              && (if JS.isWhiteSpace w
                  then negb (JS.isWhiteSpace d) else true)
              && tokenBody (d :: t)))%bool.
  rewrite Hcs, Hcw, Hw, (whiteSpace_not_separator _ Hw), Hd, Hb.
  reflexivity.
Qed.

(** Every input is a margin, or tokens joined by separators inside
    margins. *)
Lemma input_tokens (input : jsstring) :
  margin input
  \/ exists lead t rest trail,
       margin lead /\ margin trail /\ isToken t = true
       /\ Forall (fun st => separates (fst st) /\ isToken (snd st) = true)
                 rest
       /\ input = (lead ++ joined t rest ++ trail)%list.
Proof.
  induction input as [|c s IH]; [left; constructor|].
  destruct (isSeparatorChar c) eqn:Hc.
  - destruct IH as [Hm|(lead & t & rest & trail & Hl & Htr & Ht & Hr & ->)].
    + left. constructor; assumption.
    + right. exists (c :: lead), t, rest, trail.
      split; [constructor; assumption|]. auto.
  - right.
    destruct IH as [Hm|(lead & t & rest & trail & Hl & Htr & Ht & Hr & ->)].
    + exists [], [c], [], s. split; [constructor|]. split; [exact Hm|].
      split; [|split; [constructor|reflexivity]].
      unfold isSeparatorChar in Hc. apply orb_false_iff in Hc as [Hw Hs].
      cbn. now rewrite Hw, Hs.
    + destruct lead as [|w lead].
      * exists [], (c :: t), rest, trail. split; [constructor|].
        split; [exact Htr|]. split; [apply isToken_cons; assumption|].
        split; [exact Hr|reflexivity].
      * inversion Hl as [|? ? Hw Hl']; subst.
        destruct lead as [|w' lead];
          [destruct (JS.isWhiteSpace w) eqn:Hws|].
        -- exists [], (c :: w :: t), rest, trail. split; [constructor|].
           split; [exact Htr|]. split; [apply isToken_space; assumption|].
           split; [exact Hr|]. unfold joined. reflexivity.
        -- exists [], [c], (([w], t) :: rest), trail.
           split; [constructor|]. split; [exact Htr|]. split.
           { unfold isSeparatorChar in Hc.
             apply orb_false_iff in Hc as [Hcw Hcs]. cbn.
             now rewrite Hcw, Hcs. }
           split; [|unfold joined; cbn [map List.concat fst snd app];
                    now rewrite <- !app_assoc].
           constructor; [|exact Hr]. cbn [fst snd].
           split; [|exact Ht]. split; [exact Hl|]. left.
           unfold isSeparatorChar in Hw. rewrite Hws in Hw.
           cbn [orb] in Hw. cbn [existsb]. now rewrite Hw.
        -- exists [], [c], ((w :: w' :: lead, t) :: rest), trail.
           split; [constructor|]. split; [exact Htr|]. split.
           { unfold isSeparatorChar in Hc.
             apply orb_false_iff in Hc as [Hcw Hcs]. cbn.
             now rewrite Hcw, Hcs. }
           split; [|unfold joined; cbn [map List.concat fst snd app];
                    now rewrite <- !app_assoc].
           constructor; [|exact Hr]. cbn [fst snd].
           split; [|exact Ht]. split; [exact Hl|]. right. simpl. lia.
Qed.

(** C7: [parseProgression] on tokens joined by separators, within margins:
    the first split, on runs of commas and hyphens and on two or more
    white-space code units, gives the tokens; two or more tokens are
    filtered by chord parsing; a single token is replaced by the words of
    the input (the second split, on white space) exactly when there are two
    or more words and every word parses as a chord, and is filtered by
    chord parsing otherwise.  An input without a token gives the empty
    list; every input is of one of the two forms.  Every returned token
    parses as a chord, and the three documented results hold. *)
Theorem parseProgression_spec :
  parseProgression (JS.lit "Am, C, G") = map JS.lit ["Am"; "C"; "G"]%string
  /\ parseProgression (JS.lit "Am - C - G")
     = map JS.lit ["Am"; "C"; "G"]%string
  /\ parseProgression (JS.lit "xx, yy") = []
  /\ (forall (lead t trail : jsstring) (rest : list (jsstring * jsstring)),
         margin lead -> margin trail -> isToken t = true ->
         Forall (fun st => separates (fst st) /\ isToken (snd st) = true)
                rest ->
         let input := (lead ++ joined t rest ++ trail)%list in
         parseProgression input
         = match rest with
           | [] =>
               if ((1 <? List.length (words input))%nat
                   && forallb isChord (words input))%bool
               then words input
               else filter isChord [t]
           | _ :: _ => filter isChord (t :: map snd rest)
           end)
  /\ (forall input, margin input -> parseProgression input = [])
  /\ (forall input,
         margin input
         \/ exists lead t rest trail,
              margin lead /\ margin trail /\ isToken t = true
              /\ Forall (fun st =>
                           separates (fst st) /\ isToken (snd st) = true)
                        rest
              /\ input = (lead ++ joined t rest ++ trail)%list)
  /\ (forall input,
         Forall (fun t => isChord t = true) (parseProgression input)).
Proof.
  split; [reflexivity|]. split; [reflexivity|]. split; [reflexivity|].
  split; [|split; [|split; [apply input_tokens
                           |apply parseProgression_chords]]].
  - intros lead t trail rest Hlead Htrail Ht Hrest input.
    pose proof (primaryParts_joined lead t trail rest Hlead Htrail Ht Hrest)
      as Hparts. fold input in Hparts.
    assert (Hwords : spaceParts input = words input).
    { apply spaceParts_words. unfold input, joined.
      rewrite <- app_assoc. apply token_not_blank, Ht. }
    unfold parseProgression. rewrite Hparts, Hwords.
    destruct input as [|c s] eqn:Hin.
    { exfalso. unfold input, joined in Hin.
      apply app_eq_nil in Hin as [_ Hin]. apply app_eq_nil in Hin as [Hin _].
      apply app_eq_nil in Hin as [Hin _]. subst t. discriminate. }
    destruct rest as [|st rest]; [reflexivity|].
    cbn [map List.length Nat.eqb andb]. reflexivity.
  - intros input Hm. unfold parseProgression.
    destruct input as [|c s]; [reflexivity|].
    rewrite (primaryParts_margin _ Hm). reflexivity.
Qed.

Lemma parseProgression_spec_witness :
  parseProgression ([] ++ joined (JS.lit "Am C G") [] ++ [])%list
  = map JS.lit ["Am"; "C"; "G"]%string
  /\ parseProgression
       (JS.lit " " ++ joined (JS.lit "Am C") [(JS.lit " ,", JS.lit "G")]
        ++ JS.lit "- ")%list
     = map JS.lit ["Am C"; "G"]%string.
Proof.
  destruct parseProgression_spec as (_ & _ & _ & Hspec & _). split.
  - rewrite (Hspec [] (JS.lit "Am C G") [] []);
      [reflexivity|constructor|constructor|reflexivity|constructor].
  - rewrite (Hspec (JS.lit " ") (JS.lit "Am C") (JS.lit "- ")
                   [(JS.lit " ,", JS.lit "G")]).
    + reflexivity.
    + repeat constructor.
    + repeat constructor.
    + reflexivity.
    + constructor; [|constructor]. split; [|reflexivity].
      split; [repeat constructor|left; reflexivity].
Defined.

(* ------------------------------------------------------------------ *)
(** ** The page: note grid, markers and state *)

Lemma countUp_In (lo hi x : Z) : In x (countUp lo hi) <-> lo <= x <= hi.
Proof.
  unfold countUp. rewrite in_map_iff. split.
  - intros (i & <- & Hi). apply in_seq in Hi. lia.
  - intros H. exists (Z.to_nat (x - lo)). split; [lia|].
    apply in_seq. lia.
Qed.

Lemma noteGrid_In (np : NotePosition) :
  In np noteGrid <->
  exists s f,
    1 <= s <= CONFIG_strings /\ 0 <= f <= CONFIG_frets
    /\ np = mkNotePosition (getPositionId s f) s f
                           (getNoteAtPosition false s f).
Proof.
  unfold noteGrid, createNoteGrid. rewrite in_flat_map. split.
  - intros (s & Hs & Hin). apply in_map_iff in Hin as (f & <- & Hf).
    apply countUp_In in Hs, Hf. exists s, f. auto.
  - intros (s & f & Hs & Hf & ->). exists s.
    split; [apply countUp_In, Hs|].
    apply in_map_iff. exists f. split; [reflexivity|apply countUp_In, Hf].
Qed.

(** The document has a note position for the strings 1..6 and the frets
    0..22, and for no other pair. *)
Lemma getElementById_board (s f : Z) :
  getElementById (getPositionId s f) <> None <->
  (1 <= s <= CONFIG_strings /\ 0 <= f <= CONFIG_frets).
Proof.
  unfold getElementById. split.
  - intros H.
    destruct (find _ noteGrid) as [np|] eqn:Hfind; [|contradiction].
    apply find_some in Hfind as [Hin Heq]. apply JS_eqb_eq in Heq.
    apply noteGrid_In in Hin as (s' & f' & Hs & Hf & ->).
    cbn [np_id] in Heq. apply getPositionId_inj in Heq as [-> ->]. auto.
  - intros [Hs Hf] Hnone.
    pose proof (find_none _ _ Hnone
                  (mkNotePosition (getPositionId s f) s f
                                  (getNoteAtPosition false s f))) as H.
    cbv beta in H. cbn [np_id] in H. rewrite JS_eqb_refl in H.
    assert (true = false); [|discriminate].
    apply H. apply noteGrid_In. exists s, f. auto.
Qed.

Lemma JS_eqb_sym (a b : jsstring) : JS.eqb a b = JS.eqb b a.
Proof.
  destruct (JS.eqb a b) eqn:H1, (JS.eqb b a) eqn:H2; try reflexivity.
  - apply JS_eqb_eq in H1. subst. now rewrite JS_eqb_refl in H2.
  - apply JS_eqb_eq in H2. subst. now rewrite JS_eqb_refl in H1.
Qed.

Lemma JS_eqb_neq (a b : jsstring) : JS.eqb a b = false <-> a <> b.
Proof.
  split.
  - intros H Heq. subst. now rewrite JS_eqb_refl in H.
  - intros H. destruct (JS.eqb a b) eqn:He; [|reflexivity].
    apply JS_eqb_eq in He. contradiction.
Qed.

Lemma lookup_setMarker (id id' : jsstring) (m : Marker)
      (markers : list (jsstring * Marker)) :
  lookup (setMarker id m markers) id'
  = if JS.eqb id id' then Some m else lookup markers id'.
Proof.
  induction markers as [|[k x] markers IH]; cbn [setMarker lookup].
  - destruct (JS.eqb id id'); reflexivity.
  - destruct (JS.eqb k id) eqn:Hk; cbn [lookup].
    + apply JS_eqb_eq in Hk. subst k.
      destruct (JS.eqb id id'); reflexivity.
    + rewrite IH. destruct (JS.eqb k id') eqn:Hk'; [|reflexivity].
      apply JS_eqb_eq in Hk'. subst k.
      rewrite JS_eqb_sym in Hk. now rewrite Hk.
Qed.

Lemma lookup_removeMarker (id id' : jsstring)
      (markers : list (jsstring * Marker)) :
  lookup (removeMarker id markers) id'
  = if JS.eqb id id' then None else lookup markers id'.
Proof.
  unfold removeMarker.
  induction markers as [|[k x] markers IH]; cbn [filter lookup fst].
  - destruct (JS.eqb id id'); reflexivity.
  - destruct (JS.eqb k id) eqn:Hk; cbn [negb lookup].
    + apply JS_eqb_eq in Hk. subst k. rewrite IH.
      destruct (JS.eqb id id'); reflexivity.
    + rewrite IH. destruct (JS.eqb k id') eqn:Hk'; [|reflexivity].
      apply JS_eqb_eq in Hk'. subst k.
      rewrite JS_eqb_sym in Hk. now rewrite Hk.
Qed.

Lemma sameSpot_positionId (s f : Z) (n : Position) :
  sameSpot s f n = JS.eqb (positionId n) (getPositionId s f).
Proof.
  unfold sameSpot, positionId.
  destruct (JS.eqb _ _) eqn:He.
  - apply JS_eqb_eq, getPositionId_inj in He as [-> ->].
    now rewrite !Z.eqb_refl.
  - apply JS_eqb_neq in He.
    destruct (stringNum n =? s) eqn:H1; [|reflexivity].
    destruct (fret n =? f) eqn:H2; [|reflexivity].
    apply Z.eqb_eq in H1, H2. subst. contradiction.
Qed.

Lemma find_app_first {X} (p : X -> bool) (l1 l2 : list X) :
  find p (l1 ++ l2)
  = match find p l1 with Some x => Some x | None => find p l2 end.
Proof.
  induction l1 as [|x l1 IH]; cbn [app find]; [reflexivity|].
  destruct (p x); [reflexivity|exact IH].
Qed.

Lemma find_filter_keep {X} (p q : X -> bool) (l : list X) :
  (forall x, q x = true -> p x = true) ->
  find q (filter p l) = find q l.
Proof.
  intros H. induction l as [|x l IH]; cbn [filter find]; [reflexivity|].
  destruct (p x) eqn:Hp; cbn [find].
  - now rewrite IH.
  - destruct (q x) eqn:Hq; [|exact IH].
    rewrite (H x Hq) in Hp. discriminate.
Qed.

Lemma find_filter_gone {X} (p q : X -> bool) (l : list X) :
  (forall x, q x = true -> p x = false) ->
  find q (filter p l) = None.
Proof.
  intros H. induction l as [|x l IH]; cbn [filter find]; [reflexivity|].
  destruct (p x) eqn:Hp; [|exact IH]. cbn [find].
  destruct (q x) eqn:Hq; [|exact IH].
  rewrite (H x Hq) in Hp. discriminate.
Qed.

Lemma NoDup_map_filter {X Y} (g : X -> Y) (p : X -> bool) (l : list X) :
  NoDup (map g l) -> NoDup (map g (filter p l)).
Proof.
  induction l as [|x l IH]; cbn [map filter]; [auto|].
  intros Hnd. inversion Hnd as [|? ? Hnot Hrest]; subst.
  destruct (p x); [|auto]. cbn [map]. constructor; [|auto].
  intros Hin. apply Hnot. apply in_map_iff in Hin as (y & Hy & Hin).
  apply filter_In in Hin as [Hin _]. apply in_map_iff. eauto.
Qed.

Lemma filter_all {X} (p : X -> bool) (l : list X) :
  (forall x, In x l -> p x = true) -> filter p l = l.
Proof.
  induction l as [|x l IH]; intros H; cbn [filter]; [reflexivity|].
  rewrite (H x (or_introl eq_refl)). f_equal. apply IH.
  intros y Hy. apply H. right. exact Hy.
Qed.

Lemma existsb_sameSpot (s f : Z) (notes : list Position) :
  existsb (sameSpot s f) notes = false <->
  find (fun n => JS.eqb (positionId n) (getPositionId s f)) notes = None.
Proof.
  induction notes as [|n notes IH]; cbn [existsb find]; [tauto|].
  rewrite sameSpot_positionId.
  destruct (JS.eqb (positionId n) (getPositionId s f)); cbn [orb].
  - split; discriminate.
  - exact IH.
Qed.

Lemma find_positionId_None (id : jsstring) (notes : list Position) :
  find (fun n => JS.eqb (positionId n) id) notes = None <->
  ~ In id (map positionId notes).
Proof.
  induction notes as [|n notes IH]; cbn [find map In]; [tauto|].
  destruct (JS.eqb (positionId n) id) eqn:He.
  - apply JS_eqb_eq in He. split; [discriminate|]. intros H.
    exfalso. apply H. left. exact He.
  - apply JS_eqb_neq in He. rewrite IH. tauto.
Qed.

Lemma markersShown_clearAll (st : State) :
  markersShown (clearAllHighlights st).
Proof.
  unfold markersShown, clearAllHighlights. cbn.
  split; [constructor|]. split; [constructor|]. reflexivity.
Qed.

(** Outside the board [highlightPosition] does nothing. *)
Lemma highlightPosition_outside (s f : Z) (r : bool)
      (label : option jsstring) (st : State) :
  ~ (1 <= s <= CONFIG_strings /\ 0 <= f <= CONFIG_frets) ->
  highlightPosition s f r label st = st.
Proof.
  intros H. unfold highlightPosition.
  destruct (getElementById (getPositionId s f)) eqn:He; [|reflexivity].
  exfalso. apply H. apply getElementById_board. congruence.
Qed.

(** On the board, at a position without an active note, it adds the note
    and its marker. *)
Lemma highlightPosition_fresh (s f : Z) (r : bool) (st : State) :
  1 <= s <= CONFIG_strings /\ 0 <= f <= CONFIG_frets ->
  existsb (sameSpot s f) (st_activeNotes st) = false ->
  markersShown st ->
  markersShown (highlightPosition s f r None st)
  /\ st_activeNotes (highlightPosition s f r None st)
     = (st_activeNotes st ++ [mkPos s f r])%list.
Proof.
  intros Hb Hfresh (Hnd & Hon & Hlook).
  unfold highlightPosition.
  destruct (getElementById (getPositionId s f)) eqn:He;
    [|apply getElementById_board in Hb; contradiction].
  rewrite Hfresh. cbn [st_activeNotes]. split; [|reflexivity].
  pose proof Hfresh as Hnone. apply existsb_sameSpot in Hnone.
  unfold markersShown. cbn [st_activeNotes st_markers st_useFlats].
  split; [|split].
  - rewrite map_app. cbn [map]. apply NoDup_app; [exact Hnd| |].
    + constructor; [intros []|constructor].
    + intros id Hin [<-|[]]. apply find_positionId_None in Hnone.
      apply Hnone. exact Hin.
  - apply Forall_app. split; [exact Hon|].
    constructor; [exact Hb|constructor].
  - intros id. rewrite lookup_setMarker, find_app_first, Hlook.
    cbn [find]. change (positionId (mkPos s f r)) with (getPositionId s f).
    destruct (JS.eqb (getPositionId s f) id) eqn:Hid.
    + apply JS_eqb_eq in Hid. subst id. rewrite Hnone. reflexivity.
    + destruct (find (fun n => JS.eqb (positionId n) id)
                     (st_activeNotes st)); reflexivity.
Qed.

Lemma markersShown_clearPosition (s f : Z) (st : State) :
  markersShown st -> markersShown (clearPosition s f st).
Proof.
  intros (Hnd & Hon & Hlook). unfold markersShown, clearPosition.
  cbn [st_activeNotes st_markers st_useFlats].
  split; [apply NoDup_map_filter, Hnd|].
  split.
  { apply Forall_forall. intros n Hn. apply filter_In in Hn as [Hn _].
    rewrite Forall_forall in Hon. apply Hon, Hn. }
  intros id.
  destruct (getElementById (getPositionId s f)) eqn:He.
  - rewrite lookup_removeMarker.
    destruct (JS.eqb (getPositionId s f) id) eqn:Hid.
    + apply JS_eqb_eq in Hid. subst id.
      rewrite find_filter_gone; [reflexivity|].
      intros a Ha. rewrite sameSpot_positionId, Ha. reflexivity.
    + rewrite find_filter_keep; [apply Hlook|].
      intros a Ha. rewrite sameSpot_positionId.
      apply JS_eqb_eq in Ha. subst id. rewrite JS_eqb_sym, Hid.
      reflexivity.
  - rewrite filter_all; [apply Hlook|].
    intros a Ha. rewrite sameSpot_positionId.
    destruct (JS.eqb (positionId a) (getPositionId s f)) eqn:Ha';
      [|reflexivity].
    apply JS_eqb_eq, getPositionId_inj in Ha' as [<- <-].
    rewrite Forall_forall in Hon. specialize (Hon a Ha).
    apply getElementById_board in Hon. congruence.
Qed.

Lemma highlightPosition_frame (s f : Z) (r : bool) (label : option jsstring)
      (st : State) :
  st_currentChord (highlightPosition s f r label st) = st_currentChord st
  /\ st_useFlats (highlightPosition s f r label st) = st_useFlats st
  /\ st_soundEnabled (highlightPosition s f r label st) = st_soundEnabled st
  /\ st_progression (highlightPosition s f r label st) = st_progression st.
Proof.
  unfold highlightPosition.
  destruct (getElementById (getPositionId s f)); cbn; auto.
Qed.

Lemma onBoard_dec (s f : Z) :
  (1 <= s <= CONFIG_strings /\ 0 <= f <= CONFIG_frets)
  \/ ~ (1 <= s <= CONFIG_strings /\ 0 <= f <= CONFIG_frets).
Proof. unfold CONFIG_strings, CONFIG_frets. lia. Qed.

(** Highlighting a list of positions, no two at the same place and none at
    an active note, adds those on the board in their order. *)
Lemma highlightAll (g : Position -> bool) (ps : list Position) :
  forall st,
    markersShown st ->
    NoDup (map positionId ps) ->
    (forall p, In p ps ->
               existsb (sameSpot (stringNum p) (fret p)) (st_activeNotes st)
               = false) ->
    let st' :=
      fold_left (fun st pos =>
                   highlightPosition (stringNum pos) (fret pos) (g pos)
                                     None st) ps st in
    markersShown st'
    /\ (Forall onBoard ps ->
        st_activeNotes st'
        = (st_activeNotes st
           ++ map (fun p => mkPos (stringNum p) (fret p) (g p)) ps)%list)
    /\ st_currentChord st' = st_currentChord st
    /\ st_useFlats st' = st_useFlats st
    /\ st_soundEnabled st' = st_soundEnabled st
    /\ st_progression st' = st_progression st.
Proof.
  induction ps as [|p ps IH]; intros st Hshown Hnd Hfresh; cbn [fold_left].
  - cbn [map]. rewrite app_nil_r. auto 10.
  - cbn [map] in Hnd. inversion Hnd as [|? ? Hnot Hnd']; subst.
    set (st1 := highlightPosition (stringNum p) (fret p) (g p) None st).
    destruct (highlightPosition_frame (stringNum p) (fret p) (g p) None st)
      as (Hc & Hu & Hs & Hp). fold st1 in Hc, Hu, Hs, Hp.
    destruct (onBoard_dec (stringNum p) (fret p)) as [Hb|Hb].
    + destruct (highlightPosition_fresh (stringNum p) (fret p) (g p) st Hb
                  (Hfresh p (or_introl eq_refl)) Hshown) as [Hshown1 Hact].
      fold st1 in Hshown1, Hact. clearbody st1.
      destruct (IH st1 Hshown1 Hnd') as (H1 & H2 & H3 & H4 & H5 & H6).
      { intros q Hq. rewrite Hact, existsb_app.
        rewrite (Hfresh q (or_intror Hq)). cbn [existsb orb].
        rewrite sameSpot_positionId, orb_false_r.
        apply JS_eqb_neq. intros Heq. apply Hnot.
        change (positionId (mkPos (stringNum p) (fret p) (g p)))
          with (positionId p) in Heq.
        rewrite Heq. apply (in_map positionId), Hq. }
      split; [exact H1|]. split; [|rewrite H3, H4, H5, H6; auto].
      intros Hall. inversion Hall; subst.
      rewrite H2 by assumption. rewrite Hact, <- app_assoc. reflexivity.
    + assert (Heq : st1 = st) by (apply highlightPosition_outside, Hb).
      clearbody st1. subst st1.
      destruct (IH st Hshown Hnd') as (H1 & H2 & H3 & H4 & H5 & H6).
      { intros q Hq. apply Hfresh. right. exact Hq. }
      split; [exact H1|]. split; [|auto].
      intros Hall. inversion Hall; subst. contradiction.
Qed.

Lemma map_mkPos (ps : list Position) :
  map (fun p => mkPos (stringNum p) (fret p) (isRoot p)) ps = ps.
Proof.
  induction ps as [|[s f r] ps IH]; cbn [map stringNum fret isRoot];
    [reflexivity|now rewrite IH].
Qed.

Lemma NoDup_positionId (ps : list Position) :
  NoDup (map stringNum ps) -> NoDup (map positionId ps).
Proof.
  induction ps as [|p ps IH]; cbn [map]; intros Hnd; [constructor|].
  inversion Hnd as [|? ? Hnot Hnd']; subst.
  constructor; [|apply IH, Hnd'].
  intros Hin. apply Hnot. apply in_map_iff in Hin as (q & Heq & Hq).
  apply getPositionId_inj in Heq as [Heq _]. rewrite <- Heq.
  apply in_map, Hq.
Qed.

(** [highlightChord] replaces the active notes by the given positions and
    resets the current chord. *)
Lemma highlightChord_shown (ps : list Position) (st : State) :
  NoDup (map positionId ps) ->
  markersShown (highlightChord ps st)
  /\ (Forall onBoard ps -> st_activeNotes (highlightChord ps st) = ps)
  /\ st_currentChord (highlightChord ps st) = None
  /\ st_useFlats (highlightChord ps st) = st_useFlats st
  /\ st_soundEnabled (highlightChord ps st) = st_soundEnabled st
  /\ st_progression (highlightChord ps st) = st_progression st.
Proof.
  intros Hnd. unfold highlightChord.
  destruct (highlightAll (fun pos => isRoot pos || false)%bool ps
              (clearAllHighlights st) (markersShown_clearAll st) Hnd)
    as (H1 & H2 & H3 & H4 & H5 & H6); [reflexivity|].
  split; [exact H1|]. split; [|auto].
  intros Hall. rewrite (H2 Hall). cbn [clearAllHighlights st_activeNotes app].
  rewrite <- (map_mkPos ps) at 2. apply map_ext.
  intros p. now rewrite orb_false_r.
Qed.

Lemma setNotationMode_shown (useFlats : bool) (st : State) :
  markersShown st ->
  markersShown (setNotationMode useFlats st)
  /\ st_activeNotes (setNotationMode useFlats st) = st_activeNotes st
  /\ st_currentChord (setNotationMode useFlats st) = None
  /\ st_useFlats (setNotationMode useFlats st) = useFlats
  /\ st_soundEnabled (setNotationMode useFlats st) = st_soundEnabled st
  /\ st_progression (setNotationMode useFlats st) = st_progression st.
Proof.
  intros (Hnd & Hon & _). unfold setNotationMode. cbn [st_activeNotes].
  set (st0 := mkState _ _ _ useFlats _ _).
  destruct (highlightAll isRoot (st_activeNotes st)
              (clearAllHighlights st0) (markersShown_clearAll st0) Hnd)
    as (H1 & H2 & H3 & H4 & H5 & H6); [reflexivity|].
  split; [exact H1|]. split; [|auto].
  rewrite (H2 Hon). cbn [clearAllHighlights st_activeNotes app].
  apply map_mkPos.
Qed.

(** The positions of a generated voicing are on the board, on different
    strings. *)
Lemma voicing_board (useFlats : bool) (chord : jsstring) (v : Voicing) :
  In v (generateAllVoicings useFlats chord 15) ->
  NoDup (map stringNum (positions v)) /\ Forall onBoard (positions v).
Proof.
  intros Hv.
  destruct (generateAllVoicings_inv _ _ _ _ Hv)
    as (parsed & entry & shape & Hp & He & Hq & Hvs).
  destruct (voicingOfShape_some _ _ _ _ _ _ _ Hvs) as (Hpos & Hlim & _).
  destruct (CAGED_SHAPES_entry _ _ _ He Hq) as (Hlen & _).
  pose proof (transposeTo_range (getNoteIndex (root parsed)) (fst entry)
                (getNoteIndex_range _)) as Ht.
  rewrite Hpos. split.
  - apply descending_NoDup, sounded_descending.
  - eapply Forall_impl; [|apply sounded_positions]. cbv beta.
    rewrite Hlen. change (Z.of_nat 6) with 6.
    intros p (Hs & (f & Hf & Hf0 & Hfret) & _).
    rewrite Forall_forall in Hlim. specialize (Hlim f Hf).
    unfold withinLimit in Hlim.
    unfold onBoard, CONFIG_strings, CONFIG_frets. lia.
Qed.

(** So are the positions of [calculateChordPositions]. *)
Lemma chord_board (useFlats : bool) (chord : jsstring) :
  NoDup (map stringNum (calculateChordPositions useFlats chord))
  /\ Forall onBoard (calculateChordPositions useFlats chord).
Proof.
  destruct (parseChordName chord) as [parsed|] eqn:Hp.
  - destruct (calculateChordPositions_sounded useFlats chord parsed Hp)
      as (shape & t & _ & Ht & Hlen & Hfrets & _ & _ & ->).
    split.
    + apply descending_NoDup, sounded_descending.
    + eapply Forall_impl; [|apply sounded_positions]. cbv beta.
      rewrite Hlen. change (Z.of_nat 6) with 6.
      intros p (Hs & (f & Hf & Hf0 & Hfret) & _).
      rewrite Forall_forall in Hfrets. specialize (Hfrets f Hf).
      unfold onBoard, CONFIG_strings, CONFIG_frets. lia.
  - unfold calculateChordPositions. rewrite Hp.
    split; constructor.
Qed.

Lemma handleNoteClick_shown (s f : Z) (st : State) :
  markersShown st ->
  markersShown (handleNoteClick s f st)
  /\ st_progression (handleNoteClick s f st) = st_progression st.
Proof.
  intros Hshown. unfold handleNoteClick.
  destruct (getElementById (getPositionId s f)) as [np|] eqn:He.
  - destruct (lookup (st_markers st) (getPositionId s f)) as [m|] eqn:Hl.
    + split; [apply markersShown_clearPosition, Hshown|reflexivity].
    + assert (Hb : 1 <= s <= CONFIG_strings /\ 0 <= f <= CONFIG_frets)
        by (apply getElementById_board; congruence).
      assert (Hfresh : existsb (sameSpot s f) (st_activeNotes st) = false).
      { apply existsb_sameSpot. destruct Hshown as (_ & _ & Hlook).
        rewrite Hlook in Hl.
        destruct (find _ (st_activeNotes st)); [discriminate|reflexivity]. }
      split; [apply highlightPosition_fresh; assumption|].
      apply highlightPosition_frame.
  - rewrite highlightPosition_outside; [auto|].
    intros Hb. apply getElementById_board in Hb. contradiction.
Qed.

Lemma displayChord_shown (chord : jsstring) (st : State) :
  markersShown st ->
  markersShown (displayChord chord st)
  /\ st_progression (displayChord chord st) = st_progression st.
Proof.
  intros Hshown. unfold displayChord.
  destruct (chord_board (st_useFlats st) chord) as [Hnd _].
  destruct (calculateChordPositions (st_useFlats st) chord) as [|p ps];
    [auto|].
  destruct (highlightChord_shown (p :: ps) (setCurrentChord chord st)
              (NoDup_positionId _ Hnd)) as (H1 & _ & _ & _ & _ & H6).
  auto.
Qed.

Lemma displayVoicing_shown (useFlats : bool) (chord : jsstring)
      (v : Voicing) (st : State) :
  In v (generateAllVoicings useFlats chord 15) ->
  markersShown (displayVoicing (Some v) st)
  /\ st_activeNotes (displayVoicing (Some v) st) = positions v
  /\ st_currentChord (displayVoicing (Some v) st) = None
  /\ st_useFlats (displayVoicing (Some v) st) = st_useFlats st
  /\ st_soundEnabled (displayVoicing (Some v) st) = st_soundEnabled st
  /\ st_progression (displayVoicing (Some v) st) = st_progression st.
Proof.
  intros Hv. destruct (voicing_board _ _ _ Hv) as [Hnd Hon].
  unfold displayVoicing.
  destruct (highlightChord_shown (positions v)
              (setCurrentChord (chordName v) st) (NoDup_positionId _ Hnd))
    as (H1 & H2 & H3 & H4 & H5 & H6).
  auto 10.
Qed.

Lemma progressionLoaded_frame (st st' : State) :
  st_progression st' = st_progression st ->
  progressionLoaded st -> progressionLoaded st'.
Proof. unfold progressionLoaded. intros ->. auto. Qed.

Lemma nth_error_map_Some {X} (l : list X) (i : nat) :
  match nth_error (map Some l) i with
  | Some v => v
  | None => None
  end = nth_error l i.
Proof.
  rewrite nth_error_map. destruct (nth_error l i); reflexivity.
Qed.

(** [goToChord] at an index of the progression shows the voicing there. *)
Lemma goToChord_loaded (index : Z) (st : State) :
  progressionLoaded st ->
  0 <= index < Z.of_nat (List.length (pr_voicings (st_progression st))) ->
  exists v,
    nth_error (pr_voicings (st_progression st)) (Z.to_nat index)
    = Some (Some v)
    /\ markersShown (goToChord index st)
    /\ progressionLoaded (goToChord index st)
    /\ st_activeNotes (goToChord index st) = positions v
    /\ st_currentChord (goToChord index st) = None
    /\ st_useFlats (goToChord index st) = st_useFlats st
    /\ pr_currentIndex (st_progression (goToChord index st)) = index
    /\ pr_voicings (st_progression (goToChord index st))
       = pr_voicings (st_progression st)
    /\ pr_chords (st_progression (goToChord index st))
       = pr_chords (st_progression st)
    /\ pr_loopEnabled (st_progression (goToChord index st))
       = pr_loopEnabled (st_progression st)
    /\ st_soundEnabled (goToChord index st) = st_soundEnabled st
    /\ st_progression (goToChord index st)
       = let p := st_progression st in
         mkProgression (pr_chords p) (pr_voicings p) index (pr_isPlaying p)
                       (pr_tempo p) (pr_beatsPerChord p) (pr_loopEnabled p).
Proof.
  intros (result & Hvs & Hf2 & Hi0 & Hi1) Hindex.
  unfold goToChord.
  destruct (index <? 0) eqn:H0; [apply Z.ltb_lt in H0; lia|].
  destruct (index >=? _) eqn:H1; [apply Z.geb_le in H1; lia|].
  cbn [orb]. rewrite Hvs in *. rewrite nth_error_map_Some.
  rewrite length_map in Hindex.
  destruct (nth_error result (Z.to_nat index)) as [v|] eqn:Hnth;
    [|apply nth_error_None in Hnth; lia].
  exists v. split; [rewrite nth_error_map, Hnth; reflexivity|].
  assert (Hgen : exists chord, In v (generateAllVoicings false chord 15)).
  { apply nth_error_In in Hnth.
    clear - Hf2 Hnth. induction Hf2 as [|w c ws cs [Hw _] _ IH];
      [destruct Hnth|].
    destruct Hnth as [<-|Hin]; [eauto|auto]. }
  destruct Hgen as [chord Hgen].
  set (st1 := setProgression _ st).
  destruct (displayVoicing_shown false chord v st1 Hgen)
    as (H2 & H3 & H4 & H5 & H7 & H6).
  split; [exact H2|]. split.
  - unfold progressionLoaded. rewrite H6. unfold st1.
    cbn [setProgression st_progression pr_voicings pr_chords
         pr_currentIndex].
    exists result. split; [reflexivity|]. split; [exact Hf2|].
    split; lia.
  - rewrite H3, H4, H5, H6, H7. unfold st1. cbn. auto 15.
Qed.

(** Outside the progression it does nothing. *)
Lemma goToChord_outside (index : Z) (st : State) :
  ~ 0 <= index < Z.of_nat (List.length (pr_voicings (st_progression st))) ->
  goToChord index st = st.
Proof.
  intros H. unfold goToChord.
  destruct (index <? 0) eqn:H0; [reflexivity|].
  destruct (index >=? _) eqn:H1; [reflexivity|].
  apply Z.ltb_ge in H0. rewrite Z.geb_leb in H1. apply Z.leb_gt in H1. lia.
Qed.

Lemma goToChord_invariant (index : Z) (st : State) :
  pageInvariant st -> pageInvariant (goToChord index st).
Proof.
  intros [Hshown Hloaded].
  assert (Hdec : 0 <= index
                      < Z.of_nat (List.length (pr_voicings (st_progression st)))
                 \/ ~ 0 <= index
                      < Z.of_nat (List.length
                                    (pr_voicings (st_progression st))))
    by lia.
  destruct Hdec as [Hin|Hout].
  - destruct (goToChord_loaded index st Hloaded Hin)
      as (v & _ & H1 & H2 & _). split; assumption.
  - rewrite (goToChord_outside _ _ Hout). split; assumption.
Qed.

Lemma forallb_false_Exists {X} (p : X -> bool) (l : list X) :
  forallb p l = false -> Exists (fun x => p x = false) l.
Proof.
  induction l as [|x l IH]; cbn [forallb]; [discriminate|].
  destruct (p x) eqn:Hp; cbn [andb]; [|intros _; left; exact Hp].
  intros H. right. apply IH, H.
Qed.

(** What [optimizeProgression] returns when it returns. *)
Lemma optimizeProgression_result (useFlats : bool)
      (preferredFret fretRange : Q) (chordNames : list jsstring)
      (voicings : list (option Voicing)) :
  optimizeProgression useFlats preferredFret fretRange chordNames
  = Some voicings ->
  exists result,
    voicings = map Some result
    /\ Forall2 (fun v chord =>
                  In v (generateAllVoicings false chord 15)
                  /\ chordName v = chord)
               result chordNames.
Proof.
  intros Hopt. destruct (forallb isChord chordNames) eqn:Hall.
  - rewrite forallb_forall in Hall.
    assert (Hall' : Forall (fun c => isChord c = true) chordNames)
      by (apply Forall_forall, Hall).
    destruct (chords_optimized useFlats preferredFret fretRange _ Hall')
      as (result & Hres & Hf2).
    rewrite Hres in Hopt. injection Hopt as <-.
    exists result. split; [reflexivity|].
    destruct useFlats; [|exact Hf2].
    eapply Forall2_impl; [|exact Hf2]. cbv beta.
    intros v c [Hv Hc]. rewrite generateAllVoicings_notation in Hv. auto.
  - apply forallb_false_Exists in Hall.
    rewrite (chords_rejected useFlats preferredFret fretRange _ Hall) in Hopt.
    discriminate.
Qed.

Lemma forallb_isSome {X} (l : list X) : forallb isSome (map Some l) = true.
Proof. induction l; cbn; auto. Qed.

(** [loadProgression] on chord names that all parse. *)
Lemma loadProgression_loaded (chords0 : list jsstring)
      (preferredFret fretRange : Q) (st : State) :
  chords0 <> [] ->
  Forall (fun c => isChord c = true) chords0 ->
  exists v result,
    let st' := snd (loadProgression chords0 preferredFret fretRange st) in
    fst (loadProgression chords0 preferredFret fretRange st) = Returned
    /\ pr_chords (st_progression st') = chords0
    /\ pr_voicings (st_progression st') = map Some (v :: result)
    /\ Forall2 (fun v chord =>
                  In v (generateAllVoicings false chord 15)
                  /\ chordName v = chord)
               (v :: result) chords0
    /\ pr_currentIndex (st_progression st') = 0
    /\ pr_isPlaying (st_progression st') = false
    /\ pr_loopEnabled (st_progression st')
       = pr_loopEnabled (st_progression st)
    /\ st_activeNotes st' = positions v
    /\ st_currentChord st' = None
    /\ st_useFlats st' = st_useFlats st
    /\ markersShown st'.
Proof.
  intros Hne Hall. unfold loadProgression.
  destruct chords0 as [|c cs]; [contradiction|].
  destruct (chords_optimized (st_useFlats st) preferredFret fretRange _ Hall)
    as (result0 & Hres & _).
  rewrite Hres.
  destruct (optimizeProgression_result _ _ _ _ _ Hres)
    as (result & Heq & Hf2).
  rewrite Heq. inversion Hf2 as [|v c' result' cs' [Hv Hc] Htail]; subst.
  exists v, result'. cbn zeta.
  rewrite (forallb_isSome (v :: result')). cbn [map fst snd].
  set (st1 := setProgression _ st).
  destruct (displayVoicing_shown false _ v st1 Hv)
    as (H1 & H2 & H3 & H4 & _ & H6).
  rewrite H2, H3, H4, H6. unfold st1. cbn. auto 15.
Qed.

Lemma loadProgression_invariant (chords0 : list jsstring)
      (preferredFret fretRange : Q) (st : State) :
  pageInvariant st ->
  pageInvariant (snd (loadProgression chords0 preferredFret fretRange st)).
Proof.
  intros Hinv. destruct chords0 as [|c cs]; [exact Hinv|].
  destruct (forallb isChord (c :: cs)) eqn:Hall.
  - rewrite forallb_forall in Hall.
    assert (Hall' : Forall (fun x => isChord x = true) (c :: cs))
      by (apply Forall_forall, Hall).
    destruct (loadProgression_loaded (c :: cs) preferredFret fretRange st
                ltac:(discriminate) Hall')
      as (v & result & _ & Hc & Hvs & Hf2 & Hi & _ & _ & _ & _ & _ & Hshown).
    split; [exact Hshown|]. unfold progressionLoaded.
    exists (v :: result). rewrite Hc, Hvs, Hi.
    split; [reflexivity|]. split; [exact Hf2|].
    cbn [List.length]. split; lia.
  - apply forallb_false_Exists in Hall. unfold loadProgression.
    rewrite (chords_rejected _ preferredFret fretRange _ Hall).
    exact Hinv.
Qed.

Lemma nextChord_invariant (st : State) :
  pageInvariant st -> pageInvariant (nextChord st).
Proof. apply goToChord_invariant. Qed.

Lemma prevChord_invariant (st : State) :
  pageInvariant st -> pageInvariant (prevChord st).
Proof. apply goToChord_invariant. Qed.

Lemma handle_invariant (toLowerCase : jsstring -> jsstring) (e : Event)
      (st : State) :
  pageInvariant st -> pageInvariant (handle toLowerCase e st).
Proof.
  intros Hinv. pose proof Hinv as [Hshown Hloaded].
  destruct e; cbn [handle].
  - destruct (handleNoteClick_shown stringNum0 fretNum st Hshown) as [H1 H2].
    split; [exact H1|apply (progressionLoaded_frame st); assumption].
  - destruct (setNotationMode_shown false st Hshown)
      as (H1 & _ & _ & _ & _ & H2).
    split; [exact H1|apply (progressionLoaded_frame st); assumption].
  - destruct (setNotationMode_shown true st Hshown)
      as (H1 & _ & _ & _ & _ & H2).
    split; [exact H1|apply (progressionLoaded_frame st); assumption].
  - split; [apply markersShown_clearAll|].
    apply (progressionLoaded_frame st); [reflexivity|assumption].
  - split; assumption.
  - unfold performSearchEnhanced, performSearch.
    assert (Hsearch : pageInvariant
                        match handleSearch toLowerCase query with
                        | SearchChord result => displayChord (cr_name result) st
                        | _ => st
                        end).
    { destruct (handleSearch toLowerCase query); try exact Hinv.
      destruct (displayChord_shown (cr_name result) st Hshown) as [H1 H2].
      split; [exact H1|apply (progressionLoaded_frame st); assumption]. }
    destruct (isProgression query); [|exact Hsearch].
    destruct (1 <? List.length (parseProgression query))%nat;
      [|exact Hsearch].
    apply loadProgression_invariant, Hinv.
  - apply loadProgression_invariant, Hinv.
  - destruct (displayChord_shown chordName0 st Hshown) as [H1 H2].
    split; [exact H1|apply (progressionLoaded_frame st); assumption].
  - unfold showSongDetails. destruct (chords song0) as [|c cs];
      [exact Hinv|].
    destruct (displayChord_shown c st Hshown) as [H1 H2].
    split; [exact H1|apply (progressionLoaded_frame st); assumption].
  - apply goToChord_invariant, Hinv.
  - apply prevChord_invariant, Hinv.
  - apply nextChord_invariant, Hinv.
  - split; [exact Hshown|].
    destruct Hloaded as (result & H1 & H2 & H3 & H4).
    exists result. cbn. auto.
Qed.

Lemma run_invariant (toLowerCase : jsstring -> jsstring)
      (events : list Event) (st : State) :
  pageInvariant st -> pageInvariant (run toLowerCase events st).
Proof.
  revert st. induction events as [|e events IH]; intros st Hinv;
    [exact Hinv|].
  apply IH, handle_invariant, Hinv.
Qed.

Lemma initialState_invariant : pageInvariant initialState.
Proof.
  split.
  - split; [constructor|]. split; [constructor|]. reflexivity.
  - exists []. cbn. split; [reflexivity|]. split; [constructor|].
    split; [lia|]. intros H. contradiction.
Qed.

Lemma removeMarker_setMarker (id : jsstring) (m : Marker)
      (markers : list (jsstring * Marker)) :
  lookup markers id = None ->
  removeMarker id (setMarker id m markers) = markers.
Proof.
  unfold removeMarker.
  induction markers as [|[k x] markers IH]; cbn [lookup setMarker].
  - intros _. cbn [filter fst]. now rewrite JS_eqb_refl.
  - destruct (JS.eqb k id) eqn:Hk; [discriminate|]. intros Hl.
    cbn [filter fst]. rewrite Hk. cbn [negb]. now rewrite IH.
Qed.

Lemma find_NoDup {X} (g : X -> jsstring) (l : list X) (n : X) :
  NoDup (map g l) -> In n l ->
  find (fun x => JS.eqb (g x) (g n)) l = Some n.
Proof.
  induction l as [|x l IH]; cbn [map find]; intros Hnd Hin; [destruct Hin|].
  inversion Hnd as [|? ? Hnot Hnd']; subst.
  destruct Hin as [->|Hin]; [now rewrite JS_eqb_refl|].
  destruct (JS.eqb (g x) (g n)) eqn:He; [|apply IH; assumption].
  apply JS_eqb_eq in He. exfalso. apply Hnot. rewrite He.
  apply in_map, Hin.
Qed.

Lemma isChord_positions (useFlats : bool) (chord : jsstring) :
  isChord chord = true -> calculateChordPositions useFlats chord <> [].
Proof.
  unfold isChord. destruct (parseChordName chord) as [parsed|] eqn:Hp;
    [|discriminate].
  intros _ Hnil.
  destruct (calculateChordPositions_sounded useFlats chord parsed Hp)
    as (shape & t & _ & _ & _ & _ & Hcount & _ & Heq).
  rewrite Hnil in Heq. apply (f_equal (@List.length Position)) in Heq.
  rewrite sounded_count in Heq. cbn [List.length] in Heq. lia.
Qed.

(** One press of Next on a loaded progression. *)
Lemma nextChord_step (st : State) :
  pageInvariant st ->
  let p := st_progression st in
  let n := Z.of_nat (List.length (pr_voicings p)) in
  0 < n ->
  exists j,
    nextChord st = goToChord j st /\ 0 <= j < n
    /\ 0 <= pr_currentIndex p < n
    /\ j = (if pr_currentIndex p + 1 >=? n
            then (if pr_loopEnabled p then 0 else n - 1)
            else pr_currentIndex p + 1).
Proof.
  intros [_ (result & Hvs & _ & Hi0 & Hi1)] p n Hn.
  assert (Hidx : 0 <= pr_currentIndex p < n).
  { split; [exact Hi0|]. unfold n, p. rewrite Hvs, length_map. apply Hi1.
    intros ->. unfold n, p in Hn. rewrite Hvs in Hn. cbn in Hn. lia. }
  eexists. split; [reflexivity|]. split; [|split; [exact Hidx|reflexivity]].
  fold p. fold n.
  destruct (pr_currentIndex p + 1 >=? n) eqn:Hge.
  - destruct (pr_loopEnabled p); lia.
  - rewrite Z.geb_leb in Hge. apply Z.leb_gt in Hge. lia.
Qed.

Lemma nextChord_iter (k : nat) (st : State) :
  pageInvariant st ->
  let p := st_progression st in
  let n := Z.of_nat (List.length (pr_voicings p)) in
  0 < n ->
  let st' := Nat.iter k nextChord st in
  pageInvariant st'
  /\ pr_voicings (st_progression st') = pr_voicings p
  /\ pr_loopEnabled (st_progression st') = pr_loopEnabled p
  /\ pr_currentIndex (st_progression st')
     = (if pr_loopEnabled p
        then (pr_currentIndex p + Z.of_nat k) mod n
        else Z.min (pr_currentIndex p + Z.of_nat k) (n - 1)).
Proof.
  intros Hinv p n Hn.
  destruct (nextChord_step st Hinv Hn) as (_ & _ & _ & Hidx & _).
  fold p in Hidx. fold n in Hidx.
  induction k as [|k IH]; cbn zeta.
  - cbn [Nat.iter nat_rect]. split; [exact Hinv|].
    split; [reflexivity|]. split; [reflexivity|].
    change (Z.of_nat 0) with 0. rewrite Z.add_0_r. fold p.
    destruct (pr_loopEnabled p); [now rewrite Z.mod_small|lia].
  - cbn zeta in IH. destruct IH as (Hinv' & Hvs' & Hloop' & Hidx').
    change (Nat.iter (S k) nextChord st)
      with (nextChord (Nat.iter k nextChord st)).
    set (sk := Nat.iter k nextChord st) in *.
    assert (Hn' : 0 < Z.of_nat (List.length
                                  (pr_voicings (st_progression sk))))
      by (rewrite Hvs'; exact Hn).
    destruct (nextChord_step sk Hinv' Hn') as (j & Hnext & Hj & _ & Hjdef).
    cbn zeta in Hj, Hjdef.
    rewrite Hnext. rewrite Hvs', Hloop', Hidx' in Hjdef.
    fold n in Hjdef.
    destruct (goToChord_loaded j sk (proj2 Hinv') Hj)
      as (v & _ & H1 & H2 & _ & _ & _ & H3 & H4 & _ & H5 & _).
    split; [split; assumption|].
    split; [rewrite H4; exact Hvs'|].
    split; [rewrite H5; exact Hloop'|].
    rewrite H3, Hjdef.
    rewrite Nat2Z.inj_succ.
    destruct (pr_loopEnabled p).
    + pose proof (Z.mod_pos_bound (pr_currentIndex p + Z.of_nat k) n Hn)
        as Hb.
      pose proof (Z.div_mod (pr_currentIndex p + Z.of_nat k) n
                    ltac:(lia)) as Hdm.
      set (a := pr_currentIndex p + Z.of_nat k) in *.
      destruct (a mod n + 1 >=? n) eqn:Hge.
      * apply Z.geb_le in Hge.
        apply (Z.mod_unique_pos _ _ (a / n + 1)); lia.
      * rewrite Z.geb_leb in Hge. apply Z.leb_gt in Hge.
        apply (Z.mod_unique_pos _ _ (a / n)); lia.
    + destruct (Z.min (pr_currentIndex p + Z.of_nat k) (n - 1) + 1 >=? n)
        eqn:Hge.
      * apply Z.geb_le in Hge. lia.
      * rewrite Z.geb_leb in Hge. apply Z.leb_gt in Hge. lia.
Qed.

Lemma displayVoicing_ext (v : option Voicing) (st st' : State) :
  st_useFlats st = st_useFlats st' ->
  st_soundEnabled st = st_soundEnabled st' ->
  st_progression st = st_progression st' ->
  v <> None ->
  displayVoicing v st = displayVoicing v st'.
Proof.
  intros H1 H2 H3 Hv. destruct v as [v|]; [|contradiction].
  unfold displayVoicing, highlightChord, clearAllHighlights, setCurrentChord.
  cbn [st_useFlats st_soundEnabled st_progression].
  now rewrite H1, H2, H3.
Qed.

Lemma goToChord_inside (j : Z) (st : State) :
  0 <= j < Z.of_nat (List.length (pr_voicings (st_progression st))) ->
  goToChord j st
  = let p := st_progression st in
    displayVoicing
      (match nth_error (pr_voicings p) (Z.to_nat j) with
       | Some v => v
       | None => None
       end)
      (setProgression
         (mkProgression (pr_chords p) (pr_voicings p) j (pr_isPlaying p)
                        (pr_tempo p) (pr_beatsPerChord p) (pr_loopEnabled p))
         st).
Proof.
  intros Hj. unfold goToChord.
  destruct (j <? 0) eqn:H0; [apply Z.ltb_lt in H0; lia|].
  destruct (j >=? _) eqn:H1; [apply Z.geb_le in H1; lia|].
  reflexivity.
Qed.

(** Going to a chord forgets which chord was shown before. *)
Lemma goToChord_goToChord (i j : Z) (st : State) :
  progressionLoaded st ->
  let n := Z.of_nat (List.length (pr_voicings (st_progression st))) in
  0 <= i < n -> 0 <= j < n ->
  goToChord j (goToChord i st) = goToChord j st.
Proof.
  intros Hloaded n Hi Hj.
  destruct (goToChord_loaded i st Hloaded Hi)
    as (v & _ & _ & _ & _ & _ & Hu & _ & _ & _ & _ & Hs & Hp).
  destruct (goToChord_loaded j st Hloaded Hj) as (w & Hw & _).
  cbn zeta in Hp.
  rewrite (goToChord_inside j (goToChord i st))
    by (rewrite Hp; cbn [pr_voicings]; exact Hj).
  rewrite (goToChord_inside j st) by exact Hj.
  cbn zeta. rewrite Hp. cbn [pr_chords pr_voicings pr_isPlaying pr_tempo
                             pr_beatsPerChord pr_loopEnabled].
  rewrite Hw.
  apply displayVoicing_ext; cbn; try assumption; try reflexivity.
  discriminate.
Qed.

(* ------------------------------------------------------------------ *)
(** ** The page: what the user sees *)

(** X16: whatever the user does with the page from its initial state
    (clicks on note positions, the notation, clear and sound buttons,
    searches, picked chords and songs, the progression controls), the
    markers of the document are those of the active notes: no two active
    notes share a position, each is on the board, and a note position
    carries a marker exactly when an active note is at it, with the root
    flag of that note and its name in the current notation; and the
    progression holds one voicing of the generator per chord, with the
    current index inside it. *)
Theorem markers_follow_state (toLowerCase : jsstring -> jsstring)
        (events : list Event) :
  markersShown (run toLowerCase events initialState)
  /\ progressionLoaded (run toLowerCase events initialState).
Proof. apply run_invariant, initialState_invariant. Qed.

(** X17: on a page the user has reached, a click on a note position of the
    board without an active note adds the note, not as a root, at the end
    of the active notes, and a second click on it restores the state and
    the markers as they were. *)
Theorem handleNoteClick_twice (toLowerCase : jsstring -> jsstring)
        (events : list Event) (s f : Z) :
  let st := run toLowerCase events initialState in
  1 <= s <= CONFIG_strings -> 0 <= f <= CONFIG_frets ->
  existsb (sameSpot s f) (st_activeNotes st) = false ->
  st_activeNotes (handleNoteClick s f st)
  = (st_activeNotes st ++ [mkPos s f false])%list
  /\ handleNoteClick s f (handleNoteClick s f st) = st.
Proof.
  intros st Hs Hf Hfresh.
  destruct (run_invariant toLowerCase events initialState
              initialState_invariant) as [(Hnd & Hon & Hlook) _].
  fold st in Hnd, Hon, Hlook.
  assert (He : getElementById (getPositionId s f) <> None)
    by (apply getElementById_board; auto).
  assert (Hl : lookup (st_markers st) (getPositionId s f) = None).
  { rewrite Hlook. apply existsb_sameSpot in Hfresh. now rewrite Hfresh. }
  assert (Hfirst :
            handleNoteClick s f st
            = mkState (setMarker (getPositionId s f)
                                 (markerOf (st_useFlats st) (mkPos s f false))
                                 (st_markers st))
                      (st_activeNotes st ++ [mkPos s f false])%list
                      (st_currentChord st) (st_useFlats st)
                      (st_soundEnabled st) (st_progression st)).
  { unfold handleNoteClick.
    destruct (getElementById (getPositionId s f)) eqn:He';
      [|contradiction].
    rewrite Hl. unfold highlightPosition. rewrite He', Hfresh.
    reflexivity. }
  rewrite Hfirst. split; [reflexivity|].
  unfold handleNoteClick. cbn [st_markers].
  destruct (getElementById (getPositionId s f)) eqn:He'; [|contradiction].
  rewrite lookup_setMarker, JS_eqb_refl.
  unfold clearPosition. rewrite He'.
  cbn [st_markers st_activeNotes st_currentChord st_useFlats
       st_soundEnabled st_progression].
  rewrite (removeMarker_setMarker _ _ _ Hl).
  rewrite filter_app. cbn [filter]. unfold sameSpot at 2.
  cbn [stringNum fret]. rewrite !Z.eqb_refl. cbn [andb negb].
  rewrite app_nil_r, filter_all; [destruct st; reflexivity|].
  intros a Ha.
  destruct (sameSpot s f a) eqn:Hsame; [|reflexivity].
  assert (existsb (sameSpot s f) (st_activeNotes st) = true)
    by (apply existsb_exists; eauto).
  congruence.
Qed.

Lemma handleNoteClick_twice_witness :
  let st := run (fun s => s) [ChordPicked (JS.lit "Am")] initialState in
  st_activeNotes (handleNoteClick 6 3 st)
  = (st_activeNotes st ++ [mkPos 6 3 false])%list
  /\ handleNoteClick 6 3 (handleNoteClick 6 3 st) = st.
Proof.
  apply (handleNoteClick_twice (fun s => s) [ChordPicked (JS.lit "Am")] 6 3).
  - unfold CONFIG_strings. lia.
  - unfold CONFIG_frets. lia.
  - vm_compute. reflexivity.
Defined.

(** X18: displayChord on a name that parses replaces the active notes by
    the positions calculateChordPositions computes, with their markers,
    and leaves the current chord null: highlightChord clears the name
    that displayChord has just stored. *)
Theorem displayChord_shows (chord : jsstring) (st : State) :
  isChord chord = true ->
  let st' := displayChord chord st in
  st_activeNotes st' = calculateChordPositions (st_useFlats st) chord
  /\ markersShown st'
  /\ st_currentChord st' = None
  /\ st_useFlats st' = st_useFlats st
  /\ st_progression st' = st_progression st.
Proof.
  intros Hc st'. subst st'. unfold displayChord.
  pose proof (isChord_positions (st_useFlats st) chord Hc) as Hne.
  destruct (chord_board (st_useFlats st) chord) as [Hnd Hon].
  destruct (calculateChordPositions (st_useFlats st) chord) as [|p ps];
    [contradiction|].
  destruct (highlightChord_shown (p :: ps) (setCurrentChord chord st)
              (NoDup_positionId _ Hnd)) as (H1 & H2 & H3 & H4 & _ & H6).
  rewrite (H2 Hon). auto.
Qed.

Lemma displayChord_shows_witness :
  let st' := displayChord (JS.lit "Am") initialState in
  st_activeNotes st'
  = calculateChordPositions (st_useFlats initialState) (JS.lit "Am")
  /\ markersShown st'
  /\ st_currentChord st' = None
  /\ st_useFlats st' = st_useFlats initialState
  /\ st_progression st' = st_progression initialState.
Proof. apply (displayChord_shows (JS.lit "Am") initialState). reflexivity.
Defined.

(** X19: on a page the user has reached, setNotationMode keeps the active
    notes and the progression, sets the notation, and gives every active
    note the marker with its name in that notation. *)
Theorem setNotationMode_relabels (toLowerCase : jsstring -> jsstring)
        (events : list Event) (useFlats : bool) :
  let st := run toLowerCase events initialState in
  let st' := setNotationMode useFlats st in
  st_activeNotes st' = st_activeNotes st
  /\ st_useFlats st' = useFlats
  /\ st_progression st' = st_progression st
  /\ Forall (fun n => lookup (st_markers st') (positionId n)
                      = Some (markerOf useFlats n))
            (st_activeNotes st).
Proof.
  intros st st'.
  destruct (run_invariant toLowerCase events initialState
              initialState_invariant) as [Hshown _].
  fold st in Hshown.
  destruct (setNotationMode_shown useFlats st Hshown)
    as ((Hnd & _ & Hlook) & Hact & _ & Hu & _ & Hp).
  fold st' in Hnd, Hlook, Hact, Hu, Hp.
  split; [exact Hact|]. split; [exact Hu|]. split; [exact Hp|].
  apply Forall_forall. intros n Hn.
  rewrite Hlook, Hu, Hact.
  rewrite Hact in Hnd. rewrite (find_NoDup positionId _ n Hnd Hn).
  reflexivity.
Qed.

(** X20: on a page with a progression, k+1 presses of Next move the current
    index k+1 steps round the progression when the loop is on, and stop
    at the last chord when it is off; the active notes are then the
    positions of the voicing at that index. *)
Theorem nextChord_steps (toLowerCase : jsstring -> jsstring)
        (events : list Event) (k : nat) :
  let st := run toLowerCase events initialState in
  let p := st_progression st in
  let n := Z.of_nat (List.length (pr_voicings p)) in
  0 < n ->
  let st' := Nat.iter (S k) nextChord st in
  pr_currentIndex (st_progression st')
  = (if pr_loopEnabled p
     then (pr_currentIndex p + Z.of_nat (S k)) mod n
     else Z.min (pr_currentIndex p + Z.of_nat (S k)) (n - 1))
  /\ exists v,
       nth_error (pr_voicings p)
                 (Z.to_nat (pr_currentIndex (st_progression st')))
       = Some (Some v)
       /\ st_activeNotes st' = positions v.
Proof.
  intros st p n Hn st'.
  pose proof (run_invariant toLowerCase events initialState
                initialState_invariant) as Hinv.
  fold st in Hinv.
  destruct (nextChord_iter (S k) st Hinv Hn) as (_ & _ & _ & Hidx).
  split; [exact Hidx|].
  destruct (nextChord_iter k st Hinv Hn) as (Hinv' & Hvs' & _ & _).
  subst st'. change (Nat.iter (S k) nextChord st)
    with (nextChord (Nat.iter k nextChord st)).
  set (sk := Nat.iter k nextChord st) in *.
  assert (Hn' : 0 < Z.of_nat (List.length
                                (pr_voicings (st_progression sk))))
    by (rewrite Hvs'; exact Hn).
  destruct (nextChord_step sk Hinv' Hn') as (j & Hnext & Hj & _ & _).
  rewrite Hnext.
  destruct (goToChord_loaded j sk (proj2 Hinv') Hj)
    as (v & Hv & _ & _ & Hact & _ & _ & Hi & _).
  exists v. rewrite Hi, Hact. rewrite Hvs' in Hv. auto.
Qed.

Lemma nextChord_steps_witness :
  let st := run (fun s => s) [SearchEntered (JS.lit "Am, C, G")]
                initialState in
  let p := st_progression st in
  let n := Z.of_nat (List.length (pr_voicings p)) in
  let st' := Nat.iter 4 nextChord st in
  pr_currentIndex (st_progression st')
  = (if pr_loopEnabled p
     then (pr_currentIndex p + Z.of_nat 4) mod n
     else Z.min (pr_currentIndex p + Z.of_nat 4) (n - 1))
  /\ exists v,
       nth_error (pr_voicings p)
                 (Z.to_nat (pr_currentIndex (st_progression st')))
       = Some (Some v)
       /\ st_activeNotes st' = positions v.
Proof.
  apply (nextChord_steps (fun s => s) [SearchEntered (JS.lit "Am, C, G")] 3).
  vm_compute. reflexivity.
Defined.

(** X21: on a page with a progression, Prev after Next shows the chord the
    progression was at, as goToChord at that index does, when the loop is
    on or the progression was not at its last chord. *)
Theorem prevChord_undoes_nextChord (toLowerCase : jsstring -> jsstring)
        (events : list Event) :
  let st := run toLowerCase events initialState in
  let p := st_progression st in
  let n := Z.of_nat (List.length (pr_voicings p)) in
  0 < n ->
  pr_loopEnabled p = true \/ pr_currentIndex p + 1 < n ->
  prevChord (nextChord st) = goToChord (pr_currentIndex p) st
  /\ pr_currentIndex (st_progression (prevChord (nextChord st)))
     = pr_currentIndex p.
Proof.
  intros st p n Hn Hloop.
  pose proof (run_invariant toLowerCase events initialState
                initialState_invariant) as Hinv.
  fold st in Hinv.
  destruct (nextChord_step st Hinv Hn) as (j & Hnext & Hj & Hidx & Hjdef).
  fold p in Hj, Hidx, Hjdef. fold n in Hj, Hidx, Hjdef.
  destruct (goToChord_loaded j st (proj2 Hinv) Hj)
    as (v & _ & _ & _ & _ & _ & _ & Hi & Hvs & _ & Hl & _).
  destruct (goToChord_loaded (pr_currentIndex p) st (proj2 Hinv) Hidx)
    as (w & _ & _ & _ & _ & _ & _ & Hi' & _).
  assert (Hprev : prevChord (nextChord st)
                  = goToChord (pr_currentIndex p) (nextChord st)).
  { unfold prevChord. rewrite Hnext, Hi, Hvs, Hl. fold p. fold n.
    f_equal.
    destruct (pr_currentIndex p + 1 >=? n) eqn:Hge.
    - apply Z.geb_le in Hge.
      destruct Hloop as [Hloop|Hloop]; [|lia].
      rewrite Hloop in *. subst j. cbn. lia.
    - rewrite Z.geb_leb in Hge. apply Z.leb_gt in Hge. subst j.
      destruct (pr_currentIndex p + 1 - 1 <? 0) eqn:Hneg;
        [apply Z.ltb_lt in Hneg; lia|lia]. }
  rewrite Hprev, Hnext.
  rewrite (goToChord_goToChord j (pr_currentIndex p) st (proj2 Hinv) Hj Hidx).
  split; [reflexivity|exact Hi'].
Qed.

Lemma prevChord_undoes_nextChord_witness :
  let st := run (fun s => s) [SearchEntered (JS.lit "Am, C, G")]
                initialState in
  let p := st_progression st in
  prevChord (nextChord st) = goToChord (pr_currentIndex p) st
  /\ pr_currentIndex (st_progression (prevChord (nextChord st)))
     = pr_currentIndex p.
Proof.
  apply (prevChord_undoes_nextChord (fun s => s)
           [SearchEntered (JS.lit "Am, C, G")]).
  - vm_compute. reflexivity.
  - left. vm_compute. reflexivity.
Defined.



(** X15: the guard of the progression search never hides a progression:
    whenever parseProgression finds more than one chord in the input,
    isProgression is true of it, and performSearchEnhanced loads those
    chords as a progression. *)
Theorem isProgression_guard (toLowerCase : jsstring -> jsstring)
        (input : jsstring) (st : State) :
  (1 < List.length (parseProgression input))%nat ->
  isProgression input = true
  /\ performSearchEnhanced toLowerCase input st
     = loadProgression (parseProgression input) 5 7 st.
Proof.
  intros Hlen. pose proof (progression_detected input Hlen) as Hguard.
  split; [exact Hguard|].
  unfold performSearchEnhanced. rewrite Hguard.
  apply Nat.ltb_lt in Hlen. now rewrite Hlen.
Qed.

Lemma isProgression_guard_witness :
  isProgression (JS.lit "Am  C") = true
  /\ performSearchEnhanced (fun s => s) (JS.lit "Am  C") initialState
     = loadProgression (parseProgression (JS.lit "Am  C")) 5 7 initialState.
Proof.
  apply (isProgression_guard (fun s => s) (JS.lit "Am  C") initialState).
  vm_compute. lia.
Defined.

(* ------------------------------------------------------------------ *)
(** ** Chord tones *)

Lemma voicingCheck_all :
  forallb (fun useFlats =>
             forallb (fun r =>
                        forallb (fun q =>
                                   forallb (voicingCheck useFlats r q)
                                           CAGED_SHAPES)
                                supportedQualities)
                     rootIndices)
          [true; false] = true.
Proof. vm_compute. reflexivity. Qed.

(** X24: a voicing that generateAllVoicings returns for a chord with a
    known root sounds tones of the chord only, taken with the quality the
    generator uses for it (the quality itself when it is one of major,
    minor, 7, m7, maj7), and one of its positions at least is flagged as
    the root. *)
Theorem generateAllVoicings_chord_tones (useFlats : bool)
        (chord : jsstring) (maxFret : Z) (parsed : ChordSymbol)
        (v : Voicing) :
  parseChordName chord = Some parsed ->
  getNoteIndex (root parsed) <> -1 ->
  In v (generateAllVoicings useFlats chord maxFret) ->
  Forall (fun p => isChordTone (getNoteIndex (root parsed))
                               (shapeQualityOf (quality parsed))
                               (stringNum p) (fret p) = true)
         (positions v)
  /\ Exists (fun p => isRoot p = true) (positions v).
Proof.
  intros Hp Hroot Hv.
  destruct (generateAllVoicings_inv _ _ _ _ Hv)
    as (parsed' & entry & shape & Hp' & He & Hq & Hvs).
  rewrite Hp in Hp'. injection Hp' as <-.
  destruct (voicingOfShape_some _ _ _ _ _ _ _ Hvs) as (Hpos & _).
  pose proof voicingCheck_all as Hall.
  rewrite forallb_forall in Hall.
  assert (Huf : In useFlats [true; false])
    by (destruct useFlats; simpl; tauto).
  specialize (Hall _ Huf). rewrite forallb_forall in Hall.
  specialize (Hall _ (getNoteIndex_enum (root parsed))).
  rewrite forallb_forall in Hall.
  specialize (Hall _ (shapeQualityOf_enum (quality parsed))).
  rewrite forallb_forall in Hall. specialize (Hall _ He).
  unfold voicingCheck in Hall. rewrite Hq, <- Hpos in Hall.
  apply andb_true_iff in Hall as [Htones Hr].
  split.
  - apply Forall_forall. rewrite forallb_forall in Htones. exact Htones.
  - apply orb_true_iff in Hr as [Hr|Hr]; [apply Z.eqb_eq in Hr; contradiction|].
    apply Exists_exists. apply existsb_exists in Hr. exact Hr.
Qed.

Lemma generateAllVoicings_chord_tones_witness :
  exists v,
    hd_error (generateAllVoicings true (JS.lit "Bbm7") 15) = Some v
    /\ Forall (fun p => isChordTone (getNoteIndex (JS.lit "Bb"))
                                    (shapeQualityOf q_m7)
                                    (stringNum p) (fret p) = true)
              (positions v)
    /\ Exists (fun p => isRoot p = true) (positions v).
Proof.
  eexists. split; [vm_compute; reflexivity|].
  apply (generateAllVoicings_chord_tones true (JS.lit "Bbm7") 15
           (mkChord (JS.lit "Bb") q_m7 None)).
  - reflexivity.
  - vm_compute. discriminate.
  - vm_compute. left. reflexivity.
Defined.





(* ------------------------------------------------------------------ *)
(** ** The notes of a chord *)

Lemma CHORD_INTERVALS_nonneg (q : Quality) :
  Forall (fun interval => 0 <= interval) (CHORD_INTERVALS q).
Proof. destruct q; cbn; repeat constructor; lia. Qed.

(** X26: for a root that has a note index, getChordNotes names one note per
    interval of the quality, and the index of each name is the index of
    the root plus the interval, modulo 12. *)
Theorem getChordNotes_indices (root0 : jsstring) (q : Quality) :
  getNoteIndex root0 <> -1 ->
  map getNoteIndex (getChordNotes root0 q)
  = map (fun interval => (getNoteIndex root0 + interval) mod 12)
        (CHORD_INTERVALS q).
Proof.
  intros Hroot. unfold getChordNotes.
  destruct (getNoteIndex root0 =? -1) eqn:He;
    [apply Z.eqb_eq in He; contradiction|].
  rewrite map_map. apply map_ext_in. intros interval Hin.
  pose proof (CHORD_INTERVALS_nonneg q) as Hnn.
  rewrite Forall_forall in Hnn. specialize (Hnn _ Hin).
  pose proof (getNoteIndex_range root0) as Hr.
  unfold jsrem. rewrite Z.rem_mod_nonneg by lia.
  pose proof (Z.mod_pos_bound (getNoteIndex root0 + interval) 12
                ltac:(lia)) as Hb.
  apply (spelledName_index false). exact Hb.
Qed.

Lemma getChordNotes_indices_witness :
  map getNoteIndex (getChordNotes (JS.lit "Bb") q_9)
  = map (fun interval => (getNoteIndex (JS.lit "Bb") + interval) mod 12)
        (CHORD_INTERVALS q_9).
Proof.
  apply (getChordNotes_indices (JS.lit "Bb") q_9). vm_compute. discriminate.
Defined.

(* ------------------------------------------------------------------ *)
(** ** What a chord name may look like *)

Lemma dropWhile_idem (p : N -> bool) (s : jsstring) :
  JS.dropWhile p (JS.dropWhile p s) = JS.dropWhile p s.
Proof.
  induction s as [|c s IH]; [reflexivity|]. cbn [JS.dropWhile].
  destruct (p c) eqn:Hc; [exact IH|]. cbn [JS.dropWhile]. now rewrite Hc.
Qed.

Lemma dropWhile_snoc (p : N -> bool) (s : jsstring) (c : N) :
  p c = false -> JS.dropWhile p (s ++ [c]) = (JS.dropWhile p s ++ [c])%list.
Proof.
  intros Hc. induction s as [|x s IH]; cbn [app JS.dropWhile].
  - now rewrite Hc.
  - destruct (p x); [exact IH|reflexivity].
Qed.

Lemma trimEnd_cons (c : N) (s : jsstring) :
  JS.isWhiteSpace c = false -> JS.trimEnd (c :: s) = c :: JS.trimEnd s.
Proof.
  intros Hc. unfold JS.trimEnd. cbn [rev].
  rewrite (dropWhile_snoc _ _ _ Hc), rev_app_distr. reflexivity.
Qed.

Lemma trimEnd_idem (s : jsstring) : JS.trimEnd (JS.trimEnd s) = JS.trimEnd s.
Proof.
  unfold JS.trimEnd. now rewrite rev_involutive, dropWhile_idem.
Qed.

Lemma trimStart_trimEnd (s : jsstring) :
  JS.trimStart (JS.trimEnd (JS.trimStart s)) = JS.trimEnd (JS.trimStart s).
Proof.
  unfold JS.trimStart.
  destruct (JS.dropWhile JS.isWhiteSpace s) as [|c u] eqn:Hu; [reflexivity|].
  assert (Hc : JS.isWhiteSpace c = false).
  { clear -Hu. induction s as [|x s IH]; [discriminate|].
    cbn [JS.dropWhile] in Hu. destruct (JS.isWhiteSpace x) eqn:Hx; [auto|].
    now injection Hu as <- _. }
  rewrite (trimEnd_cons _ _ Hc). cbn [JS.dropWhile]. now rewrite Hc.
Qed.

Lemma trim_idem (s : jsstring) : JS.trim (JS.trim s) = JS.trim s.
Proof.
  unfold JS.trim. now rewrite trimStart_trimEnd, trimEnd_idem.
Qed.

Lemma rootLetter_facts (c : N) :
  isRootLetter c = true ->
  JS.isWhiteSpace c = false
  /\ isRootLetter (upperRoot c) = true
  /\ JS.isWhiteSpace (upperRoot c) = false
  /\ upperRoot (upperRoot c) = upperRoot c.
Proof.
  intros H. apply isRootLetter_enum in H. cbn [In] in H.
  repeat (destruct H as [<-|H]; [vm_compute; auto|]). destruct H.
Qed.

(** X27: white space round a chord name and the case of its root letter do
    not matter: parseChordName gives the same result for a name and for
    the name trimmed, and for a name that begins with a root letter and the
    same name with that letter in upper case. *)
Theorem parseChordName_normalizes (s : jsstring) (c : N) (rest : jsstring) :
  parseChordName s = parseChordName (JS.trim s)
  /\ parseChordName (c :: rest)
     = parseChordName ((if isRootLetter c then upperRoot c else c) :: rest).
Proof.
  split.
  - unfold parseChordName. rewrite trim_idem.
    destruct s as [|x s']; [reflexivity|].
    destruct (JS.trim (x :: s')) as [|y t] eqn:Ht; reflexivity.
  - destruct (isRootLetter c) eqn:Hc; [|reflexivity].
    destruct (rootLetter_facts c Hc) as (Hw & Hu & Hwu & Huu).
    unfold parseChordName, JS.trim, JS.trimStart.
    cbn [JS.dropWhile]. rewrite Hw, Hwu.
    rewrite (trimEnd_cons _ _ Hw), (trimEnd_cons _ _ Hwu).
    unfold chordRegex. rewrite Hc, Hu. cbn [negb].
    destruct (existsb JS.isLineTerminator (JS.trimEnd rest));
      [reflexivity|].
    destruct (JS.trimEnd rest) as [|a r]; rewrite ?Huu; [reflexivity|].
    destruct (N.eqb a 35 || N.eqb a 98)%bool; now rewrite Huu.
Qed.

(** X28: the names of the qualities, as CHORD_INTERVALS lists them, written
    after any root (a letter A-G in either case with an optional sharp or
    flat): parseChordName finds the root in upper case, no bass, and the
    quality named, except that major, maj7 and maj9 are read as minor. *)
Theorem parseChordName_canonical (letter : N) (acc : jsstring) (q : Quality) :
  isRootLetter letter = true ->
  acc = [] \/ acc = [35%N] \/ acc = [98%N] ->
  parseChordName (letter :: acc ++ qualityName q)
  = Some (mkChord (upperRoot letter :: acc) (parsedQuality q) None).
Proof.
  intros Hl Hacc. apply isRootLetter_enum in Hl. cbn [In] in Hl.
  repeat (destruct Hl as [<-|Hl];
          [destruct Hacc as [-> | [-> | ->]]; destruct q;
           vm_compute; reflexivity|]).
  destruct Hl.
Qed.

Lemma parseChordName_canonical_witness :
  parseChordName (102%N :: [35%N] ++ qualityName q_maj9)
  = Some (mkChord (upperRoot 102%N :: [35%N]) (parsedQuality q_maj9) None).
Proof.
  apply (parseChordName_canonical 102%N [35%N] q_maj9).
  - reflexivity.
  - right. left. reflexivity.
Defined.

(* ------------------------------------------------------------------ *)
(** ** The movement cost *)

Lemma double_minus_sym (x y : Q) :
  (Qabs (double (x - y)) == Qabs (double (y - x)))%Q.
Proof.
  assert (H : (y - x == - (x - y))%Q) by ring.
  rewrite H, double_opp, Qabs_opp. reflexivity.
Qed.

Lemma double_minus_zero (x y : Q) :
  (x == y)%Q -> (Qabs (double (x - y)) == 0)%Q.
Proof.
  intros H. rewrite (double_zero (x - y)%Q) by lra. reflexivity.
Qed.

(** An integer that is not 0 is at least 1 away from 0, also as a
    number. *)
Lemma double_span (m n : Z) :
  m <> n -> (1 <= Qabs (double (inject_Z m - inject_Z n)))%Q.
Proof.
  intros Hne. unfold Qminus. rewrite <- inject_Z_opp, <- inject_Z_plus.
  assert (H1 : (double 1 == 1)%Q) by (vm_compute; reflexivity).
  assert (Hm1 : (double (- (1)) == - (1))%Q) by (vm_compute; reflexivity).
  destruct (Z_lt_le_dec (m + - n) 1) as [Hlt|Hge].
  - assert (Hle : (inject_Z (m + - n) <= - (1))%Q).
    { change (- (1))%Q with (inject_Z (-1)). rewrite <- Zle_Qle. lia. }
    apply double_le in Hle. rewrite Hm1 in Hle.
    pose proof (Qle_Qabs (- double (inject_Z (m + - n)))) as Habs.
    rewrite Qabs_opp in Habs. lra.
  - assert (Hle : (1 <= inject_Z (m + - n))%Q).
    { change 1%Q with (inject_Z 1). rewrite <- Zle_Qle. exact Hge. }
    apply double_le in Hle. rewrite H1 in Hle.
    pose proof (Qle_Qabs (double (inject_Z (m + - n)))). lra.
Qed.

Lemma movement_bound (a b : Voicing) :
  (- (1) <= calculateMovementCost a b)%Q
  /\ (JS.eqb (shapeName a) (shapeName b) = false ->
      (0 <= calculateMovementCost a b)%Q)
  /\ (fretSpan a <> fretSpan b ->
      (- (1 # 2) <= calculateMovementCost a b)%Q).
Proof.
  unfold calculateMovementCost.
  set (f := Qabs (double (avgFretNumber a - avgFretNumber b)%Q)).
  set (s := Qabs (double (inject_Z (fretSpan a) - inject_Z (fretSpan b))%Q)).
  assert (Hf : (0 <= f)%Q) by apply Qabs_nonneg.
  assert (Hs : (0 <= s)%Q) by apply Qabs_nonneg.
  change (inject_Z 2) with 2%Q. change (inject_Z (-1)) with (- (1))%Q.
  assert (H2f : (0 <= double (f * 2))%Q) by (apply double_nonneg; lra).
  assert (H2s : (0 <= double (s * (1 # 2)))%Q) by (apply double_nonneg; lra).
  set (x := double (double (f * 2) + double (s * (1 # 2)))%Q).
  assert (Hx : (0 <= x)%Q) by (apply double_nonneg; lra).
  assert (Hm1 : (double (- (1)) == - (1))%Q) by (vm_compute; reflexivity).
  assert (Hmh : (double (- (1 # 2)) == - (1 # 2))%Q)
    by (vm_compute; reflexivity).
  assert (Hh : (double (1 # 2) == 1 # 2)%Q) by (vm_compute; reflexivity).
  split; [|split].
  - destruct (JS.eqb (shapeName a) (shapeName b)).
    + apply Qle_trans with (double (- (1))); [lra|apply double_le; lra].
    + pose proof (double_nonneg (x + 0)%Q ltac:(lra)). lra.
  - intros ->. apply double_nonneg. lra.
  - intros Hne. pose proof (double_span _ _ Hne) as Hs1. fold s in Hs1.
    assert (Hs2 : (1 # 2 <= double (s * (1 # 2)))%Q).
    { apply Qle_trans with (double (1 # 2)); [lra|apply double_le; lra]. }
    assert (Hx2 : (1 # 2 <= x)%Q).
    { apply Qle_trans with (double (1 # 2)); [lra|apply double_le; lra]. }
    apply Qle_trans with (double (- (1 # 2))); [lra|apply double_le].
    destruct (JS.eqb (shapeName a) (shapeName b)); lra.
Qed.

Lemma movement_far (a b : Voicing) :
  (1 # 64 <= Qabs (double (avgFretNumber a - avgFretNumber b)))%Q ->
  (- (31 # 32) <= calculateMovementCost a b)%Q.
Proof.
  unfold calculateMovementCost.
  set (f := Qabs (double (avgFretNumber a - avgFretNumber b)%Q)).
  set (s := Qabs (double (inject_Z (fretSpan a) - inject_Z (fretSpan b))%Q)).
  intros Hf. assert (Hs : (0 <= s)%Q) by apply Qabs_nonneg.
  change (inject_Z 2) with 2%Q. change (inject_Z (-1)) with (- (1))%Q.
  assert (H2s : (0 <= double (s * (1 # 2)))%Q) by (apply double_nonneg; lra).
  assert (Hc : (double (1 # 32) == 1 # 32)%Q) by (vm_compute; reflexivity).
  assert (Hm : (double (- (31 # 32)) == - (31 # 32))%Q)
    by (vm_compute; reflexivity).
  assert (H2f : (1 # 32 <= double (f * 2))%Q).
  { apply Qle_trans with (double (1 # 32)); [lra|apply double_le; lra]. }
  set (x := double (double (f * 2) + double (s * (1 # 2)))%Q).
  assert (Hx : (1 # 32 <= x)%Q).
  { apply Qle_trans with (double (1 # 32)); [lra|apply double_le; lra]. }
  apply Qle_trans with (double (- (31 # 32))); [lra|apply double_le].
  destruct (JS.eqb (shapeName a) (shapeName b)); lra.
Qed.

Lemma generated_avg (useFlats : bool) (chord : jsstring) (maxFret : Z)
      (v : Voicing) :
  In v (generateAllVoicings useFlats chord maxFret) -> In (avgFret v) allAvgs.
Proof.
  intros Hv.
  assert (Hf : In v (generateAllVoicings false chord maxFret))
    by (destruct useFlats; [rewrite <- generateAllVoicings_notation|];
        exact Hv).
  clear Hv. unfold generateAllVoicings in Hf.
  destruct (parseChordName chord) as [parsed|]; [|destruct Hf].
  rewrite sortByAvg_In, pushVoicings_flat_map, in_flat_map in Hf.
  destruct Hf as (entry & He & Hv).
  destruct (voicingsOfEntry_avg _ _ _ _ _ _ Hv) as [_ Havg].
  unfold allAvgs. apply in_flat_map.
  exists (getNoteIndex (root parsed)). split; [apply getNoteIndex_enum|].
  apply in_flat_map. exists (shapeQualityOf (quality parsed)).
  split; [apply shapeQualityOf_enum|].
  apply in_flat_map. exists entry. split; [exact He|].
  rewrite Havg. left. reflexivity.
Qed.

Lemma allAvgs_apart :
  forallb (fun x => forallb (apart x) allAvgs) allAvgs = true.
Proof. vm_compute. reflexivity. Qed.

Lemma allAvgs_rounded : forallb wellRounded allAvgs = true.
Proof. vm_compute. reflexivity. Qed.

(** Two different average frets of the generator are, as numbers, at least
    1/64 apart. *)
Lemma allAvgs_far (x y : Q) :
  In x allAvgs -> In y allAvgs -> ~ (x == y)%Q ->
  (1 # 64 <= Qabs (double (double x - double y)))%Q.
Proof.
  intros Hx Hy Hne.
  pose proof allAvgs_apart as Hap. rewrite forallb_forall in Hap.
  specialize (Hap x Hx). rewrite forallb_forall in Hap.
  specialize (Hap y Hy). unfold apart in Hap.
  apply orb_true_iff in Hap as [Hap|Hap];
    [apply Qeq_bool_iff in Hap; contradiction|].
  apply Qle_bool_iff in Hap.
  pose proof allAvgs_rounded as Hr. rewrite forallb_forall in Hr.
  pose proof (Hr x Hx) as Hrx. pose proof (Hr y Hy) as Hry.
  unfold wellRounded in Hrx, Hry. apply Qle_bool_iff in Hrx, Hry.
  apply Qabs_Qle_condition in Hrx, Hry.
  assert (Hc : (double (1 # 64) == 1 # 64)%Q) by (vm_compute; reflexivity).
  assert (Hm : (double (- (1 # 64)) == - (1 # 64))%Q)
    by (vm_compute; reflexivity).
  destruct (Qlt_le_dec (x - y) 0) as [Hlt|Hge].
  - rewrite Qabs_neg in Hap by lra.
    assert (Hd : (double (double x - double y) <= - (1 # 64))%Q).
    { apply Qle_trans with (double (- (1 # 64))); [apply double_le|]; lra. }
    pose proof (Qle_Qabs (- double (double x - double y))) as Habs.
    rewrite Qabs_opp in Habs. lra.
  - rewrite Qabs_pos in Hap by lra.
    assert (Hd : (1 # 64 <= double (double x - double y))%Q).
    { apply Qle_trans with (double (1 # 64)); [|apply double_le]; lra. }
    pose proof (Qle_Qabs (double (double x - double y))). lra.
Qed.

(** The comparator of the sort, the difference of two average frets
    computed on numbers, has the sign of the difference of the quotients:
    [generateAllVoicings] sorts by the quotients. *)
Lemma sort_comparator (x y : Q) :
  In x allAvgs -> In y allAvgs ->
  Qle_bool (double (double x - double y)) 0 = Qle_bool (x - y) 0.
Proof.
  intros Hx Hy.
  assert (H0 : (double 0 == 0)%Q) by reflexivity.
  destruct (Qeq_dec x y) as [He|Hne].
  - assert (Hd : (double x - double y == 0)%Q) by (rewrite He; ring).
    rewrite (double_zero _ Hd).
    destruct (Qle_bool (x - y) 0) eqn:Hb; [reflexivity|].
    assert (Hle : (x - y <= 0)%Q) by lra.
    apply Qle_bool_iff in Hle. congruence.
  - pose proof (allAvgs_far x y Hx Hy Hne) as Hfar.
    destruct (Qlt_le_dec x y) as [Hlt|Hge].
    + assert (Hd : (double (double x - double y) <= 0)%Q).
      { pose proof (double_le x y ltac:(lra)).
        apply Qle_trans with (double 0); [apply double_le|]; lra. }
      assert (Hxy : (x - y <= 0)%Q) by lra.
      apply Qle_bool_iff in Hd, Hxy. now rewrite Hd, Hxy.
    + assert (Hd : (0 <= double (double x - double y))%Q).
      { pose proof (double_le y x Hge). apply double_nonneg. lra. }
      rewrite Qabs_pos in Hfar by exact Hd.
      destruct (Qle_bool (double (double x - double y)) 0) eqn:H1.
      { apply Qle_bool_iff in H1. exfalso. lra. }
      destruct (Qle_bool (x - y) 0) eqn:H2; [|reflexivity].
      apply Qle_bool_iff in H2. exfalso. apply Hne. lra.
Qed.

(** On voicing objects at large a difference of the average frets can be
    lost in the rounding of the sum: the cost is -1 between these two. *)
Example calculateMovementCost_absorbs :
  (calculateMovementCost
     (mkVoicing (JS.lit "C") (JS.lit "E-shape") [] 0 0 0)
     (mkVoicing (JS.lit "C") (JS.lit "E-shape") [] 0 (1 # 2 ^ 60) 0)
   == -1)%Q.
Proof. vm_compute. reflexivity. Qed.

(** X29: calculateMovementCost is symmetric and never below -1; it is -1
    between voicings of the same shape name, the same average fret and the
    same fret span, and only between voicings of the same shape name and
    the same fret span; between voicings that the generator returns it is
    -1 only when their average frets are the same too. *)
Theorem calculateMovementCost_symmetric (a b : Voicing) :
  (calculateMovementCost a b == calculateMovementCost b a)%Q
  /\ (-1 <= calculateMovementCost a b)%Q
  /\ (shapeName a = shapeName b ->
      (avgFret a == avgFret b)%Q ->
      fretSpan a = fretSpan b ->
      (calculateMovementCost a b == -1)%Q)
  /\ ((calculateMovementCost a b == -1)%Q ->
      shapeName a = shapeName b /\ fretSpan a = fretSpan b)
  /\ (forall (useFlats useFlats' : bool) (chord chord' : jsstring)
             (maxFret maxFret' : Z),
         In a (generateAllVoicings useFlats chord maxFret) ->
         In b (generateAllVoicings useFlats' chord' maxFret') ->
         (calculateMovementCost a b == -1)%Q ->
         (avgFret a == avgFret b)%Q).
Proof.
  split; [|split; [|split; [|split]]].
  - unfold calculateMovementCost.
    rewrite (double_minus_sym (avgFretNumber a) (avgFretNumber b)).
    rewrite (double_minus_sym (inject_Z (fretSpan a))
                              (inject_Z (fretSpan b))).
    rewrite (JS_eqb_sym (shapeName a) (shapeName b)). reflexivity.
  - apply movement_bound.
  - intros Hn Ha Hs. unfold calculateMovementCost.
    rewrite Hn, JS_eqb_refl, Hs.
    assert (Havg : (avgFretNumber a == avgFretNumber b)%Q)
      by (unfold avgFretNumber; rewrite Ha; reflexivity).
    rewrite (double_minus_zero _ _ Havg).
    rewrite (double_minus_zero (inject_Z (fretSpan b))
                               (inject_Z (fretSpan b))) by reflexivity.
    vm_compute. reflexivity.
  - intros Heq. destruct (movement_bound a b) as (_ & H0 & Hh).
    split.
    + apply JS_eqb_eq.
      destruct (JS.eqb (shapeName a) (shapeName b)); [reflexivity|].
      specialize (H0 eq_refl). exfalso. lra.
    + destruct (Z.eq_dec (fretSpan a) (fretSpan b)) as [He|Hne];
        [exact He|].
      specialize (Hh Hne). exfalso. lra.
  - intros useFlats useFlats' chord chord' maxFret maxFret' Ha Hb Heq.
    destruct (Qeq_dec (avgFret a) (avgFret b)) as [He|Hne]; [exact He|].
    exfalso.
    pose proof (allAvgs_far _ _ (generated_avg _ _ _ _ Ha)
                  (generated_avg _ _ _ _ Hb) Hne) as Hfar.
    pose proof (movement_far a b Hfar). lra.
Qed.
